(** * YomisubAPI: the conjugation engine, the grammar-phrase matcher, the
    English hint generator and the dictionary entry scoring.

    A shallow embedding of [services/verb.py],
    [services/conjugation/phrases.py], [services/conjugation/helpers.py],
    the verb branch of [conjugate_word] in [services/conjugation.py] and
    [services/jmdict.py].

    Python strings are sequences of code points: a [str] is a [list N].
    Literals are written as UTF-8 Rocq strings and decoded by [u].
    Python exceptions are the [Err] case of the [result] monad. *)

From Stdlib Require Import String Ascii.
From Stdlib Require Import List NArith ZArith Bool Lia Sorted.
Import ListNotations.
Open Scope list_scope.

(* ------------------------------------------------------------------ *)
(** ** Python strings *)

Definition str := list N.

Fixpoint bytes_of (s : string) : list N :=
  match s with
  | EmptyString => []
  | String a s' => N_of_ascii a :: bytes_of s'
  end.

(** UTF-8 decoding of a literal into code points. *)
Fixpoint utf8_decode (bs : list N) : list N :=
  match bs with
  | [] => []
  | b0 :: rest =>
      if (b0 <? 128)%N then b0 :: utf8_decode rest
      else if (b0 <? 224)%N then
        match rest with
        | b1 :: r =>
            (N.shiftl (N.land b0 31) 6 + N.land b1 63)%N :: utf8_decode r
        | [] => []
        end
      else if (b0 <? 240)%N then
        match rest with
        | b1 :: b2 :: r =>
            (N.shiftl (N.land b0 15) 12 + N.shiftl (N.land b1 63) 6
             + N.land b2 63)%N :: utf8_decode r
        | _ => []
        end
      else
        match rest with
        | b1 :: b2 :: b3 :: r =>
            (N.shiftl (N.land b0 7) 18 + N.shiftl (N.land b1 63) 12
             + N.shiftl (N.land b2 63) 6 + N.land b3 63)%N :: utf8_decode r
        | _ => []
        end
  end.

Definition u (s : string) : str := utf8_decode (bytes_of s).

Definition str_eqb (s t : str) : bool :=
  if list_eq_dec N.eq_dec s t then true else false.

(** [x in (a, b, ...)] on strings. *)
Definition str_in (x : str) (xs : list str) : bool := existsb (str_eqb x) xs.

(** [s.endswith(suf)] and [s.startswith(pre)]. *)
Definition ends_with (s suf : str) : bool :=
  Nat.leb (length suf) (length s)
  && str_eqb (skipn (length s - length suf) s) suf.

Definition starts_with (s pre : str) : bool :=
  Nat.leb (length pre) (length s) && str_eqb (firstn (length pre) s) pre.

(** [s[:-n]]: never fails, empty when [len(s) <= n]. *)
Definition drop_last (n : nat) (s : str) : str := firstn (length s - n) s.

(* ------------------------------------------------------------------ *)
(** ** Exceptions *)

Inductive exn := ValueError | IndexError | AttributeError.

Inductive result (A : Type) : Type :=
| Ok (a : A)
| Err (e : exn).
Arguments Ok {A} a.
Arguments Err {A} e.

Definition bind {A B} (m : result A) (k : A -> result B) : result B :=
  match m with
  | Ok a => k a
  | Err e => Err e
  end.

Notation "x <- m ;; k" := (bind m (fun x => k))
  (at level 61, m at next level, right associativity).

(** [l[0]] *)
Definition index0 {A} (l : list A) : result A :=
  match l with
  | [] => Err IndexError
  | a :: _ => Ok a
  end.

(** [s[-1]] and [s[0]] on a string: a one-character string. *)
Definition last_char (s : str) : result str :=
  match rev s with
  | [] => Err IndexError
  | c :: _ => Ok [c]
  end.

Definition first_char (s : str) : result str :=
  match s with
  | [] => Err IndexError
  | c :: _ => Ok [c]
  end.

(** [out = []; for x in xs: out.extend(f(x))] *)
Fixpoint concat_map_r {A B} (f : A -> result (list B)) (xs : list A)
  : result (list B) :=
  match xs with
  | [] => Ok []
  | x :: xs' => ys <- f x ;; zs <- concat_map_r f xs' ;; Ok (ys ++ zs)
  end.

(** [[f(x) for x in xs]] where [f] may raise. *)
Fixpoint map_r {A B} (f : A -> result B) (xs : list A) : result (list B) :=
  match xs with
  | [] => Ok []
  | x :: xs' => y <- f x ;; ys <- map_r f xs' ;; Ok (y :: ys)
  end.

(* ------------------------------------------------------------------ *)
(** ** Enumerations of [verb.py] *)

Inductive Conjugation :=
| NEGATIVE | CONJUNCTIVE | DICTIONARY | CONDITIONAL | IMPERATIVE
| VOLITIONAL | TE | TA | TARA | TARI | ZU | NU.

(** Iteration order of [for conj in Conjugation]. *)
Definition all_conjugations : list Conjugation :=
  [NEGATIVE; CONJUNCTIVE; DICTIONARY; CONDITIONAL; IMPERATIVE;
   VOLITIONAL; TE; TA; TARA; TARI; ZU; NU].

Inductive Auxiliary :=
| POTENTIAL | MASU | NAI | TAI | TAGARU | HOSHII | RASHII
| SOUDA_HEARSAY | SOUDA_CONJECTURE
| SERU_SASERU | SHORTENED_CAUSATIVE | RERU_RARERU | CAUSATIVE_PASSIVE
| SHORTENED_CAUSATIVE_PASSIVE
| AGERU | SASHIAGERU | YARU | MORAU | ITADAKU | KURERU | KUDASARU
| TE_IRU | TE_ARU | MIRU | IKU | KURU | OKU | SHIMAU | TE_ORU
| SUGIRU | YASUI | NIKUI
| HAJIMERU | OWARU | TSUZUKERU | DASU
| GARU | SOU_APPEARANCE.

(** Iteration order of [for aux in Auxiliary]. *)
Definition all_auxiliaries : list Auxiliary :=
  [POTENTIAL; MASU; NAI; TAI; TAGARU; HOSHII; RASHII;
   SOUDA_HEARSAY; SOUDA_CONJECTURE;
   SERU_SASERU; SHORTENED_CAUSATIVE; RERU_RARERU; CAUSATIVE_PASSIVE;
   SHORTENED_CAUSATIVE_PASSIVE;
   AGERU; SASHIAGERU; YARU; MORAU; ITADAKU; KURERU; KUDASARU;
   TE_IRU; TE_ARU; MIRU; IKU; KURU; OKU; SHIMAU; TE_ORU;
   SUGIRU; YASUI; NIKUI;
   HAJIMERU; OWARU; TSUZUKERU; DASU;
   GARU; SOU_APPEARANCE].

Scheme Equality for Conjugation.
Scheme Equality for Auxiliary.

Definition aux_in (a : Auxiliary) (l : list Auxiliary) : bool :=
  existsb (Auxiliary_beq a) l.

(* ------------------------------------------------------------------ *)
(** ** Kana tables of [verb.py] *)

(** [_HIRAGANA_TABLE]: base -> [a-row, i-row, u-row, e-row, o-row]. *)
Definition _HIRAGANA_TABLE : list (str * list str) :=
  [(u "う", [u "わ"; u "い"; u "う"; u "え"; u "お"]);
   (u "く", [u "か"; u "き"; u "く"; u "け"; u "こ"]);
   (u "ぐ", [u "が"; u "ぎ"; u "ぐ"; u "げ"; u "ご"]);
   (u "す", [u "さ"; u "し"; u "す"; u "せ"; u "そ"]);
   (u "ず", [u "ざ"; u "じ"; u "ず"; u "ぜ"; u "ぞ"]);
   (u "つ", [u "た"; u "ち"; u "つ"; u "て"; u "と"]);
   (u "づ", [u "だ"; u "ぢ"; u "づ"; u "で"; u "ど"]);
   (u "ぬ", [u "な"; u "に"; u "ぬ"; u "ね"; u "の"]);
   (u "ふ", [u "は"; u "ひ"; u "ふ"; u "へ"; u "ほ"]);
   (u "ぶ", [u "ば"; u "び"; u "ぶ"; u "べ"; u "ぼ"]);
   (u "ぷ", [u "ぱ"; u "ぴ"; u "ぷ"; u "ぺ"; u "ぽ"]);
   (u "む", [u "ま"; u "み"; u "む"; u "め"; u "も"]);
   (u "る", [u "ら"; u "り"; u "る"; u "れ"; u "ろ"])].

(** Dictionary lookup [d.get(k)] on an association list. *)
Fixpoint assoc {B} (k : str) (d : list (str * B)) : option B :=
  match d with
  | [] => None
  | (k', v) :: d' => if str_eqb k k' then Some v else assoc k d'
  end.

Definition _lookup_hiragana (base : str) (index : nat) : result str :=
  match assoc base _HIRAGANA_TABLE with
  | None => Err ValueError
  | Some row =>
      match nth_error row index with
      | Some k => Ok k
      | None => Err IndexError
      end
  end.

(** [_TE_TA_FORMS]: final char -> [te, ta, tara, tari]. *)
Definition _TE_TA_FORMS : list (str * list str) :=
  [(u "く", [u "いて"; u "いた"; u "いたら"; u "いたり"]);
   (u "ぐ", [u "いで"; u "いだ"; u "いだら"; u "いだり"]);
   (u "す", [u "して"; u "した"; u "したら"; u "したり"]);
   (u "ぬ", [u "んで"; u "んだ"; u "んだら"; u "んだり"]);
   (u "ぶ", [u "んで"; u "んだ"; u "んだら"; u "んだり"]);
   (u "む", [u "んで"; u "んだ"; u "んだら"; u "んだり"]);
   (u "つ", [u "って"; u "った"; u "ったら"; u "ったり"]);
   (u "る", [u "って"; u "った"; u "ったら"; u "ったり"]);
   (u "う", [u "って"; u "った"; u "ったら"; u "ったり"])].

(** [_SPECIAL_CASES]: [verb in _SPECIAL_CASES and conj in _SPECIAL_CASES[verb]]. *)
Definition _SPECIAL_CASES (verb : str) (conj : Conjugation) : option str :=
  if str_eqb verb (u "ある") then
    match conj with NEGATIVE => Some ([]) | _ => None end
  else if str_eqb verb (u "ござる") then
    match conj with CONJUNCTIVE => Some (u "ござい") | _ => None end
  else if str_eqb verb (u "いらっしゃる") then
    match conj with
    | CONJUNCTIVE | CONDITIONAL | IMPERATIVE => Some (u "いらっしゃい")
    | _ => None
    end
  else None.

(** [_CONJ_TO_INDEX] *)
Definition _CONJ_TO_INDEX (c : Conjugation) : option nat :=
  match c with
  | NEGATIVE | ZU | NU => Some 0
  | CONJUNCTIVE => Some 1
  | DICTIONARY => Some 2
  | CONDITIONAL => Some 3
  | VOLITIONAL => Some 4
  | _ => None
  end.

(* ------------------------------------------------------------------ *)
(** ** Irregular verbs *)

Definition _conjugate_kuru (verb : str) (conj : Conjugation) : result (list str) :=
  let is_kanji := starts_with verb (u "来") in
  let prefix := if is_kanji then u "来" else [] in
  match conj with
  | NEGATIVE | ZU | NU => Ok [prefix ++ u "こ"]
  | CONJUNCTIVE => Ok [prefix ++ u "き"]
  | DICTIONARY => Ok [prefix ++ u "くる"]
  | CONDITIONAL => Ok [prefix ++ u "くれ"]
  | IMPERATIVE => Ok [prefix ++ u "こい"]
  | VOLITIONAL => Ok [prefix ++ u "こよう"]
  | TE => Ok [prefix ++ u "きて"]
  | TA => Ok [prefix ++ u "きた"]
  | TARA => Ok [prefix ++ u "きたら"]
  | TARI => Ok [prefix ++ u "きたり"]
  end.

Definition _conjugate_suru (conj : Conjugation) : result (list str) :=
  match conj with
  | NEGATIVE => Ok [u "し"]
  | CONJUNCTIVE => Ok [u "し"]
  | DICTIONARY => Ok [u "する"]
  | CONDITIONAL => Ok [u "すれ"]
  | IMPERATIVE => Ok [u "しろ"; u "せよ"]
  | VOLITIONAL => Ok [u "しよう"]
  | TE => Ok [u "して"]
  | TA => Ok [u "した"]
  | TARA => Ok [u "したら"]
  | TARI => Ok [u "したり"]
  | ZU => Ok [u "せず"]
  | NU => Ok [u "せぬ"]
  end.

Definition _conjugate_da (conj : Conjugation) : result (list str) :=
  match conj with
  | NEGATIVE => Ok [u "でない"; u "ではない"; u "じゃない"]
  | DICTIONARY => Ok [u "だ"]
  | CONDITIONAL => Ok [u "なら"]
  | TE => Ok [u "で"]
  | TA => Ok [u "だった"]
  | TARA => Ok [u "だったら"]
  | TARI => Ok [u "だったり"]
  | _ => Err ValueError
  end.

Definition _conjugate_desu (conj : Conjugation) : result (list str) :=
  match conj with
  | NEGATIVE => Ok [u "でありません"; u "ではありません"]
  | DICTIONARY => Ok [u "です"]
  | TE => Ok [u "でして"]
  | TA => Ok [u "でした"]
  | TARA => Ok [u "でしたら"]
  | TARI => Ok [u "でしたり"]
  | _ => Err ValueError
  end.

(* ------------------------------------------------------------------ *)
(** ** Type I (godan) and Type II (ichidan) verbs *)

Definition te_ta_idx (c : Conjugation) : option nat :=
  match c with
  | TE => Some 0 | TA => Some 1 | TARA => Some 2 | TARI => Some 3
  | _ => None
  end.

Definition _conjugate_type1 (verb : str) (conj : Conjugation) : result (list str) :=
  if str_eqb verb (u "する") then _conjugate_suru conj
  else if str_in verb [u "くる"; u "来る"] then _conjugate_kuru verb conj
  else if str_eqb verb (u "だ") then _conjugate_da conj
  else if str_eqb verb (u "です") then _conjugate_desu conj
  else if ends_with verb (u "くださる") then
    match conj with
    | DICTIONARY => Ok [verb]
    | CONJUNCTIVE => Ok [drop_last 2 verb ++ u "さい"]
    | _ => Err ValueError
    end
  else
  match _SPECIAL_CASES verb conj with
  | Some s => Ok [s]
  | None =>
    let head := drop_last 1 verb in
    tail <- last_char verb ;;
    match _CONJ_TO_INDEX conj with
    | Some idx =>
        if str_eqb tail (u "う") && Nat.eqb idx 0 then Ok [head ++ u "わ"]
        else k <- _lookup_hiragana tail idx ;; Ok [head ++ k]
    | None =>
        match conj with
        | IMPERATIVE => k <- _lookup_hiragana tail 3 ;; Ok [head ++ k]
        | _ =>
          match te_ta_idx conj with
          | Some i =>
              let lookup_key :=
                if str_in verb [u "行く"; u "いく"] then u "つ" else tail in
              match assoc lookup_key _TE_TA_FORMS with
              | None => Err ValueError
              | Some forms =>
                  match nth_error forms i with
                  | Some s => Ok [head ++ s]
                  | None => Err IndexError
                  end
              end
          | None => Err ValueError
          end
        end
    end
  end.

Definition _conjugate_type2 (verb : str) (conj : Conjugation) : result (list str) :=
  if str_eqb verb (u "する") then _conjugate_suru conj
  else if str_in verb [u "くる"; u "来る"] then _conjugate_kuru verb conj
  else if str_eqb verb (u "だ") then _conjugate_da conj
  else if str_eqb verb (u "です") then _conjugate_desu conj
  else
  let head := drop_last 1 verb in
  match conj with
  | NEGATIVE | ZU | NU => Ok [head]
  | CONJUNCTIVE => Ok [head]
  | DICTIONARY => Ok [verb]
  | CONDITIONAL => Ok [head ++ u "れ"]
  | IMPERATIVE => Ok [head ++ u "ろ"; head ++ u "よ"]
  | VOLITIONAL => Ok [head ++ u "よう"]
  | TE => Ok [head ++ u "て"]
  | TA => Ok [head ++ u "た"]
  | TARA => Ok [head ++ u "たら"]
  | TARI => Ok [head ++ u "たり"]
  end.

(** [verb[-1] == "る" and type2]: [verb[-1]] is evaluated first. *)
Definition _conjugate_strict (verb : str) (conj : Conjugation) (type2 : bool)
  : result (list str) :=
  t <- last_char verb ;;
  if str_eqb t (u "る") && type2 then _conjugate_type2 verb conj
  else _conjugate_type1 verb conj.

Definition conjugate (verb : str) (conj : Conjugation) (type2 : bool)
  : result (list str) :=
  result0 <- _conjugate_strict verb conj type2 ;;
  let add (suffix : str) :=
    r0 <- index0 result0 ;; Ok (result0 ++ [r0 ++ suffix]) in
  match conj with
  | NEGATIVE | ZU | NU =>
      if str_in verb [u "だ"; u "です"] then Ok result0
      else match conj with
           | NEGATIVE => add (u "ない")
           | ZU => add (u "ず")
           | _ => add (u "ぬ")
           end
  | CONJUNCTIVE => add (u "ます")
  | CONDITIONAL => add (u "ば")
  | VOLITIONAL => add (u "う")
  | _ => Ok result0
  end.

(* ------------------------------------------------------------------ *)
(** ** Auxiliaries: [_conjugate_auxiliary] *)

(** [conjugate(verb, c, type2)[0]] *)
Definition conj0 (verb : str) (c : Conjugation) (type2 : bool) : result str :=
  r <- conjugate verb c type2 ;; index0 r.

Definition masu_aux (verb : str) (conj : Conjugation) (type2 : bool)
  : result (list str) :=
  base <- conj0 verb CONJUNCTIVE type2 ;;
  match conj with
  | NEGATIVE => Ok [base ++ u "ません"; base ++ u "ませんでした"]
  | DICTIONARY => Ok [base ++ u "ます"]
  | CONDITIONAL => Ok [base ++ u "ますれば"]
  | IMPERATIVE => Ok [base ++ u "ませ"; base ++ u "まし"]
  | VOLITIONAL => Ok [base ++ u "ましょう"]
  | TE => Ok [base ++ u "まして"]
  | TA => Ok [base ++ u "ました"]
  | TARA => Ok [base ++ u "ましたら"]
  | _ => Err ValueError
  end.

Definition nai_aux (verb : str) (conj : Conjugation) (type2 : bool)
  : result (list str) :=
  base <- conj0 verb NEGATIVE type2 ;;
  match conj with
  | NEGATIVE => Ok [base ++ u "なくはない"]
  | CONJUNCTIVE => Ok [base ++ u "なく"]
  | DICTIONARY => Ok [base ++ u "ない"]
  | CONDITIONAL => Ok [base ++ u "なければ"]
  | TE => Ok [base ++ u "なくて"; base ++ u "ないで"]
  | TA => Ok [base ++ u "なかった"]
  | TARA => Ok [base ++ u "なかったら"]
  | _ => Err ValueError
  end.

Definition tai_aux (verb : str) (conj : Conjugation) (type2 : bool)
  : result (list str) :=
  base <- conj0 verb CONJUNCTIVE type2 ;;
  match conj with
  | NEGATIVE => Ok [base ++ u "たくない"]
  | CONJUNCTIVE => Ok [base ++ u "たく"]
  | DICTIONARY => Ok [base ++ u "たい"]
  | CONDITIONAL => Ok [base ++ u "たければ"]
  | TE => Ok [base ++ u "たくて"]
  | TA => Ok [base ++ u "たかった"]
  | TARA => Ok [base ++ u "たかったら"]
  | _ => Err ValueError
  end.

Definition tagaru_aux (verb : str) (conj : Conjugation) (type2 : bool)
  : result (list str) :=
  match conj with
  | CONDITIONAL | IMPERATIVE | VOLITIONAL | TARI => Err ValueError
  | _ =>
    bases <- conjugate verb CONJUNCTIVE type2 ;;
    tagaru_conj <- conjugate (u "たがる") conj false ;;
    map_r (fun suffix => b <- index0 bases ;; Ok (b ++ suffix)) tagaru_conj
  end.

Definition hoshii_aux (verb : str) (conj : Conjugation) (type2 : bool)
  : result (list str) :=
  base <- conj0 verb TE type2 ;;
  match conj with
  | NEGATIVE => Ok [base ++ u "ほしくない"]
  | CONJUNCTIVE => Ok [base ++ u "ほしく"]
  | DICTIONARY => Ok [base ++ u "ほしい"]
  | CONDITIONAL => Ok [base ++ u "ほしければ"]
  | TE => Ok [base ++ u "ほしくて"]
  | TA => Ok [base ++ u "ほしかった"]
  | TARA => Ok [base ++ u "ほしかったら"]
  | _ => Err ValueError
  end.

(** The recursive call [_conjugate_auxiliary(verb, NAI, DICTIONARY)] uses
    the default [type2=False]. *)
Definition rashii_aux (verb : str) (conj : Conjugation) (type2 : bool)
  : result (list str) :=
  base1 <- conj0 verb TA type2 ;;
  let base2 := verb in
  let bases := [base1; base2] in
  match conj with
  | NEGATIVE =>
      r <- nai_aux verb DICTIONARY false ;; neg <- index0 r ;;
      Ok [neg ++ u "らしい"]
  | CONJUNCTIVE => Ok (map (fun b => b ++ u "らしく") bases)
  | DICTIONARY => Ok (map (fun b => b ++ u "らしい") bases)
  | TE => Ok (map (fun b => b ++ u "らしくて") bases)
  | _ => Err ValueError
  end.

Definition souda_hearsay_aux (verb : str) (conj : Conjugation) (type2 : bool)
  : result (list str) :=
  base1 <- conj0 verb TA type2 ;;
  let base2 := verb in
  match conj with
  | DICTIONARY => Ok [base1 ++ u "そうだ"; base2 ++ u "そうだ"]
  | _ => Err ValueError
  end.

Definition souda_conjecture_aux (verb : str) (conj : Conjugation) (type2 : bool)
  : result (list str) :=
  base <- conj0 verb CONJUNCTIVE type2 ;;
  match conj with
  | DICTIONARY => Ok [base ++ u "そうだ"; base ++ u "そうです"]
  | CONDITIONAL => Ok [base ++ u "そうなら"]
  | TA => Ok [base ++ u "そうだった"; base ++ u "そうでした"]
  | _ => Err ValueError
  end.

(** [SERU_SASERU | SHORTENED_CAUSATIVE]; [shortened] tells which. *)
Definition causative_aux (shortened : bool) (verb : str) (conj : Conjugation)
  (type2 : bool) : result (list str) :=
  match conj with
  | TARA | TARI => Err ValueError
  | _ =>
    new_verb <-
      (if str_in verb [u "来る"; u "くる"] then
         f <- first_char verb ;;
         let prefix := if str_eqb f (u "来") then u "来" else u "こ" in
         Ok (prefix ++ u "させる")
       else if str_eqb verb (u "する") then Ok (u "させる")
       else if type2 then
         r <- _conjugate_type2 verb NEGATIVE ;; h <- index0 r ;;
         Ok (h ++ u "させる")
       else
         r <- _conjugate_type1 verb NEGATIVE ;; h <- index0 r ;;
         Ok (h ++ u "せる")) ;;
    if shortened then conjugate (drop_last 2 new_verb ++ u "す") conj false
    else conjugate new_verb conj true
  end.

Definition reru_rareru_aux (verb : str) (conj : Conjugation) (type2 : bool)
  : result (list str) :=
  match conj with
  | IMPERATIVE | VOLITIONAL | TARA | TARI => Err ValueError
  | _ =>
    new_verb <-
      (if str_in verb [u "来る"; u "くる"] then
         f <- first_char verb ;;
         let prefix := if str_eqb f (u "来") then u "来" else u "こ" in
         Ok (prefix ++ u "られる")
       else if str_eqb verb (u "する") then Ok (u "される")
       else if type2 then
         r <- _conjugate_type2 verb NEGATIVE ;; h <- index0 r ;;
         Ok (h ++ u "られる")
       else
         r <- _conjugate_type1 verb NEGATIVE ;; h <- index0 r ;;
         Ok (h ++ u "れる")) ;;
    conjugate new_verb conj true
  end.

Definition potential_aux (verb : str) (conj : Conjugation) (type2 : bool)
  : result (list str) :=
  r <- (if type2 then _conjugate_type2 verb CONDITIONAL
        else _conjugate_type1 verb CONDITIONAL) ;;
  h <- index0 r ;;
  conjugate (h ++ u "る") conj true.

(** The [endings] table of the te-form auxiliaries. *)
Definition te_endings (aux : Auxiliary) : list str :=
  match aux with
  | AGERU => [u "あげる"]
  | SASHIAGERU => [u "差し上げる"; u "さしあげる"]
  | YARU => [u "やる"]
  | MORAU => [u "もらう"]
  | ITADAKU => [u "いただく"]
  | KURERU => [u "くれる"]
  | KUDASARU => [u "くださる"]
  | TE_IRU => [u "いる"; u "る"]
  | TE_ARU => [u "ある"]
  | MIRU => [u "みる"]
  | IKU => [u "いく"]
  | KURU => [u "くる"]
  | OKU => [u "おく"]
  | _ => [u "おる"]   (* TE_ORU *)
  end.

Definition te_aux (aux : Auxiliary) (verb : str) (conj : Conjugation)
  (type2 : bool) : result (list str) :=
  vte <- conj0 verb TE type2 ;;
  let endings := te_endings aux in
  match aux with
  | KURU =>
      ks <- conjugate (u "くる") conj false ;;
      Ok (map (fun suffix => vte ++ suffix) ks)
  | _ =>
    let ending_type2 := aux_in aux [AGERU; SASHIAGERU; KURERU; TE_IRU; MIRU] in
    let new_verbs := map (fun e => vte ++ e) endings in
    new_verbs <-
      (match aux with
       | OKU =>
           l <- last_char vte ;;
           Ok (new_verbs ++ [drop_last 1 vte ++
                (if str_eqb l (u "で") then u "どく" else u "とく")])
       | IKU => Ok (new_verbs ++ [vte ++ u "く"])
       | _ => Ok new_verbs
       end) ;;
    concat_map_r (fun v => conjugate v conj ending_type2) new_verbs
  end.

Definition shimau_aux (verb : str) (conj : Conjugation) (type2 : bool)
  : result (list str) :=
  vte <- conj0 verb TE type2 ;;
  shimau <- conjugate (vte ++ u "しまう") conj false ;;
  let no_te := drop_last 1 vte in
  if ends_with vte (u "て") then
    chau <- conjugate (no_te ++ u "ちゃう") conj false ;;
    chimau <- conjugate (no_te ++ u "ちまう") conj false ;;
    Ok (shimau ++ chau ++ chimau)
  else
    jimau <- conjugate (no_te ++ u "じまう") conj false ;;
    dimau <- conjugate (no_te ++ u "ぢまう") conj false ;;
    Ok (shimau ++ jimau ++ dimau).

Definition _conjugate_auxiliary (verb : str) (aux : Auxiliary)
  (conj : Conjugation) (type2 : bool) : result (list str) :=
  match aux with
  | POTENTIAL => potential_aux verb conj type2
  | MASU => masu_aux verb conj type2
  | NAI => nai_aux verb conj type2
  | TAI => tai_aux verb conj type2
  | TAGARU => tagaru_aux verb conj type2
  | HOSHII => hoshii_aux verb conj type2
  | RASHII => rashii_aux verb conj type2
  | SOUDA_HEARSAY => souda_hearsay_aux verb conj type2
  | SOUDA_CONJECTURE => souda_conjecture_aux verb conj type2
  | SERU_SASERU => causative_aux false verb conj type2
  | SHORTENED_CAUSATIVE => causative_aux true verb conj type2
  | RERU_RARERU => reru_rareru_aux verb conj type2
  | CAUSATIVE_PASSIVE =>
      r <- causative_aux false verb NEGATIVE type2 ;; causative <- index0 r ;;
      conjugate (causative ++ u "られる") conj true
  | SHORTENED_CAUSATIVE_PASSIVE =>
      r <- causative_aux true verb NEGATIVE type2 ;; causative <- index0 r ;;
      conjugate (causative ++ u "れる") conj true
  | AGERU | SASHIAGERU | YARU | MORAU | ITADAKU | KURERU | KUDASARU
  | TE_IRU | TE_ARU | MIRU | IKU | KURU | OKU | TE_ORU =>
      te_aux aux verb conj type2
  | SHIMAU => shimau_aux verb conj type2
  | _ => Err ValueError
  end.

(* ------------------------------------------------------------------ *)
(** ** Auxiliary chains: [conjugate_auxiliaries] *)

(** Auxiliaries that may only be the last of a chain. *)
Definition final_only : list Auxiliary :=
  [MASU; NAI; TAI; HOSHII; RASHII; SOUDA_CONJECTURE; SOUDA_HEARSAY].

(** [current_type2] after applying [aux]. *)
Definition type2_after (aux : Auxiliary) : bool :=
  aux_in aux [POTENTIAL; SERU_SASERU; RERU_RARERU; CAUSATIVE_PASSIVE;
              SHORTENED_CAUSATIVE_PASSIVE; AGERU; SASHIAGERU; KURERU; MIRU;
              TE_IRU].

(** The [for i, aux in enumerate(auxiliaries)] loop: [prev] is
    [auxiliaries[i-1]], and [aux] is the last one when [rest] is empty. *)
Fixpoint aux_loop (auxs : list Auxiliary) (prev : option Auxiliary)
  (verbs : list str) (current_type2 : bool) (final_conj : Conjugation)
  : result (list str) :=
  match auxs with
  | [] => Ok verbs
  | aux :: rest =>
    let is_last := match rest with [] => true | _ => false end in
    let conj := if is_last then final_conj else DICTIONARY in
    if negb is_last && aux_in aux final_only then Err ValueError
    else
    verbs' <-
      (match prev with
       | Some KURU =>
           let heads := map (drop_last 2) verbs in
           tails <- _conjugate_auxiliary (u "くる") aux conj false ;;
           Ok (flat_map (fun head => map (fun tail => head ++ tail) tails) heads)
       | _ =>
           concat_map_r (fun v => _conjugate_auxiliary v aux conj current_type2)
             verbs
       end) ;;
    aux_loop rest (Some aux) verbs' (type2_after aux) final_conj
  end.

Definition conjugate_auxiliaries (verb : str) (auxiliaries : list Auxiliary)
  (final_conj : Conjugation) (type2 : bool) : result (list str) :=
  match auxiliaries with
  | [] => conjugate verb final_conj type2
  | _ =>
    if str_in verb [u "だ"; u "です"] then
      match auxiliaries with
      | [NAI] =>
          match final_conj with
          | TA =>
              if str_eqb verb (u "だ") then Ok [u "ではなかった"; u "じゃなかった"]
              else Ok [u "ではありませんでした"; u "でありませんでした"]
          | TE => if str_eqb verb (u "だ") then Ok [u "じゃなくて"] else Err ValueError
          | CONJUNCTIVE =>
              if str_eqb verb (u "だ") then Ok [u "じゃなく"] else Err ValueError
          | _ => Err ValueError
          end
      | _ => Err ValueError
      end
    else aux_loop auxiliaries None [verb] type2 final_conj
  end.

(* ------------------------------------------------------------------ *)
(** ** Deconjugation: [deconjugate_verb] *)

Record VerbDeconjugated := {
  auxiliaries : list Auxiliary;
  conjugation : Conjugation;
  vd_result : list str
}.

(** One [try: result = ...; if conjugated in result: hits.append(...)
    except ValueError: pass] step; other exceptions propagate. *)
Definition try_hit (conjugated : str) (r : result (list str))
  (auxs : list Auxiliary) (conj : Conjugation) (hits : list VerbDeconjugated)
  : result (list VerbDeconjugated) :=
  match r with
  | Ok res =>
      if str_in conjugated res then
        Ok (hits ++ [{| auxiliaries := auxs; conjugation := conj;
                        vd_result := res |}])
      else Ok hits
  | Err ValueError => Ok hits
  | Err e => Err e
  end.

(** The nested [for] loops, flattened into the list of the
    [(auxiliaries, conjugation)] pairs they visit, in order. *)
Fixpoint scan (conjugated : str)
  (f : list Auxiliary -> Conjugation -> result (list str))
  (cands : list (list Auxiliary * Conjugation)) (hits : list VerbDeconjugated)
  : result (list VerbDeconjugated) :=
  match cands with
  | [] => Ok hits
  | (auxs, c) :: cands' =>
      hits' <- try_hit conjugated (f auxs c) auxs c hits ;;
      scan conjugated f cands' hits'
  end.

Definition with_conjs (chains : list (list Auxiliary))
  : list (list Auxiliary * Conjugation) :=
  flat_map (fun ch => map (fun c => (ch, c)) all_conjugations) chains.

Definition penultimates : list Auxiliary :=
  [AGERU; SASHIAGERU; YARU; MORAU; ITADAKU; KURERU; KUDASARU; MIRU; IKU;
   KURU; OKU; SHIMAU; TE_IRU; TE_ARU; TE_ORU; POTENTIAL; RERU_RARERU;
   SERU_SASERU].

Definition depth2_finals : list Auxiliary :=
  [MASU; SOUDA_CONJECTURE; SOUDA_HEARSAY; TE_IRU; TAI; NAI; YARU; MIRU; OKU;
   SHIMAU].

Definition antepenultimates : list Auxiliary := [SERU_SASERU; RERU_RARERU; ITADAKU].

Definition depth3_finals : list Auxiliary := [MASU].

Definition depth0_cands := with_conjs [[]].
Definition depth1_cands := with_conjs (map (fun a => [a]) all_auxiliaries).
Definition depth2_cands :=
  with_conjs (flat_map (fun p => map (fun f => [p; f]) depth2_finals) penultimates).
Definition depth3_cands :=
  with_conjs (flat_map (fun a => flat_map (fun p =>
    map (fun f => [a; p; f]) depth3_finals) penultimates) antepenultimates).

Definition deconjugate_verb (conjugated dictionary_form : str) (type2 : bool)
  (max_aux_depth : Z) : result (list VerbDeconjugated) :=
  hits <- scan conjugated (fun _ c => conjugate dictionary_form c type2)
            depth0_cands [] ;;
  if (max_aux_depth <? 1)%Z then Ok hits else
  hits <- scan conjugated
            (fun auxs c =>
               match auxs with
               | [aux] => _conjugate_auxiliary dictionary_form aux c type2
               | _ => Err ValueError
               end)
            depth1_cands hits ;;
  if (max_aux_depth <? 2)%Z then Ok hits else
  hits <- scan conjugated
            (fun auxs c => conjugate_auxiliaries dictionary_form auxs c type2)
            depth2_cands hits ;;
  if (max_aux_depth <? 3)%Z then Ok hits else
  scan conjugated
       (fun auxs c => conjugate_auxiliaries dictionary_form auxs c type2)
       depth3_cands hits.

(* ------------------------------------------------------------------ *)
(** ** English hint generator: [helpers.generate_translation_hint] *)

(** Python member names of [Auxiliary]; [Auxiliary.<name>] resolves
    through [aux_by_name] and raises [AttributeError] on a missing name. *)
Local Open Scope string_scope.
Definition aux_name (a : Auxiliary) : string :=
  match a with
  | POTENTIAL => "POTENTIAL" | MASU => "MASU" | NAI => "NAI" | TAI => "TAI"
  | TAGARU => "TAGARU" | HOSHII => "HOSHII" | RASHII => "RASHII"
  | SOUDA_HEARSAY => "SOUDA_HEARSAY" | SOUDA_CONJECTURE => "SOUDA_CONJECTURE"
  | SERU_SASERU => "SERU_SASERU" | SHORTENED_CAUSATIVE => "SHORTENED_CAUSATIVE"
  | RERU_RARERU => "RERU_RARERU" | CAUSATIVE_PASSIVE => "CAUSATIVE_PASSIVE"
  | SHORTENED_CAUSATIVE_PASSIVE => "SHORTENED_CAUSATIVE_PASSIVE"
  | AGERU => "AGERU" | SASHIAGERU => "SASHIAGERU" | YARU => "YARU"
  | MORAU => "MORAU" | ITADAKU => "ITADAKU" | KURERU => "KURERU"
  | KUDASARU => "KUDASARU" | TE_IRU => "TE_IRU" | TE_ARU => "TE_ARU"
  | MIRU => "MIRU" | IKU => "IKU" | KURU => "KURU" | OKU => "OKU"
  | SHIMAU => "SHIMAU" | TE_ORU => "TE_ORU" | SUGIRU => "SUGIRU"
  | YASUI => "YASUI" | NIKUI => "NIKUI" | HAJIMERU => "HAJIMERU"
  | OWARU => "OWARU" | TSUZUKERU => "TSUZUKERU" | DASU => "DASU"
  | GARU => "GARU" | SOU_APPEARANCE => "SOU_APPEARANCE"
  end.
Local Close Scope string_scope.

Definition aux_by_name (n : string) : option Auxiliary :=
  find (fun a => String.eqb (aux_name a) n) all_auxiliaries.

(** A value pattern [case Auxiliary.A | Auxiliary.B:]: the names are
    resolved left to right, until one equals the subject. *)
Fixpoint pattern_matches (aux : Auxiliary) (names : list string) : result bool :=
  match names with
  | [] => Ok false
  | n :: ns =>
      match aux_by_name n with
      | None => Err AttributeError
      | Some a => if Auxiliary_beq aux a then Ok true else pattern_matches aux ns
      end
  end.

(** The running state of the loop: [hint] and [has_potential]. *)
Definition HintState := (str * bool)%type.

(** The [match aux:] cases of the loop, in source order. *)
Definition aux_cases (type2 : bool)
  : list (list string * (HintState -> HintState)) :=
  [(["POTENTIAL"%string], fun '(h, _) => (u "can " ++ h, true));
   (["RERU_RARERU"%string], fun '(h, p) =>
      if type2 then (u "can " ++ h, true) else (u "is " ++ h, p));
   (["NAI"%string], fun '(h, p) => (u "not " ++ h, p));
   (["TAI"%string], fun '(h, p) => (u "want to " ++ h, p));
   (["TE_IRU"%string], fun '(h, p) => (u "is " ++ h ++ u "ing", p));
   (["SERU_SASERU"%string; "SHORTENED_CAUSATIVE"%string], fun '(h, p) => (u "make/let " ++ h, p));
   (["MIRU"%string], fun '(h, p) => (u "try to " ++ h, p));
   (["SHIMAU"%string], fun '(h, p) => (u "end up " ++ h ++ u "ing", p));
   (["NASAI"%string], fun '(h, p) => (u "please " ++ h, p));
   (["MASU"%string], fun st => st)].

(** Cases tried in order; [case _: pass] when none matches. *)
Fixpoint run_cases (aux : Auxiliary)
  (cases : list (list string * (HintState -> HintState))) (st : HintState)
  : result HintState :=
  match cases with
  | [] => Ok st
  | (names, act) :: cs =>
      m <- pattern_matches aux names ;;
      if m then Ok (act st) else run_cases aux cs st
  end.

Fixpoint hint_loop (type2 : bool) (auxs : list Auxiliary) (st : HintState)
  : result HintState :=
  match auxs with
  | [] => Ok st
  | a :: rest => st' <- run_cases a (aux_cases type2) st ;; hint_loop type2 rest st'
  end.

(** [s.split(sep)[0]] *)
Fixpoint split_first (sep : N) (s : str) : str :=
  match s with
  | [] => []
  | c :: s' => if N.eqb c sep then [] else c :: split_first sep s'
  end.

(** [str.isspace] on one code point. *)
Definition is_space (c : N) : bool :=
  (((9 <=? c) && (c <=? 13)) || ((28 <=? c) && (c <=? 32)) || N.eqb c 133
  || N.eqb c 160 || N.eqb c 5760 || ((8192 <=? c) && (c <=? 8202))
  || N.eqb c 8232 || N.eqb c 8233 || N.eqb c 8239 || N.eqb c 8287
  || N.eqb c 12288)%N.

Fixpoint drop_spaces (s : str) : str :=
  match s with
  | c :: s' => if is_space c then drop_spaces s' else s
  | [] => []
  end.

(** [s.strip()] *)
Definition strip (s : str) : str := rev (drop_spaces (rev (drop_spaces s))).

(** [sub in s] *)
Fixpoint contains (s sub : str) : bool :=
  starts_with s sub || match s with [] => false | _ :: s' => contains s' sub end.

(** [s.replace(old, new)] for a non-empty [old]. *)
Fixpoint replace_fuel (fuel : nat) (old new s : str) : str :=
  match fuel with
  | O => s
  | S f =>
      match s with
      | [] => []
      | c :: s' =>
          if starts_with s old then new ++ replace_fuel f old new (skipn (length old) s)
          else c :: replace_fuel f old new s'
      end
  end.

Definition replace (s old new : str) : str := replace_fuel (length s) old new s.

Section Hint.
(** [make_past_tense] goes through the external English inflector. *)
Variable make_past_tense : str -> result str.

Definition generate_translation_hint (base_meaning : str)
  (auxs : list Auxiliary) (conjugation : Conjugation) (type2 : bool)
  : result str :=
  match base_meaning with
  | [] => Ok []
  | _ =>
  let first_meaning := strip (split_first 44 (split_first 59 base_meaning)) in
  let first_meaning :=
    if starts_with first_meaning (u "to ") then skipn 3 first_meaning
    else first_meaning in
  st <- hint_loop type2 auxs (first_meaning, false) ;;
  let hint := fst st in
  match conjugation with
  | NEGATIVE | ZU | NU =>
      if starts_with hint (u "can ") then Ok (replace hint (u "can ") (u "cannot "))
      else Ok (u "not " ++ hint)
  | TA =>
      if ends_with hint (u "ing") then Ok hint
      else if contains hint (u "can ") && contains hint (u "not") then
        Ok (u "couldn't " ++ replace (replace hint (u "not ") []) (u "can ") [])
      else if contains hint (u "not") then
        Ok (u "didn't " ++ replace (replace hint (u "not ") []) (u "can ") [])
      else if contains hint (u "can ") then
        Ok (u "could " ++ replace hint (u "can ") [])
      else make_past_tense hint
  | TE => Ok (hint ++ u " and...")
  | CONDITIONAL => Ok (u "if " ++ hint)
  | TARA =>
      if contains hint (u "not") then Ok (u "if not " ++ replace hint (u "not ") [])
      else p <- make_past_tense hint ;; Ok (u "when/if " ++ p)
  | VOLITIONAL => Ok (u "let's " ++ hint)
  | IMPERATIVE => Ok (hint ++ u "!")
  | _ => Ok hint
  end
  end.
End Hint.

(* ------------------------------------------------------------------ *)
(** ** Grammar-phrase catalogue: [conjugation/phrases.py] *)

(** [ENDING_CONJUGATIONS] *)
Definition ENDING_CONJUGATIONS : list (str * list (str * str)) := [
  (u "ない", [
      (u "ない", []);
      (u "ません", u " (polite)");
      (u "なかった", u " (past)");
      (u "ませんでした", u " (polite past)");
      (u "なくて", u " (te-form)")]);
  (u "できる", [
      (u "できる", []);
      (u "できます", u " (polite)");
      (u "できない", u " (negative)");
      (u "できません", u " (polite negative)");
      (u "できた", u " (past)");
      (u "できました", u " (polite past)");
      (u "できなかった", u " (negative past)")]);
  (u "ある", [
      (u "ある", []);
      (u "あります", u " (polite)");
      (u "あった", u " (past)");
      (u "ありました", u " (polite past)");
      (u "ない", u " (negative)");
      (u "ありません", u " (polite negative)")]);
  (u "いる", [
      (u "いる", []);
      (u "います", u " (polite)");
      (u "いた", u " (past)");
      (u "いました", u " (polite past)");
      (u "いない", u " (negative)");
      (u "いません", u " (polite negative)")]);
  (u "なる", [
      (u "なる", []);
      (u "なります", u " (polite)");
      (u "なった", u " (past)");
      (u "ならない", u " (negative)");
      (u "なりません", u " (polite negative)")]);
  (u "する", [
      (u "する", []);
      (u "します", u " (polite)");
      (u "した", u " (past)");
      (u "しない", u " (negative)");
      (u "しません", u " (polite negative)")]);
  (u "いい", [
      (u "いい", []);
      (u "いいです", u " (polite)");
      (u "よかった", u " (past)");
      (u "よくない", u " (negative)")]);
  (u "だ", [
      (u "だ", []);
      (u "です", u " (polite)");
      (u "だった", u " (past)");
      (u "でした", u " (polite past)");
      (u "ではない", u " (negative)");
      (u "じゃない", u " (negative casual)")]);
  (u "いけない", [
      (u "いけない", []);
      (u "いけません", u " (polite)");
      (u "だめ", u " (casual)")])].

(** [PHRASE_BASES]: (stem, ending_type, base_meaning) *)
Definition PHRASE_BASES : list (str * str * str) := [
  (u "かもしれ", u "ない", u "might; may; possibly");
  (u "ことが", u "できる", u "can; be able to");
  (u "ことが", u "ある", u "sometimes; have experienced");
  (u "ことに", u "する", u "decide to");
  (u "ことに", u "なる", u "it's been decided; will end up");
  (u "ことは", u "ない", u "no need to; never happens");
  (u "はず", u "だ", u "should be; expected to");
  (u "はずが", u "ない", u "can't be; impossible");
  (u "わけが", u "ない", u "no way that; impossible");
  (u "わけでは", u "ない", u "doesn't mean that");
  (u "わけにはいか", u "ない", u "can't possibly; mustn't");
  (u "べき", u "だ", u "should; ought to");
  (u "べきでは", u "ない", u "should not");
  (u "つもり", u "だ", u "intend to; plan to");
  (u "ほうが", u "いい", u "had better; should");
  (u "ては", u "いけない", u "must not; may not");
  (u "ても", u "いい", u "may; it's okay to");
  (u "にちがい", u "ない", u "must be; no doubt");
  (u "にすぎ", u "ない", u "merely; nothing but");
  (u "とは限ら", u "ない", u "not necessarily; not always")].

(** The hand-written [COMPOUND_PHRASES] literal, before the merge. *)
Definition COMPOUND_PHRASES_LITERAL : list (str * list (str * str)) := [
  (u "か", [
      (u "かどうか", u "whether or not");
      (u "かのように", u "as if; as though")]);
  (u "こと", [
      (u "ことにする", u "decide to");
      (u "ことになる", u "it's been decided; will end up")]);
  (u "な", [
      (u "なければならない", u "must; have to");
      (u "なければいけない", u "must; have to");
      (u "なければなりません", u "must (polite)");
      (u "なくてはならない", u "must; have to");
      (u "なくてはいけない", u "must; have to");
      (u "ないといけない", u "must; have to");
      (u "なきゃ", u "must (casual)");
      (u "なくちゃ", u "must (casual)");
      (u "ないわけにはいかない", u "must; have no choice but to")]);
  (u "なきゃ", [
      (u "なきゃいけない", u "must; have to (casual)");
      (u "なきゃだめ", u "must; have to (casual)");
      (u "なきゃならない", u "must; have to (casual)")]);
  (u "なくちゃ", [
      (u "なくちゃいけない", u "must; have to (casual)");
      (u "なくちゃだめ", u "must; have to (casual)");
      (u "なくちゃならない", u "must; have to (casual)")]);
  (u "と", [
      (u "といけない", u "must (if not...)");
      (u "といけません", u "must (polite)");
      (u "とだめ", u "must; no good if not");
      (u "というのは", u "what ~ means is");
      (u "ということだ", u "it means that; I heard that");
      (u "というものだ", u "that's what ~ is");
      (u "というわけだ", u "that's why; so that means");
      (u "ところだ", u "about to; just did");
      (u "ところだった", u "was about to")]);
  (u "て", [
      (u "てはいけない", u "must not; may not");
      (u "てはいけません", u "must not (polite)");
      (u "てはだめ", u "must not (casual)");
      (u "てもいいですか", u "may I...?");
      (u "ても", u "even if; even though");
      (u "てからでないと", u "not until after");
      (u "てたまらない", u "unbearably; extremely");
      (u "てならない", u "can't help but feel");
      (u "てばかりいる", u "do nothing but")]);
  (u "ては", [
      (u "てはだめ", u "must not (casual)")]);
  (u "は", [
      (u "はいけない", u "must not");
      (u "はいけません", u "must not (polite)");
      (u "はだめ", u "must not (casual)")]);
  (u "はず", []);
  (u "ほう", []);
  (u "ほど", [
      (u "ほど", u "the more... the more")]);
  (u "も", [
      (u "もいいですか", u "may I...?")]);
  (u "わけ", [
      (u "わけだ", u "no wonder; that's why")]);
  (u "べ", []);
  (u "つもり", []);
  (u "ば", [
      (u "ばよかった", u "should have; wish I had");
      (u "ばいい", u "should; ought to");
      (u "ばいいのに", u "I wish; if only");
      (u "ばかり", u "just; only; nothing but");
      (u "ばかりだ", u "just did; only getting more");
      (u "ばかりでなく", u "not only... but also")]);
  (u "た", [
      (u "たばかり", u "just did");
      (u "たことがある", u "have done before");
      (u "たことがない", u "have never done");
      (u "たほうがいい", u "had better");
      (u "たらいい", u "should; would be good if");
      (u "たらどう", u "how about; why don't you")]);
  (u "に", [
      (u "において", u "in; at; regarding");
      (u "に対して", u "towards; regarding");
      (u "について", u "about; concerning");
      (u "によって", u "by means of; depending on");
      (u "にとって", u "for; to (someone)");
      (u "にしても", u "even if; even though");
      (u "にしては", u "for; considering");
      (u "に関して", u "regarding; concerning");
      (u "に比べて", u "compared to");
      (u "につれて", u "as; in proportion to");
      (u "に従って", u "in accordance with")]);
  (u "の", [
      (u "のに", u "although; even though");
      (u "ので", u "because; since");
      (u "のだ", u "it is that; the fact is");
      (u "のです", u "it is that (polite)");
      (u "のではない", u "it's not that")]);
  (u "そ", [
      (u "そうだ", u "I heard that; seems like");
      (u "そうです", u "I heard that (polite)");
      (u "そうにない", u "unlikely to; doesn't seem");
      (u "そうもない", u "no sign of; unlikely")]);
  (u "よ", [
      (u "ようにする", u "to make sure to");
      (u "ようになる", u "to come to; to become able");
      (u "ようとする", u "try to; be about to");
      (u "ようがない", u "no way to; cannot");
      (u "ようとしない", u "refuses to; won't try to")]);
  (u "ざ", [
      (u "ざるをえない", u "can't help but; have to")]);
  (u "し", [
      (u "しかない", u "have no choice but to");
      (u "しかたがない", u "can't be helped");
      (u "しかたない", u "can't be helped (casual)")]);
  (u "せ", [
      (u "せいだ", u "because of (negative cause)");
      (u "せいで", u "because of (negative cause)")]);
  (u "お", [
      (u "おかげだ", u "thanks to (positive cause)");
      (u "おかげで", u "thanks to (positive cause)")]);
  (u "ど", [
      (u "どころか", u "far from; let alone");
      (u "どころではない", u "not in a position to")]);
  (u "き", [
      (u "きり", u "only; since");
      (u "きりがない", u "endless; no end to")]);
  (u "だ", [
      (u "だけでなく", u "not only... but also");
      (u "だけでは", u "just... is not enough");
      (u "だろう", u "probably; I think")]);
  (u "ちゃ", [
      (u "ちゃう", u "end up doing (casual)");
      (u "ちゃった", u "ended up doing");
      (u "ちゃいけない", u "must not (casual)");
      (u "ちゃだめ", u "must not (casual)")]);
  (u "じゃ", [
      (u "じゃない", u "isn't; not");
      (u "じゃないですか", u "isn't it?");
      (u "じゃん", u "isn't it? (casual)")]);
  (u "らしい", [
      (u "らしい", u "seems like; apparently");
      (u "らしいです", u "seems like (polite)")]);
  (u "みたい", [
      (u "みたいだ", u "seems like; looks like");
      (u "みたいです", u "seems like (polite)");
      (u "みたいに", u "like; as if");
      (u "みたいな", u "like (adj)")]);
  (u "っぽい", [
      (u "っぽい", u "-ish; -like; tends to")]);
  (u "ため", [
      (u "ために", u "in order to; for the sake of");
      (u "ためだ", u "because of; for")]);
  (u "よう", [
      (u "ような", u "like; such as");
      (u "ように", u "so that; in order to");
      (u "ようだ", u "seems like; appears");
      (u "ようです", u "seems like (polite)")]);
  (u "とおり", [
      (u "とおりに", u "as; in accordance with");
      (u "とおりだ", u "it's just as")]);
  (u "かわり", [
      (u "かわりに", u "instead of; in exchange for")]);
  (u "たび", [
      (u "たびに", u "every time; whenever")]);
  (u "うち", [
      (u "うちに", u "while; before");
      (u "うちは", u "while; as long as")]);
  (u "あいだ", [
      (u "あいだに", u "while; during");
      (u "あいだは", u "during the time")]);
  (u "かぎり", [
      (u "かぎり", u "as long as; to the extent");
      (u "かぎりでは", u "as far as")]);
  (u "ところ", [
      (u "ところで", u "by the way");
      (u "ところだ", u "about to; just did");
      (u "ところだった", u "was about to")]);
  (u "すぎ", [
      (u "すぎる", u "too much; excessively");
      (u "すぎた", u "was too much")]);
  (u "やすい", [
      (u "やすい", u "easy to do");
      (u "やすかった", u "was easy to do")]);
  (u "にくい", [
      (u "にくい", u "hard to do; difficult to");
      (u "にくかった", u "was hard to do")]);
  (u "はじめ", [
      (u "はじめる", u "start doing");
      (u "はじめた", u "started doing")]);
  (u "おわり", [
      (u "おわる", u "finish doing");
      (u "おわった", u "finished doing")]);
  (u "つづけ", [
      (u "つづける", u "continue doing");
      (u "つづけた", u "continued doing")]);
  (u "がち", [
      (u "がちだ", u "tend to; prone to");
      (u "がちな", u "tending to (adj)")]);
  (u "気味", [
      (u "気味だ", u "a touch of; slightly");
      (u "気味で", u "feeling somewhat")]);
  (u "かけ", [
      (u "かける", u "start doing; partially do");
      (u "かけだ", u "in the middle of doing");
      (u "かけた", u "started doing; was about to")]);
  (u "かね", [
      (u "かねる", u "cannot (polite); hesitate to");
      (u "かねない", u "might; could possibly (negative)");
      (u "かねます", u "cannot (polite)")]);
  (u "きる", [
      (u "きる", u "do completely; finish");
      (u "きった", u "finished completely");
      (u "きれる", u "can do completely");
      (u "きれない", u "cannot finish; unbearable");
      (u "きれなかった", u "couldn't finish")]);
  (u "きれ", [
      (u "きれる", u "can do completely");
      (u "きれない", u "cannot finish; unbearable")]);
  (u "こむ", [
      (u "こむ", u "do thoroughly; go into");
      (u "こんだ", u "did thoroughly")]);
  (u "こめ", [
      (u "こめる", u "put into (feelings/effort)");
      (u "こめた", u "put into")]);
  (u "だす", [
      (u "だす", u "start doing (sudden); burst out");
      (u "だした", u "burst out doing")]);
  (u "なおす", [
      (u "なおす", u "do over; correct; fix");
      (u "なおした", u "did over; fixed")]);
  (u "ながら", [
      (u "ながら", u "while doing; although")]);
  (u "がたい", [
      (u "がたい", u "hard to (psychologically)");
      (u "がたかった", u "was hard to")]);
  (u "がる", [
      (u "がる", u "act like; show signs of");
      (u "がった", u "acted like");
      (u "がっている", u "is showing signs of")]);
  (u "ず", [
      (u "ずに", u "without doing");
      (u "ずにはいられない", u "can't help but");
      (u "ずにはおかない", u "cannot leave without")]);
  (u "づらい", [
      (u "づらい", u "hard to (physical/habitual)");
      (u "づらかった", u "was hard to")]);
  (u "てる", [
      (u "てる", u "is doing (casual)");
      (u "てた", u "was doing (casual)");
      (u "てない", u "not doing (casual)")]);
  (u "とく", [
      (u "とく", u "do in advance (casual)");
      (u "といた", u "did in advance (casual)");
      (u "とけ", u "do in advance! (casual imperative)")]);
  (u "まま", [
      (u "まま", u "as is; in the state of");
      (u "ままだ", u "is still in the state of");
      (u "ままで", u "while remaining")]);
  (u "まい", [
      (u "まい", u "will not; probably not");
      (u "まいと", u "trying not to")]);
  (u "まで", [
      (u "までだ", u "only; just; that's all");
      (u "までのことだ", u "that's all there is to it")]);
  (u "くせ", [
      (u "くせに", u "although; despite (critical)");
      (u "くせして", u "despite (critical)")]);
  (u "くらい", [
      (u "くらい", u "about; at least; to the extent");
      (u "ぐらい", u "about; at least")]);
  (u "うる", [
      (u "うる", u "possible (formal)");
      (u "うべき", u "should (formal)")]);
  (u "える", [
      (u "える", u "possible (formal)");
      (u "えない", u "impossible (formal)")]);
  (u "あげ", [
      (u "あげる", u "do for someone (give up)");
      (u "あげた", u "did for someone")]);
  (u "もらう", [
      (u "もらう", u "have someone do (receive)");
      (u "もらった", u "had someone do");
      (u "もらえる", u "can have someone do")]);
  (u "くれ", [
      (u "くれる", u "do for me (give)");
      (u "くれた", u "did for me");
      (u "くれない", u "won't do for me")]);
  (u "みせ", [
      (u "みせる", u "I'll show you I can...");
      (u "みせた", u "showed I could")]);
  (u "として", [
      (u "としても", u "assuming; even if");
      (u "としては", u "as for; considering")])].

(** [d[k].append(v)], creating [d[k] = []] first when [k] is missing;
    a dict is an association list in insertion order. *)
Fixpoint dict_append {V} (k : str) (v : V) (d : list (str * list V))
  : list (str * list V) :=
  match d with
  | [] => [(k, [v])]
  | (k', vs) :: d' =>
      if str_eqb k k' then (k', vs ++ [v]) :: d' else (k', vs) :: dict_append k v d'
  end.

Definition _generate_compound_phrases : list (str * list (str * str)) :=
  fold_left
    (fun result '(stem, ending_type, base_meaning) =>
       match assoc ending_type ENDING_CONJUGATIONS with
       | None => result
       | Some variants =>
           fold_left
             (fun result '(variant, suffix) =>
                let full_phrase := stem ++ variant in
                let meaning := base_meaning ++ suffix in
                dict_append (firstn 1 full_phrase) (full_phrase, meaning) result)
             variants result
       end)
    PHRASE_BASES [].

(** [if k not in d: d[k] = []] *)
Definition dict_setdefault {V} (k : str) (d : list (str * list V))
  : list (str * list V) :=
  match assoc k d with
  | Some _ => d
  | None => d ++ [(k, [])]
  end.

(** [d[k] = f(d[k])] *)
Fixpoint dict_update {V} (k : str) (f : list V -> list V) (d : list (str * list V))
  : list (str * list V) :=
  match d with
  | [] => []
  | (k', vs) :: d' =>
      if str_eqb k k' then (k', f vs) :: d' else (k', vs) :: dict_update k f d'
  end.

(** The merge loop: a phrase is added unless it is in [existing], the
    phrases of the bucket before the loop over [phrase_list]. *)
Definition merge_compositional (cp : list (str * list (str * str)))
  : list (str * list (str * str)) :=
  fold_left
    (fun cp '(first_char, phrase_list) =>
       let cp := dict_setdefault first_char cp in
       let existing := match assoc first_char cp with
                       | Some l => map fst l | None => [] end in
       fold_left
         (fun cp '(phrase, meaning) =>
            if str_in phrase existing then cp
            else dict_update first_char (fun l => l ++ [(phrase, meaning)]) cp)
         phrase_list cp)
    _generate_compound_phrases cp.

(** [sorted(xs, key=lambda x: -len(x[0]))]: stable, longest first. *)
Fixpoint insert_by_len {V} (x : str * V) (sorted : list (str * V)) : list (str * V) :=
  match sorted with
  | [] => [x]
  | y :: ys =>
      if Nat.ltb (length (fst y)) (length (fst x)) then x :: y :: ys
      else y :: insert_by_len x ys
  end.

Definition sort_by_len_desc {V} (xs : list (str * V)) : list (str * V) :=
  fold_left (fun acc x => insert_by_len x acc) xs [].

Definition COMPOUND_PHRASES : list (str * list (str * str)) :=
  map (fun '(k, l) => (k, sort_by_len_desc l))
      (merge_compositional COMPOUND_PHRASES_LITERAL).

(** A morpheme of the external segmenter. *)
Record Morpheme := {
  surface : str;
  dictionary_form : str;
  reading_form : str;
  part_of_speech : list str
}.

(** A morpheme carrying only its surface, the other fields repeating it. *)
Definition morpheme_of_surface (s : str) : Morpheme :=
  {| surface := s; dictionary_form := s; reading_form := s; part_of_speech := [] |}.

(** [for m in morphemes: if chars_matched >= len(phrase): break; ...] *)
Fixpoint count_consumed (ms : list Morpheme) (plen chars_matched : nat) : nat :=
  match ms with
  | [] => 0
  | m :: ms' =>
      if Nat.leb plen chars_matched then 0
      else S (count_consumed ms' plen (chars_matched + length (surface m)))
  end.

(** [for phrase, meaning in sorted(candidates, ...): if remaining.startswith(phrase): ...] *)
Fixpoint first_match (remaining : str) (ms : list Morpheme)
  (cands : list (str * str)) : option (str * str * nat) :=
  match cands with
  | [] => None
  | (phrase, meaning) :: cs =>
      if starts_with remaining phrase then
        Some (phrase, meaning, count_consumed ms (length phrase) 0)
      else first_match remaining ms cs
  end.

Definition concat_surfaces (ms : list Morpheme) : str :=
  concat (map surface ms).

(** [try_match_compound_phrase] over a catalogue [cp]; the program uses
    [cp = COMPOUND_PHRASES]. *)
Definition candidates (cp : list (str * list (str * str))) (first_surface : str)
  : list (str * str) :=
  let c1 := match assoc first_surface cp with Some l => l | None => [] end in
  let first_char := firstn 1 first_surface in
  let c2 := match assoc first_char cp with
            | Some l => if str_eqb first_char first_surface then [] else l
            | None => []
            end in
  c1 ++ c2.

Definition try_match_in (cp : list (str * list (str * str)))
  (morphemes : list Morpheme) (start_idx : nat) : option (str * str * nat) :=
  if Nat.leb (length morphemes) start_idx then None else
  let rest := skipn start_idx morphemes in
  let first_surface := match rest with m :: _ => surface m | [] => [] end in
  let cands := candidates cp first_surface in
  match cands with
  | [] => None
  | _ =>
    let remaining := concat_surfaces (firstn 10 rest) in
    first_match remaining rest (sort_by_len_desc cands)
  end.

Definition try_match_compound_phrase (morphemes : list Morpheme) (start_idx : nat)
  : option (str * str * nat) :=
  try_match_in COMPOUND_PHRASES morphemes start_idx.

(* ------------------------------------------------------------------ *)
(** ** Dictionary entry selection: [jmdict.py] *)

Record KanjiForm := { kanji_text : option str; kanji_common : bool }.
Record KanaForm := { kana_text : option str; kana_common : bool }.
Record Sense := { partOfSpeech : list str; misc : list str }.
Record Entry := {
  entry_kanji : list KanjiForm;
  entry_kana : list KanaForm;
  entry_sense : list Sense
}.

(** The four indices [_index_kanji], [_index_kana], [_index_names_kanji],
    [_index_names_kana]: dicts from a surface to the entries listed under it. *)
Record JMDict := {
  _index_kanji : list (str * list Entry);
  _index_kana : list (str * list Entry);
  _index_names_kanji : list (str * list Entry);
  _index_names_kana : list (str * list Entry)
}.

(** [d.get(w) or d'.get(w)]: an absent key and an empty list are both falsy. *)
Definition get_or (d d' : list (str * list Entry)) (w : str) : list Entry :=
  match assoc w d with
  | Some ((_ :: _) as l) => l
  | _ => match assoc w d' with Some l => l | None => [] end
  end.

Section Scoring.
(** [unicodedata.normalize('NFD', _)], an external library function. *)
Variable nfd : str -> str.

Definition _normalize_kana (text : str) : str :=
  match text with
  | [] => []
  | _ => filter (fun c => negb (N.eqb c 12441 || N.eqb c 12442)%N) (nfd text)
  end.

(** The score of one candidate entry in the loop of [_find_best_entry]. *)
Definition entry_score (word : str) (reading : option str) (is_counter : bool)
  (entry : Entry) : nat :=
  let reading_t := match reading with Some ((_ :: _) as r) => Some r | _ => None end in
  let norm_reading :=
    match reading_t with
    | Some r => match _normalize_kana r with [] => None | n => Some n end
    | None => None
    end in
  let is_hiragana_input :=
    forallb (fun c => (12352 <=? c) && (c <=? 12447))%N word in
  let s_kanji :=
    fold_left (fun score k =>
      match kanji_text k with
      | Some t => if str_eqb t word && kanji_common k then score + 10 else score
      | None => score
      end) (entry_kanji entry) 0 in
  let s_kana :=
    fold_left (fun score k =>
      let score := if kana_common k then score + 5 else score in
      match reading_t, kana_text k with
      | Some r, Some t =>
          if str_eqb t r then score + 20
          else match norm_reading, t with
               | Some nr, _ :: _ => if str_eqb (_normalize_kana t) nr then score + 18 else score
               | _, _ => score
               end
      | None, Some t =>
          match norm_reading, t with
          | Some nr, _ :: _ => if str_eqb (_normalize_kana t) nr then score + 18 else score
          | _, _ => score
          end
      | _, None => score
      end) (entry_kana entry) s_kanji in
  let senses := entry_sense entry in
  let s_uk :=
    match senses with
    | s0 :: _ => if is_hiragana_input && str_in (u "uk") (misc s0) then s_kana + 15 else s_kana
    | [] => s_kana
    end in
  match senses with
  | _ :: _ =>
      if is_counter && existsb (fun s => str_in (u "ctr") (partOfSpeech s)) senses
      then s_uk + 50 else s_uk
  | [] => s_uk
  end.

(** [best_entry, best_score = None, -1; for entry in entries: if score > best_score: ...] *)
Fixpoint best_of (word : str) (reading : option str) (is_counter : bool)
  (entries : list Entry) (best : option (Entry * nat)) : option (Entry * nat) :=
  match entries with
  | [] => best
  | e :: es =>
      let s := entry_score word reading is_counter e in
      let best' := match best with
                   | Some (_, bs) => if Nat.ltb bs s then Some (e, s) else best
                   | None => Some (e, s)
                   end in
      best_of word reading is_counter es best'
  end.

Definition _find_best_entry (d : JMDict) (word : str) (reading : option str)
  (is_counter include_names : bool) : option Entry :=
  let entries := get_or (_index_kanji d) (_index_kana d) word in
  let entries :=
    match entries with
    | [] => if include_names
            then get_or (_index_names_kanji d) (_index_names_kana d) word
            else entries
    | _ => entries
    end in
  match entries with
  | [] => None
  | e0 :: _ =>
      match best_of word reading is_counter entries None with
      | Some (e, _) => Some e
      | None => Some e0
      end
  end.
End Scoring.

(** Canonical decomposition of the kana with a voiced or semi-voiced mark
    (the Unicode NFD mapping on the kana blocks); other code points are
    left as they are. *)
Definition kana_decompose (c : N) : list N :=
  let voiced := [12364; 12366; 12368; 12370; 12372; 12374; 12376; 12378;
                 12380; 12382; 12384; 12386; 12389; 12391; 12393; 12400;
                 12403; 12406; 12409; 12412; 12446]%N in
  let semi := [12401; 12404; 12407; 12410; 12413]%N in
  if existsb (N.eqb c) voiced then [(c - 1)%N; 12441%N]
  else if existsb (N.eqb c) semi then [(c - 2)%N; 12442%N]
  else if N.eqb c 12436 then [12358%N; 12441%N]
  else if existsb (fun v => N.eqb c (v + 96)%N) voiced then [(c - 1)%N; 12441%N]
  else if existsb (fun v => N.eqb c (v + 96)%N) semi then [(c - 2)%N; 12442%N]
  else if N.eqb c 12532 then [12454%N; 12441%N]
  else if ((12535 <=? c) && (c <=? 12538))%N then [(c - 8)%N; 12441%N]
  else [c].

Definition nfd_kana (s : str) : str := flat_map kana_decompose s.

(* ------------------------------------------------------------------ *)
(** ** English past tense: [helpers.make_past_tense] *)

(** [s.split()]: the maximal runs of non-whitespace code points; [cur] is
    the word being read, reversed. *)
Fixpoint split_ws_acc (cur : str) (s : str) : list str :=
  match s with
  | [] => match cur with [] => [] | _ :: _ => [rev cur] end
  | c :: s' =>
      if is_space c then
        match cur with
        | [] => split_ws_acc [] s'
        | _ :: _ => rev cur :: split_ws_acc [] s'
        end
      else split_ws_acc (c :: cur) s'
  end.

Definition split_ws (s : str) : list str := split_ws_acc [] s.

(** [_make_regular_past]; [verb[-2] not in "aeiou"] is a substring test
    of a one-character string. *)
Definition _make_regular_past (verb : str) : str :=
  if ends_with verb (u "e") then verb ++ u "d"
  else if ends_with verb (u "y") && Nat.ltb 1 (length verb)
          && negb (contains (u "aeiou") [nth (length verb - 2) verb 0%N])
  then drop_last 1 verb ++ u "ied"
  else verb ++ u "ed".

Section PastTense.
(** [str.lower()], Python's Unicode case mapping. *)
Variable py_lower : str -> str.
(** [lemminflect.getInflection(verb, tag='VBD')]: the forms found ([None]
    or an empty tuple when there is none), or an exception. *)
Variable getInflection : str -> result (list str).

(** [_inflect_past]: every exception of the inflector is caught. *)
Definition _inflect_past (verb : str) : str :=
  match getInflection verb with
  | Ok (r :: _) => r
  | _ => _make_regular_past verb
  end.

(** [verb[n:].split()[0] if verb[n:] else verb] *)
Definition base_after (n : nat) (verb : str) : result str :=
  match skipn n verb with
  | [] => Ok verb
  | rest => index0 (split_ws rest)
  end.

Definition make_past_tense (verb : str) : result str :=
  let verb := strip (py_lower verb) in
  if starts_with verb (u "to ") then
    base <- base_after 3 verb ;; Ok (_inflect_past base)
  else if starts_with verb (u "not ") then
    base <- base_after 4 verb ;; Ok (u "didn't " ++ base)
  else
    first_word <- index0 (split_ws verb) ;; Ok (_inflect_past first_word).
End PastTense.

(** The auxiliaries with a [case] before [case Auxiliary.NASAI] in the loop
    of [generate_translation_hint]. *)
Definition hint_handled (a : Auxiliary) : bool :=
  aux_in a [POTENTIAL; RERU_RARERU; NAI; TAI; TE_IRU; SERU_SASERU;
            SHORTENED_CAUSATIVE; MIRU; SHIMAU].

(* ------------------------------------------------------------------ *)
(** ** Verb class heuristics *)

(** [is_verb_type2] (helpers.py and conjugation.py); the part-of-speech
    fields are strings, so [str(p)] is [p]. *)
Fixpoint is_verb_type2 (pos_tuple : list str) : bool :=
  match pos_tuple with
  | [] => false
  | p :: ps =>
      if contains p (u "一段") || contains p (u "上一段") || contains p (u "下一段")
      then true else is_verb_type2 ps
  end.

(** [identify_verb_type] in [verb.py]: [pre_ru in "..."] is a substring
    test, true for the empty [pre_ru]. *)
Definition identify_verb_type (verb : str) : bool :=
  if ends_with verb (u "る") then
    let pre_ru :=
      if Nat.leb 2 (length verb) then [nth (length verb - 2) verb 0%N] else [] in
    contains (u "いきしちにひみりぎじびぴえけせてねへめれげぜべぺ") pre_ru
  else false.

(** The class detection of [conjugate_word] (conjugation.py): [tok] is the
    outcome of tokenizing [word], the part-of-speech tuples of its
    morphemes, or an exception of the analyzer, caught by the fallback. *)
Definition conjugate_word_type2 (tok : result (list (list str))) (word : str)
  : bool :=
  if ends_with word (u "る") && Nat.leb 2 (length word) then
    match tok with
    | Ok [] => false
    | Ok (pos_tuple :: _) => is_verb_type2 pos_tuple
    | Err _ =>
        let pre_ru := [nth (length word - 2) word 0%N] in
        contains (u "いきしちにひみりえけせてねへめれ") pre_ru
    end
  else false.

(* ------------------------------------------------------------------ *)
(** ** [conjugate_word], verb branch (conjugation.py) *)

Definition default_verb_forms : list str :=
  [u "negative"; u "past"; u "te"; u "potential"; u "passive";
   u "causative"; u "polite"].

Definition form_map : list (str * (Conjugation * list Auxiliary)) := [
  (u "negative", (NEGATIVE, []));
  (u "past", (TA, []));
  (u "te", (TE, []));
  (u "conditional", (CONDITIONAL, []));
  (u "volitional", (VOLITIONAL, []));
  (u "imperative", (IMPERATIVE, []));
  (u "potential", (DICTIONARY, [POTENTIAL]));
  (u "passive", (DICTIONARY, [RERU_RARERU]));
  (u "causative", (DICTIONARY, [SERU_SASERU]));
  (u "polite", (DICTIONARY, [MASU]));
  (u "negative_past", (TA, [NAI]));
  (u "want", (DICTIONARY, [TAI]));
  (u "progressive", (DICTIONARY, [TE_IRU]))].

(** [d[k] = v]: in place when [k] is a key, appended otherwise. *)
Fixpoint dict_setitem {V} (k : str) (v : V) (d : list (str * V))
  : list (str * V) :=
  match d with
  | [] => [(k, v)]
  | (k', v') :: d' =>
      if str_eqb k k' then (k', v) :: d' else (k', v') :: dict_setitem k v d'
  end.

Section ConjugateWord.
(** [str.lower()] *)
Variable py_lower : str -> str.

(** [form_name.lower().replace("-", "_").replace(" ", "_")] *)
Definition form_key (form_name : str) : str :=
  replace (replace (py_lower form_name) (u "-") (u "_")) (u " ") (u "_").

(** One iteration of the loop over [requested_forms]. *)
Definition conjugate_form (word : str) (type2 : bool)
  (conjugations : list (str * list str)) (form_name : str)
  : list (str * list str) :=
  match assoc (form_key form_name) form_map with
  | None => conjugations
  | Some (conj', auxs) =>
      let r := match auxs with
               | [] => conjugate word conj' type2
               | _ :: _ => conjugate_auxiliaries word auxs conj' type2
               end in
      dict_setitem form_name
        (match r with
         | Ok result => filter (fun r => Nat.ltb 1 (length r)) result
         | Err _ => []
         end) conjugations
  end.

(** The [conjugations] of the response when [word_type == "verb"];
    [requested_forms] is [None] or a list. *)
Definition conjugate_word_verb (tok : result (list (list str))) (word : str)
  (requested_forms : option (list str)) : list (str * list str) :=
  let type2 := conjugate_word_type2 tok word in
  let requested_forms :=
    match requested_forms with
    | None | Some [] => default_verb_forms
    | Some l => l
    end in
  fold_left (conjugate_form word type2) requested_forms [].
End ConjugateWord.

(** [l] without the strings of [seen] and its repeated strings, first
    occurrences kept. *)
Fixpoint dedup_seen (seen l : list str) : list str :=
  match l with
  | [] => []
  | x :: l' =>
      if str_in x seen then dedup_seen seen l' else x :: dedup_seen (seen ++ [x]) l'
  end.

(* ================================================================== *)
(** * Properties *)

Arguments u : simpl never.

(** Predicates used by the proofs below. *)

(** A non-empty string, or a non-empty list of surfaces. *)
Definition nonnull {A} (l : list A) : bool :=
  match l with [] => false | _ :: _ => true end.

Definition all_nonnull (l : list str) : bool := forallb nonnull l.

(** [r] returns a value satisfying [p], or raises [ValueError]: the only
    exception that the loops of [deconjugate_verb] catch. *)
Definition ok_or_ve {A} (p : A -> bool) (r : result A) : bool :=
  match r with
  | Ok a => p a
  | Err ValueError => true
  | Err _ => false
  end.

(** A non-empty list of non-empty surfaces. *)
Definition surf_ok (l : list str) : bool := nonnull l && all_nonnull l.

(** A verb on which [conjugate] yields only non-empty surfaces. *)
Definition good_verb (w : str) : bool := nonnull w && negb (str_in w [u "ある"; u "る"]).

(** The first surface of a non-empty list satisfies [p]. *)
Definition first_ok (p : str -> bool) (l : list str) : bool :=
  match l with h :: _ => p h | [] => false end.

(** A Te form ends in て or in で. *)
Definition te_like (s : str) : bool := ends_with s (u "て") || ends_with s (u "で").

(** [map] over the value of a result. *)
Definition rmap {A B} (f : A -> B) (r : result A) : result B :=
  match r with Ok a => Ok (f a) | Err e => Err e end.

(** The literals that [_conjugate_type1] and [_conjugate_type2] compare a
    whole verb with. *)
Definition special_verbs : list str :=
  [u "する"; u "くる"; u "来る"; u "だ"; u "です"; u "ある"; u "ござる";
   u "いらっしゃる"; u "行く"; u "いく"].

(** A verb ending [s] on which [conjugate (x ++ s)] takes, for every [x],
    the same branches as [conjugate s]: [s] is not a suffix of a special
    verb, nor a proper suffix of くださる. *)
Definition suffix_ok (s : str) : bool :=
  nonnull s && forallb (fun t => negb (ends_with t s)) special_verbs
  && (Nat.leb (length (u "くださる")) (length s) || negb (ends_with (u "くださる") s)).

(** [b] comes no earlier than [a] in a list sorted by descending phrase length. *)
Definition len_ge {V} (a b : str * V) : Prop := length (fst b) <= length (fst a).

(** A hit of [deconjugate_verb] for [conjugated] and [dictionary_form]
    that re-conjugation reproduces, with a chain of [n] auxiliaries. *)
Definition sound_hit (conjugated dictionary_form : str) (type2 : bool) (n : nat)
  (h : VerbDeconjugated) : Prop :=
  conjugate_auxiliaries dictionary_form (auxiliaries h) (conjugation h) type2
    = Ok (vd_result h)
  /\ str_in conjugated (vd_result h) = true /\ length (auxiliaries h) = n.

(** The docstring examples of [verb.py]. *)
Example conjugate_auxiliaries_taberarenakatta :
  conjugate_auxiliaries (u "食べる") [RERU_RARERU; NAI] TA true
  = Ok [u "食べられなかった"].
Proof. vm_compute. reflexivity. Qed.

Example conjugate_taberu_negative :
  conjugate (u "食べる") NEGATIVE true = Ok [u "食べ"; u "食べない"].
Proof. vm_compute. reflexivity. Qed.

Example conjugate_kaku_te : conjugate (u "書く") TE false = Ok [u "書いて"].
Proof. vm_compute. reflexivity. Qed.

(* ------------------------------------------------------------------ *)
(** ** Terminal-only auxiliaries *)

Lemma aux_loop_final_only_raises :
  forall pre a post prev verbs t K,
    post <> [] -> In a final_only ->
    exists e, aux_loop (pre ++ a :: post) prev verbs t K = Err e.
Proof.
  induction pre as [|b pre IH]; intros a post prev verbs t K Hpost Ha.
  - destruct post as [|x post']; [congruence|].
    simpl in Ha.
    repeat destruct Ha as [<-|Ha]; try contradiction; eexists; reflexivity.
  - cbn [app aux_loop].
    assert (Hne : match pre ++ a :: post with [] => true | _ :: _ => false end = false)
      by (destruct pre; reflexivity).
    rewrite Hne. cbn [negb andb].
    destruct (aux_in b final_only); [eexists; reflexivity|].
    match goal with |- exists e, bind ?m _ = _ => destruct m as [vs|e] end.
    + apply IH; assumption.
    + exists e. reflexivity.
Qed.

(** C6: a chain in which an auxiliary other than the last is one of Masu,
    Nai, Tai, Hoshii, Rashii, SoudaHearsay or SoudaConjecture makes
    [conjugate_auxiliaries] raise, for every verb, terminal conjugation
    and class flag. *)
Theorem conjugate_auxiliaries_terminal_only :
  forall verb pre a post final_conj type2,
    post <> [] -> In a final_only ->
    exists e, conjugate_auxiliaries verb (pre ++ a :: post) final_conj type2 = Err e.
Proof.
  intros verb pre a post final_conj type2 Hpost Ha.
  unfold conjugate_auxiliaries.
  destruct (pre ++ a :: post) as [|x l] eqn:Hl.
  { destruct pre; discriminate. }
  destruct (str_in verb [u "だ"; u "です"]).
  - destruct l as [|y l'].
    + destruct pre as [|p pre']; [|destruct pre']; simpl in Hl;
        inversion Hl; subst; congruence.
    + destruct x; eexists; reflexivity.
  - rewrite <- Hl. apply aux_loop_final_only_raises; assumption.
Qed.

Example conjugate_auxiliaries_terminal_only_instance :
  conjugate_auxiliaries (u "食べる") [MASU; NAI] DICTIONARY true = Err ValueError.
Proof. vm_compute. reflexivity. Qed.

Lemma conjugate_auxiliaries_terminal_only_witness :
  [NAI] <> [] /\ In MASU final_only
  /\ exists e, conjugate_auxiliaries (u "食べる") ([] ++ MASU :: [NAI]) DICTIONARY true = Err e.
Proof.
  split; [discriminate|]. split; [simpl; tauto|].
  apply (conjugate_auxiliaries_terminal_only (u "食べる") [] MASU [NAI] DICTIONARY true);
    [discriminate | simpl; tauto].
Defined.

(* ------------------------------------------------------------------ *)
(** ** The hint generator and the Masu case *)

(** [Auxiliary] has no member [NASAI]. *)
Lemma aux_by_name_NASAI : aux_by_name "NASAI"%string = None.
Proof. reflexivity. Qed.

Lemma run_cases_MASU :
  forall type2 st, run_cases MASU (aux_cases type2) st = Err AttributeError.
Proof. intros [|] st; reflexivity. Qed.

Lemma run_cases_outcome :
  forall a type2 st,
    run_cases a (aux_cases type2) st = Err AttributeError
    \/ exists st', run_cases a (aux_cases type2) st = Ok st'.
Proof. intros a [|] st; destruct a; cbv - [app]; eauto. Qed.

Lemma hint_loop_MASU :
  forall type2 auxs st, In MASU auxs -> hint_loop type2 auxs st = Err AttributeError.
Proof.
  intros type2 auxs. induction auxs as [|a auxs IH]; intros st Hin; [contradiction|].
  cbn [hint_loop].
  destruct Hin as [->|Hin].
  - rewrite run_cases_MASU. reflexivity.
  - destruct (run_cases_outcome a type2 st) as [E|[st' E]]; rewrite E; [reflexivity|].
    apply IH; assumption.
Qed.

Lemma generate_translation_hint_MASU :
  forall mpt base auxs conj type2,
    base <> [] -> In MASU auxs ->
    generate_translation_hint mpt base auxs conj type2 = Err AttributeError.
Proof.
  intros mpt base auxs conj type2 Hb Hin.
  unfold generate_translation_hint.
  destruct base as [|c base']; [congruence|].
  rewrite hint_loop_MASU by assumption. reflexivity.
Qed.

(** C2: with the gloss "to eat", the chain [Masu] and the terminal
    Dictionary, the hint generator raises [AttributeError] (the case
    [Auxiliary.NASAI] is evaluated before the case [Auxiliary.MASU] and
    names no member), while the same chain without Masu gives "eat". *)
Theorem generate_translation_hint_masu_not_noop :
  forall make_past_tense,
    generate_translation_hint make_past_tense (u "to eat") [MASU] DICTIONARY true
      = Err AttributeError
    /\ generate_translation_hint make_past_tense (u "to eat") [] DICTIONARY true
      = Ok (u "eat").
Proof.
  intros mpt. split.
  - apply generate_translation_hint_MASU; [discriminate | left; reflexivity].
  - reflexivity.
Qed.

(* ------------------------------------------------------------------ *)
(** ** The dictionary form of the kanji spelling of kuru *)

(** C8: with the empty chain and the terminal Dictionary, the verb 来る
    does not come back as itself under either class flag: the kanji prefix
    is put in front of the full kana form, giving 来くる. *)
Theorem conjugate_dictionary_kuru_kanji :
  forall type2,
    conjugate_auxiliaries (u "来る") [] DICTIONARY type2 = Ok [u "来くる"]
    /\ u "来くる" <> u "来る".
Proof.
  intros [|]; split; try (vm_compute; reflexivity); vm_compute; discriminate.
Qed.

(* ------------------------------------------------------------------ *)
(** ** Counterexamples *)

(** C1: the chain [Tagaru; Masu] is accepted for 食べる, but the search
    of [deconjugate_verb] never tries it (Tagaru is not a penultimate),
    so the surface 食べたがります is not traced back to that chain. *)
Lemma round_trip_counterexample :
  conjugate_auxiliaries (u "食べる") [TAGARU; MASU] DICTIONARY true
    = Ok [u "食べたがります"]
  /\ exists hits,
       deconjugate_verb (u "食べたがります") (u "食べる") true 3 = Ok hits
       /\ Forall (fun h => auxiliaries h <> [TAGARU; MASU]) hits.
Proof.
  split; [vm_compute; reflexivity|].
  eexists; split; [vm_compute; reflexivity|].
  repeat constructor; discriminate.
Qed.

(** C3: on the single morpheme わけがないよ the matcher returns the phrase
    わけがない with one morpheme consumed, whose surface is longer than
    the phrase. *)
Lemma phrase_consumption_counterexample :
  exists meaning,
    try_match_compound_phrase [morpheme_of_surface (u "わけがないよ")] 0
      = Some (u "わけがない", meaning, 1)
    /\ concat_surfaces (firstn 1 [morpheme_of_surface (u "わけがないよ")])
       <> u "わけがない".
Proof.
  eexists; split; [vm_compute; reflexivity|].
  vm_compute; discriminate.
Qed.

(** C4: the special Negative stem of ある is the empty string, and
    [conjugate] returns it as the first surface. *)
Lemma nonempty_surface_counterexample :
  conjugate_auxiliaries (u "ある") [] NEGATIVE false = Ok [[]; u "ない"].
Proof. vm_compute; reflexivity. Qed.

(** C5: わけにはいかません is a strict prefix of わけにはいかませんでした,
    both are in the bucket わ, and the input spelled one kana per morpheme
    begins with the longer one; but only the first ten morphemes are
    searched, so the shorter phrase is returned. *)
Lemma longest_match_counterexample :
  let ms := map (fun c => morpheme_of_surface [c]) (u "わけにはいかませんでした") in
  let p1 := u "わけにはいかません" in
  let p2 := u "わけにはいかませんでした" in
  str_in p1 (map fst (candidates COMPOUND_PHRASES (u "わ"))) = true
  /\ str_in p2 (map fst (candidates COMPOUND_PHRASES (u "わ"))) = true
  /\ starts_with p2 p1 = true /\ length p1 < length p2
  /\ starts_with (concat_surfaces ms) p2 = true
  /\ exists meaning, try_match_compound_phrase ms 0 = Some (p1, meaning, 9).
Proof.
  cbv zeta.
  repeat split; try (vm_compute; reflexivity); [vm_compute; repeat constructor|].
  eexists; vm_compute; reflexivity.
Qed.

(** C7: two entries under the headword 羽 (a kanji form, not common, in
    both), read は.  The first has the kana
    form は exactly, not marked common (score 20); the second has only the
    voiced ば, marked common (5 + 18 = 23).  The second one is selected. *)
Lemma exact_reading_counterexample :
  let exact := {| entry_kanji := [{| kanji_text := Some (u "羽"); kanji_common := false |}];
                  entry_kana := [{| kana_text := Some (u "は"); kana_common := false |}];
                  entry_sense := [] |} in
  let voiced := {| entry_kanji := [{| kanji_text := Some (u "羽"); kanji_common := false |}];
                   entry_kana := [{| kana_text := Some (u "ば"); kana_common := true |}];
                   entry_sense := [] |} in
  let d := {| _index_kanji := [(u "羽", [exact; voiced])]; _index_kana := [];
              _index_names_kanji := []; _index_names_kana := [] |} in
  entry_score nfd_kana (u "羽") (Some (u "は")) false exact = 20
  /\ entry_score nfd_kana (u "羽") (Some (u "は")) false voiced = 23
  /\ _find_best_entry nfd_kana d (u "羽") (Some (u "は")) false false = Some voiced.
Proof. cbv zeta; repeat split; vm_compute; reflexivity. Qed.

(* ------------------------------------------------------------------ *)
(** ** Totality: basic facts *)

Lemma str_eqb_true : forall s t, str_eqb s t = true -> s = t.
Proof. unfold str_eqb. intros s t. destruct (list_eq_dec N.eq_dec s t); congruence. Qed.

Lemma str_eqb_refl : forall s, str_eqb s s = true.
Proof. unfold str_eqb. intros s. destruct (list_eq_dec N.eq_dec s s); congruence. Qed.

Lemma str_eqb_false : forall s t, s <> t -> str_eqb s t = false.
Proof. unfold str_eqb. intros s t H. destruct (list_eq_dec N.eq_dec s t); congruence. Qed.

Lemma str_eqb_false_neq : forall s t, str_eqb s t = false -> s <> t.
Proof. intros s t H ->. rewrite str_eqb_refl in H. discriminate. Qed.

Lemma str_in_true : forall x xs, str_in x xs = true -> In x xs.
Proof.
  unfold str_in. intros x xs H. apply existsb_exists in H.
  destruct H as [y [Hy E]]. apply str_eqb_true in E. subst. exact Hy.
Qed.

Lemma str_in_false : forall x xs, str_in x xs = false -> ~ In x xs.
Proof.
  unfold str_in. intros x xs H Hin.
  assert (E : existsb (str_eqb x) xs = true)
    by (apply existsb_exists; exists x; split; [exact Hin | apply str_eqb_refl]).
  congruence.
Qed.

Lemma nonnull_app_r : forall {A} (h s : list A), nonnull s = true -> nonnull (h ++ s) = true.
Proof. intros A h [|c s] H; [discriminate|]. destruct h; reflexivity. Qed.

Lemma nonnull_app_l : forall {A} (h s : list A), nonnull h = true -> nonnull (h ++ s) = true.
Proof. intros A [|c h] s H; [discriminate|]. reflexivity. Qed.

Lemma nonnull_neq : forall {A} (l : list A), nonnull l = true -> l <> [].
Proof. intros A l H ->. discriminate. Qed.

Lemma neq_nonnull : forall {A} (l : list A), l <> [] -> nonnull l = true.
Proof. intros A [|c l] H; [congruence | reflexivity]. Qed.

Lemma all_nonnull_app : forall l1 l2,
  all_nonnull (l1 ++ l2) = all_nonnull l1 && all_nonnull l2.
Proof. intros. unfold all_nonnull. apply forallb_app. Qed.

Lemma all_nonnull_cons : forall s l,
  all_nonnull (s :: l) = nonnull s && all_nonnull l.
Proof. reflexivity. Qed.

Lemma all_nonnull_In : forall l s, all_nonnull l = true -> In s l -> s <> [].
Proof.
  intros l s H Hin. unfold all_nonnull in H. rewrite forallb_forall in H.
  apply nonnull_neq, H, Hin.
Qed.

Lemma nonnull_list_app_l : forall {A} (l1 l2 : list A),
  nonnull l1 = true -> nonnull (l1 ++ l2) = true.
Proof. intros A [|x l1] l2 H; [discriminate | reflexivity]. Qed.

(** [x ++ s] differs from a literal [t] at most as long as [s]
    when [s] itself differs from it. *)
Lemma app_neq_lit : forall (x s t : str),
  length t <= length s -> s <> t -> x ++ s <> t.
Proof.
  intros x s t Hl Hst E.
  destruct x as [|c x]; [apply Hst; exact E|].
  apply (f_equal (@length N)) in E. simpl in E. rewrite length_app in E. lia.
Qed.

Lemma last_char_ok : forall v, v <> [] -> exists c, last_char v = Ok [c].
Proof.
  intros v Hv. unfold last_char. destruct (rev v) as [|c r] eqn:E.
  - apply (f_equal (@rev N)) in E. rewrite rev_involutive in E. simpl in E. congruence.
  - exists c. reflexivity.
Qed.

Lemma last_char_app : forall (x s : str), s <> [] -> last_char (x ++ s) = last_char s.
Proof.
  intros x s Hs. unfold last_char. rewrite rev_app_distr.
  destruct (rev s) as [|c r] eqn:E; [|reflexivity].
  apply (f_equal (@rev N)) in E. rewrite rev_involutive in E. simpl in E. congruence.
Qed.

Lemma drop_last_app : forall n (x s : str),
  n <= length s -> drop_last n (x ++ s) = x ++ drop_last n s.
Proof.
  intros n x s Hn. unfold drop_last. rewrite length_app.
  replace (length x + length s - n) with (length x + (length s - n)) by lia.
  rewrite firstn_app. rewrite firstn_all2 by lia.
  f_equal. f_equal. lia.
Qed.

Lemma ends_with_app : forall (x s t : str),
  length t <= length s -> ends_with (x ++ s) t = ends_with s t.
Proof.
  intros x s t Hl. unfold ends_with. rewrite length_app.
  replace (Nat.leb (length t) (length x + length s)) with true
    by (symmetry; apply Nat.leb_le; lia).
  replace (Nat.leb (length t) (length s)) with true
    by (symmetry; apply Nat.leb_le; lia).
  simpl. rewrite skipn_app.
  replace (length x + length s - length t - length x) with (length s - length t) by lia.
  rewrite skipn_all2 by lia. reflexivity.
Qed.

Lemma ok_or_ve_bind : forall {A B} (p : A -> bool) (q : B -> bool) m k,
  ok_or_ve p m = true ->
  (forall a, m = Ok a -> p a = true -> ok_or_ve q (k a) = true) ->
  ok_or_ve q (bind m k) = true.
Proof.
  intros A B p q [a|[| |]] k Hm Hk; simpl in *; try discriminate; auto.
Qed.

Lemma ok_or_ve_weaken : forall {A} (p q : A -> bool) r,
  (forall a, p a = true -> q a = true) ->
  ok_or_ve p r = true -> ok_or_ve q r = true.
Proof. intros A p q [a|[| |]] H Hr; simpl in *; auto. Qed.

(* ------------------------------------------------------------------ *)
(** ** Totality: the kana tables and the Type I conjugation *)

Lemma assoc_in_snd : forall {B} k (d : list (str * B)) v,
  assoc k d = Some v -> In v (map snd d).
Proof.
  intros B k d v. induction d as [|[k' v'] d IH]; simpl; [discriminate|].
  destruct (str_eqb k k'); [intros H; inversion H; left; reflexivity|].
  intros H. right. apply IH, H.
Qed.

Lemma lookup_hiragana_spec : forall b i, i < 5 ->
  _lookup_hiragana b i = Err ValueError
  \/ exists k, _lookup_hiragana b i = Ok k /\ nonnull k = true
               /\ (i = 3 -> k <> u "あ").
Proof.
  intros b i Hi. unfold _lookup_hiragana.
  destruct (assoc b _HIRAGANA_TABLE) as [row|] eqn:E; [|left; reflexivity].
  right. apply assoc_in_snd in E. simpl in E.
  repeat destruct E as [<-|E]; try contradiction;
    destruct i as [|[|[|[|[|i]]]]]; try lia;
    (eexists; split; [reflexivity|]; split; [reflexivity|];
     intros H1 H2; vm_compute in H2; discriminate).
Qed.

Lemma te_forms_spec : forall key forms i,
  assoc key _TE_TA_FORMS = Some forms -> i < 4 ->
  exists s, nth_error forms i = Some s /\ nonnull s = true /\ (i = 0 -> te_like s = true).
Proof.
  intros key forms i E Hi. apply assoc_in_snd in E. simpl in E.
  repeat destruct E as [<-|E]; try contradiction;
    destruct i as [|[|[|[|i]]]]; try lia;
    (eexists; split; [reflexivity|]; split; [reflexivity|];
     intros H; try discriminate H; vm_compute; reflexivity).
Qed.

Lemma special_cases_spec : forall v c s,
  _SPECIAL_CASES v c = Some s -> s <> [] \/ str_eqb v (u "ある") = true.
Proof.
  intros v c s. unfold _SPECIAL_CASES.
  destruct (str_eqb v (u "ある")); [right; reflexivity|].
  intros H. left.
  destruct (str_eqb v (u "ござる")); [destruct c; inversion H; subst; discriminate|].
  destruct (str_eqb v (u "いらっしゃる")); [|discriminate].
  destruct c; inversion H; subst; discriminate.
Qed.

Lemma ok_single : forall (b : bool) s, nonnull s = true ->
  ok_or_ve (fun l => nonnull l && (b || all_nonnull l)) (Ok [s]) = true.
Proof. intros b s H. simpl. rewrite H. destruct b; reflexivity. Qed.

(** [_conjugate_type1] on a non-empty verb returns a non-empty list or
    raises [ValueError]; its surfaces are non-empty unless the verb is ある. *)
Lemma conjugate_type1_ok : forall v c, v <> [] ->
  ok_or_ve (fun l => nonnull l && (str_eqb v (u "ある") || all_nonnull l))
    (_conjugate_type1 v c) = true.
Proof.
  intros v c Hv. unfold _conjugate_type1.
  destruct (str_eqb v (u "する")) eqn:E1.
  { apply str_eqb_true in E1; subst; destruct c; vm_compute; reflexivity. }
  destruct (str_in v [u "くる"; u "来る"]) eqn:E2.
  { apply str_in_true in E2. destruct E2 as [<-|[<-|[]]]; destruct c; vm_compute; reflexivity. }
  destruct (str_eqb v (u "だ")) eqn:E3.
  { apply str_eqb_true in E3; subst; destruct c; vm_compute; reflexivity. }
  destruct (str_eqb v (u "です")) eqn:E4.
  { apply str_eqb_true in E4; subst; destruct c; vm_compute; reflexivity. }
  destruct (ends_with v (u "くださる")) eqn:E5.
  { destruct c; try reflexivity; apply ok_single;
      [apply nonnull_app_r; reflexivity | apply neq_nonnull, Hv]. }
  destruct (_SPECIAL_CASES v c) as [s|] eqn:E6.
  { destruct (special_cases_spec v c s E6) as [Hs|Hs].
    - apply ok_single, neq_nonnull, Hs.
    - simpl. rewrite Hs. reflexivity. }
  destruct (last_char_ok v Hv) as [x Hx]. rewrite Hx. cbn [bind].
  set (head := drop_last 1 v).
  assert (Hlook : forall i, i < 5 ->
    ok_or_ve (fun l => nonnull l && (str_eqb v (u "ある") || all_nonnull l))
      (k <- _lookup_hiragana [x] i ;; Ok [head ++ k]) = true).
  { intros i Hi. destruct (lookup_hiragana_spec [x] i Hi) as [E|[k [E [Hk _]]]];
      rewrite E; [reflexivity | apply ok_single, nonnull_app_r, Hk]. }
  assert (Hte : forall i, i < 4 ->
    ok_or_ve (fun l => nonnull l && (str_eqb v (u "ある") || all_nonnull l))
      (match assoc (if str_in v [u "行く"; u "いく"] then u "つ" else [x]) _TE_TA_FORMS with
       | None => Err ValueError
       | Some forms =>
           match nth_error forms i with
           | Some s => Ok [head ++ s]
           | None => Err IndexError
           end
       end) = true).
  { intros i Hi.
    destruct (assoc _ _TE_TA_FORMS) as [forms|] eqn:E; [|reflexivity].
    destruct (te_forms_spec _ forms i E Hi) as [s [Hs [Hn _]]]. rewrite Hs.
    apply ok_single, nonnull_app_r, Hn. }
  destruct c; cbn [_CONJ_TO_INDEX te_ta_idx];
    try (apply Hte; lia); try (apply Hlook; lia);
    (destruct (str_eqb [x] (u "う")); cbn [andb Nat.eqb];
       [try (apply ok_single, nonnull_app_r; reflexivity) | ..]; apply Hlook; lia).
Qed.

Lemma ok_list : forall (b : bool) l, nonnull l = true ->
  (b = false -> all_nonnull l = true) ->
  ok_or_ve (fun l => nonnull l && (b || all_nonnull l)) (Ok l) = true.
Proof. intros b l H1 H2. simpl. rewrite H1. destruct b; [reflexivity|]. apply H2; reflexivity. Qed.

Ltac surf_tac :=
  unfold all_nonnull; cbn [forallb];
  repeat (rewrite nonnull_app_r by (vm_compute; reflexivity)); try reflexivity.

Lemma drop_last_nonnull : forall (v : str), Nat.leb (length v) 1 = false ->
  nonnull (drop_last 1 v) = true.
Proof.
  intros v H. apply Nat.leb_gt in H. unfold drop_last.
  destruct v as [|a [|b v]]; simpl in *; [lia|lia|].
  reflexivity.
Qed.

(** [_conjugate_type2] returns a non-empty list; its surfaces are
    non-empty unless the verb has a single character. *)
Lemma conjugate_type2_ok : forall v c, v <> [] ->
  ok_or_ve (fun l => nonnull l && (Nat.leb (length v) 1 || all_nonnull l))
    (_conjugate_type2 v c) = true.
Proof.
  intros v c Hv. unfold _conjugate_type2.
  destruct (str_eqb v (u "する")) eqn:E1.
  { apply str_eqb_true in E1; subst; destruct c; vm_compute; reflexivity. }
  destruct (str_in v [u "くる"; u "来る"]) eqn:E2.
  { apply str_in_true in E2. destruct E2 as [<-|[<-|[]]]; destruct c; vm_compute; reflexivity. }
  destruct (str_eqb v (u "だ")) eqn:E3.
  { apply str_eqb_true in E3; subst; destruct c; vm_compute; reflexivity. }
  destruct (str_eqb v (u "です")) eqn:E4.
  { apply str_eqb_true in E4; subst; destruct c; vm_compute; reflexivity. }
  pose proof (drop_last_nonnull v) as Hh.
  destruct c; apply ok_list; try reflexivity; intros Hb; surf_tac;
    try (rewrite (Hh Hb); reflexivity).
  rewrite (neq_nonnull v Hv). reflexivity.
Qed.

Lemma single_char_last : forall (v : str) x,
  v <> [] -> Nat.leb (length v) 1 = true -> last_char v = Ok [x] -> v = [x].
Proof.
  intros v x Hv Hl Hx. apply Nat.leb_le in Hl.
  destruct v as [|a [|b v]]; [congruence| |simpl in Hl; lia].
  unfold last_char in Hx. simpl in Hx. inversion Hx. reflexivity.
Qed.

(** [_conjugate_strict] returns a non-empty list on a non-empty verb;
    its surfaces are non-empty unless the verb is ある or る. *)
Lemma conjugate_strict_ok : forall v c t, v <> [] ->
  ok_or_ve (fun l => nonnull l && (str_in v [u "ある"; u "る"] || all_nonnull l))
    (_conjugate_strict v c t) = true.
Proof.
  intros v c t Hv. unfold _conjugate_strict.
  destruct (last_char_ok v Hv) as [x Hx]. rewrite Hx. cbn [bind].
  destruct (str_eqb [x] (u "る") && t) eqn:E.
  - apply andb_true_iff in E. destruct E as [Ex _]. apply str_eqb_true in Ex.
    eapply ok_or_ve_weaken; [|apply conjugate_type2_ok, Hv].
    intros l Hl. apply andb_true_iff in Hl. destruct Hl as [H1 H2].
    rewrite H1. simpl. destruct (Nat.leb (length v) 1) eqn:El;
      [|simpl in H2; rewrite H2, orb_true_r; reflexivity].
    rewrite (single_char_last v x Hv El Hx), Ex. reflexivity.
  - eapply ok_or_ve_weaken; [|apply conjugate_type1_ok, Hv].
    intros l Hl. apply andb_true_iff in Hl. destruct Hl as [H1 H2].
    rewrite H1. simpl. destruct (str_eqb v (u "ある")) eqn:Ea;
      [|simpl in H2; rewrite H2, orb_true_r; reflexivity].
    apply str_eqb_true in Ea. subst. reflexivity.
Qed.

(** [conjugate] returns a non-empty list on a non-empty verb; its surfaces
    are non-empty unless the verb is ある or る. *)
Lemma conjugate_ok : forall v c t, v <> [] ->
  ok_or_ve (fun l => nonnull l && (str_in v [u "ある"; u "る"] || all_nonnull l))
    (conjugate v c t) = true.
Proof.
  intros v c t Hv. unfold conjugate.
  eapply ok_or_ve_bind; [apply conjugate_strict_ok, Hv|].
  intros [|r0 rest] _ Hp; [discriminate|].
  assert (Hadd : forall suffix, nonnull suffix = true ->
    ok_or_ve (fun l => nonnull l && (str_in v [u "ある"; u "る"] || all_nonnull l))
      (r1 <- index0 (r0 :: rest) ;; Ok ((r0 :: rest) ++ [r1 ++ suffix])) = true).
  { intros suffix Hs. cbn [index0 bind]. apply ok_list; [reflexivity|].
    intros Hb. rewrite Hb in Hp. simpl in Hp.
    rewrite all_nonnull_app. change (all_nonnull (r0 :: rest)) with (nonnull r0 && all_nonnull rest).
    rewrite Hp. simpl. rewrite nonnull_app_r by exact Hs. reflexivity. }
  destruct c; try (apply Hadd; reflexivity); try exact Hp;
    (destruct (str_in v [u "だ"; u "です"]); [exact Hp | apply Hadd; reflexivity]).
Qed.

(* ------------------------------------------------------------------ *)
(** ** Totality: verbs built by the auxiliaries *)

Lemma conjugate_good : forall w c t, good_verb w = true ->
  ok_or_ve surf_ok (conjugate w c t) = true.
Proof.
  intros w c t Hw. unfold good_verb in Hw. apply andb_true_iff in Hw.
  destruct Hw as [Hn Hin]. apply negb_true_iff in Hin.
  eapply ok_or_ve_weaken; [|apply conjugate_ok, nonnull_neq, Hn].
  intros l Hl. rewrite Hin in Hl. exact Hl.
Qed.

Lemma str_in_false_intro : forall x xs, ~ In x xs -> str_in x xs = false.
Proof.
  intros x xs H. destruct (str_in x xs) eqn:E; [|reflexivity].
  apply str_in_true in E. contradiction.
Qed.

Lemma good_verb_intro : forall w, w <> [] -> w <> u "ある" -> w <> u "る" ->
  good_verb w = true.
Proof.
  intros w H1 H2 H3. unfold good_verb. rewrite (neq_nonnull w H1).
  rewrite str_in_false_intro; [reflexivity|].
  intros [E|[E|[]]]; symmetry in E; contradiction.
Qed.

Lemma lastc_neq : forall (x s t : str), s <> [] -> last_char s <> last_char t -> x ++ s <> t.
Proof. intros x s t Hs H E. apply H. rewrite <- E. symmetry. apply last_char_app, Hs. Qed.

(** [x ++ s] is a good verb when [s] ends in a character other than る. *)
Lemma good_app_lastc : forall x s, s <> [] -> last_char s <> Ok [12427%N] ->
  good_verb (x ++ s) = true.
Proof.
  intros x s Hs Hl. apply good_verb_intro.
  - intros E. apply app_eq_nil in E. tauto.
  - apply lastc_neq; [exact Hs|]. vm_compute. exact Hl.
  - apply lastc_neq; [exact Hs|]. vm_compute. exact Hl.
Qed.

(** [x ++ s] is a good verb when [s] is long and is not ある. *)
Lemma good_app_long : forall x s, 2 <= length s -> s <> u "ある" ->
  good_verb (x ++ s) = true.
Proof.
  intros x s Hl Hs. apply good_verb_intro.
  - intros E. apply app_eq_nil in E. destruct E as [_ ->]. simpl in Hl. lia.
  - apply app_neq_lit; [change (length (u "ある")) with 2; lia | exact Hs].
  - apply app_neq_lit; [change (length (u "る")) with 1; lia|].
    intros ->. change (length (u "る")) with 1 in Hl. lia.
Qed.

(** [x ++ s] is a good verb when [x] is neither empty nor あ. *)
Lemma good_app_short : forall x s, x <> [] -> x <> u "あ" -> s <> [] ->
  good_verb (x ++ s) = true.
Proof.
  intros x s Hx Ha Hs. apply good_verb_intro.
  - intros E. apply app_eq_nil in E. tauto.
  - intros E. change (u "ある") with [12354%N; 12427%N] in E.
    destruct x as [|a x]; [congruence|]. inversion E as [[Ea E']]. subst a.
    destruct x as [|b x].
    + apply Ha. reflexivity.
    + inversion E' as [[Eb E'']]. apply app_eq_nil in E''. tauto.
  - intros E. change (u "る") with [12427%N] in E.
    destruct x as [|a x]; [congruence|]. inversion E as [[Ea E']].
    apply app_eq_nil in E'. tauto.
Qed.

Lemma conj0_ok : forall v c t, v <> [] -> ok_or_ve (fun _ => true) (conj0 v c t) = true.
Proof.
  intros v c t Hv. unfold conj0.
  eapply ok_or_ve_bind; [apply conjugate_ok, Hv|].
  intros [|r0 rest] _ Hp; [discriminate | reflexivity].
Qed.

Lemma te_like_app : forall x s, te_like s = true -> te_like (x ++ s) = true.
Proof.
  intros x s H. unfold te_like in *. apply orb_true_iff in H.
  destruct H as [H|H]; apply orb_true_iff; [left|right];
    (rewrite ends_with_app; [exact H|]);
    unfold ends_with in H; apply andb_true_iff in H; destruct H as [H _];
    apply Nat.leb_le in H; exact H.
Qed.

Lemma te_like_good : forall s, te_like s = true -> s <> [] /\ s <> u "あ".
Proof. intros s H. split; intros ->; vm_compute in H; discriminate. Qed.

Lemma special_cases_te : forall v, _SPECIAL_CASES v TE = None.
Proof.
  intros v. unfold _SPECIAL_CASES.
  destruct (str_eqb v (u "ある")); [reflexivity|].
  destruct (str_eqb v (u "ござる")); [reflexivity|].
  destruct (str_eqb v (u "いらっしゃる")); reflexivity.
Qed.

Lemma conjugate_te_strict : forall v t, conjugate v TE t = _conjugate_strict v TE t.
Proof. intros v t. unfold conjugate. destruct (_conjugate_strict v TE t); reflexivity. Qed.

(** The first Te form of a non-empty verb ends in て or で. *)
Lemma conj0_te : forall v t, v <> [] -> ok_or_ve te_like (conj0 v TE t) = true.
Proof.
  intros v t Hv. unfold conj0. rewrite conjugate_te_strict.
  enough (H : ok_or_ve (first_ok te_like) (_conjugate_strict v TE t) = true).
  { eapply ok_or_ve_bind; [exact H|]. intros [|h l] _ Hh; [discriminate|exact Hh]. }
  unfold _conjugate_strict. destruct (last_char_ok v Hv) as [x Hx]. rewrite Hx. cbn [bind].
  destruct (str_eqb [x] (u "る") && t).
  - unfold _conjugate_type2.
    destruct (str_eqb v (u "する")); [vm_compute; reflexivity|].
    destruct (str_in v [u "くる"; u "来る"]) eqn:E2.
    { apply str_in_true in E2. destruct E2 as [<-|[<-|[]]]; vm_compute; reflexivity. }
    destruct (str_eqb v (u "だ")); [vm_compute; reflexivity|].
    destruct (str_eqb v (u "です")); [vm_compute; reflexivity|].
    apply te_like_app. reflexivity.
  - unfold _conjugate_type1.
    destruct (str_eqb v (u "する")); [vm_compute; reflexivity|].
    destruct (str_in v [u "くる"; u "来る"]) eqn:E2.
    { apply str_in_true in E2. destruct E2 as [<-|[<-|[]]]; vm_compute; reflexivity. }
    destruct (str_eqb v (u "だ")); [vm_compute; reflexivity|].
    destruct (str_eqb v (u "です")); [vm_compute; reflexivity|].
    destruct (ends_with v (u "くださる")); [reflexivity|].
    rewrite special_cases_te, Hx. cbn [bind _CONJ_TO_INDEX te_ta_idx].
    destruct (assoc _ _TE_TA_FORMS) as [forms|] eqn:E; [|reflexivity].
    destruct (te_forms_spec _ forms 0 E ltac:(lia)) as [s [Hs [_ Ht]]]. rewrite Hs.
    apply te_like_app, Ht. reflexivity.
Qed.

Lemma cond_head_app : forall head k, nonnull k = true -> k <> u "あ" ->
  nonnull (head ++ k) && negb (str_eqb (head ++ k) (u "あ")) = true.
Proof.
  intros head k Hk Ha. rewrite nonnull_app_r by exact Hk.
  rewrite str_eqb_false; [reflexivity|].
  apply app_neq_lit; [|exact Ha].
  change (length (u "あ")) with 1. destruct k; [discriminate|simpl; lia].
Qed.

(** The first Conditional stem, used by [Potential], is neither empty nor あ. *)
Lemma conjugate_type1_cond : forall v, v <> [] ->
  ok_or_ve (first_ok (fun h => nonnull h && negb (str_eqb h (u "あ"))))
    (_conjugate_type1 v CONDITIONAL) = true.
Proof.
  intros v Hv. unfold _conjugate_type1.
  destruct (str_eqb v (u "する")); [vm_compute; reflexivity|].
  destruct (str_in v [u "くる"; u "来る"]) eqn:E2.
  { apply str_in_true in E2. destruct E2 as [<-|[<-|[]]]; vm_compute; reflexivity. }
  destruct (str_eqb v (u "だ")); [vm_compute; reflexivity|].
  destruct (str_eqb v (u "です")); [vm_compute; reflexivity|].
  destruct (ends_with v (u "くださる")); [reflexivity|].
  destruct (_SPECIAL_CASES v CONDITIONAL) as [s|] eqn:E6.
  { unfold _SPECIAL_CASES in E6.
    destruct (str_eqb v (u "ある")); [discriminate|].
    destruct (str_eqb v (u "ござる")); [discriminate|].
    destruct (str_eqb v (u "いらっしゃる")); [|discriminate].
    inversion E6. vm_compute. reflexivity. }
  destruct (last_char_ok v Hv) as [x Hx]. rewrite Hx. cbn [bind _CONJ_TO_INDEX].
  destruct (str_eqb [x] (u "う")); cbn [andb Nat.eqb];
  (destruct (lookup_hiragana_spec [x] 3 ltac:(lia)) as [E|[k [E [Hk Ha]]]];
    rewrite E; [reflexivity|]; apply cond_head_app; [exact Hk | apply Ha; reflexivity]).
Qed.

Lemma conjugate_type2_cond : forall v, v <> [] ->
  ok_or_ve (first_ok (fun h => nonnull h && negb (str_eqb h (u "あ"))))
    (_conjugate_type2 v CONDITIONAL) = true.
Proof.
  intros v Hv. unfold _conjugate_type2.
  destruct (str_eqb v (u "する")); [vm_compute; reflexivity|].
  destruct (str_in v [u "くる"; u "来る"]) eqn:E2.
  { apply str_in_true in E2. destruct E2 as [<-|[<-|[]]]; vm_compute; reflexivity. }
  destruct (str_eqb v (u "だ")); [vm_compute; reflexivity|].
  destruct (str_eqb v (u "です")); [vm_compute; reflexivity|].
  apply cond_head_app; [reflexivity | discriminate].
Qed.

(* ------------------------------------------------------------------ *)
(** ** Totality: [_conjugate_auxiliary] *)

Ltac lits_tac := unfold ok_or_ve, surf_ok; cbn [nonnull andb map]; surf_tac.

Lemma surf_ok_app : forall a b, surf_ok a = true -> surf_ok b = true -> surf_ok (a ++ b) = true.
Proof.
  unfold surf_ok. intros a b Ha Hb. apply andb_true_iff in Ha as [Ha1 Ha2].
  apply andb_true_iff in Hb as [_ Hb2].
  rewrite nonnull_list_app_l by exact Ha1. rewrite all_nonnull_app, Ha2, Hb2. reflexivity.
Qed.

Lemma all_nonnull_map_app : forall (b : str) l, all_nonnull l = true ->
  all_nonnull (map (fun s => b ++ s) l) = true.
Proof.
  unfold all_nonnull. intros b l. induction l as [|x xs IH]; [reflexivity|].
  cbn [map forallb]. intros H. apply andb_true_iff in H as [Hx Hxs].
  rewrite nonnull_app_r by exact Hx. rewrite IH by exact Hxs. reflexivity.
Qed.

Lemma surf_ok_map_app : forall b l, surf_ok l = true ->
  surf_ok (map (fun s => b ++ s) l) = true.
Proof.
  unfold surf_ok. intros b l H. apply andb_true_iff in H as [H1 H2].
  destruct l as [|s l]; [discriminate|].
  rewrite all_nonnull_map_app by exact H2. reflexivity.
Qed.

Lemma concat_map_r_ok : forall {A} (f : A -> result (list str)) xs,
  nonnull xs = true -> (forall x, In x xs -> ok_or_ve surf_ok (f x) = true) ->
  ok_or_ve surf_ok (concat_map_r f xs) = true.
Proof.
  intros A f xs Hn Hf. destruct xs as [|x0 xs0]; [discriminate|]. clear Hn.
  revert x0 Hf. induction xs0 as [|x1 xs1 IH]; intros x0 Hf.
  - cbn [concat_map_r]. eapply ok_or_ve_bind; [apply Hf; left; reflexivity|].
    intros ys _ Hys. cbn [bind]. rewrite app_nil_r. exact Hys.
  - cbn [concat_map_r]. eapply ok_or_ve_bind; [apply Hf; left; reflexivity|].
    intros ys _ Hys.
    specialize (IH x1 (fun x Hx => Hf x (or_intror Hx))).
    cbn [concat_map_r] in IH.
    eapply ok_or_ve_bind; [exact IH|]. intros zs _ Hzs. cbn [bind].
    apply surf_ok_app; assumption.
Qed.

Lemma map_r_index0 : forall (b : str) rest l,
  map_r (fun suffix => b' <- index0 (b :: rest) ;; Ok (b' ++ suffix)) l
  = Ok (map (fun s => b ++ s) l).
Proof. intros b rest l. induction l as [|s l IH]; [reflexivity|]. cbn [map_r]. rewrite IH. reflexivity. Qed.

Lemma masu_aux_ok : forall v c t, v <> [] -> ok_or_ve surf_ok (masu_aux v c t) = true.
Proof.
  intros v c t Hv. unfold masu_aux. eapply ok_or_ve_bind; [apply conj0_ok, Hv|].
  intros base _ _. destruct c; try reflexivity; lits_tac.
Qed.

Lemma nai_aux_ok : forall v c t, v <> [] -> ok_or_ve surf_ok (nai_aux v c t) = true.
Proof.
  intros v c t Hv. unfold nai_aux. eapply ok_or_ve_bind; [apply conj0_ok, Hv|].
  intros base _ _. destruct c; try reflexivity; lits_tac.
Qed.

Lemma tai_aux_ok : forall v c t, v <> [] -> ok_or_ve surf_ok (tai_aux v c t) = true.
Proof.
  intros v c t Hv. unfold tai_aux. eapply ok_or_ve_bind; [apply conj0_ok, Hv|].
  intros base _ _. destruct c; try reflexivity; lits_tac.
Qed.

Lemma hoshii_aux_ok : forall v c t, v <> [] -> ok_or_ve surf_ok (hoshii_aux v c t) = true.
Proof.
  intros v c t Hv. unfold hoshii_aux. eapply ok_or_ve_bind; [apply conj0_ok, Hv|].
  intros base _ _. destruct c; try reflexivity; lits_tac.
Qed.

Lemma souda_hearsay_aux_ok : forall v c t, v <> [] ->
  ok_or_ve surf_ok (souda_hearsay_aux v c t) = true.
Proof.
  intros v c t Hv. unfold souda_hearsay_aux. eapply ok_or_ve_bind; [apply conj0_ok, Hv|].
  intros base _ _. destruct c; try reflexivity; lits_tac.
Qed.

Lemma souda_conjecture_aux_ok : forall v c t, v <> [] ->
  ok_or_ve surf_ok (souda_conjecture_aux v c t) = true.
Proof.
  intros v c t Hv. unfold souda_conjecture_aux. eapply ok_or_ve_bind; [apply conj0_ok, Hv|].
  intros base _ _. destruct c; try reflexivity; lits_tac.
Qed.

Lemma rashii_aux_ok : forall v c t, v <> [] -> ok_or_ve surf_ok (rashii_aux v c t) = true.
Proof.
  intros v c t Hv. unfold rashii_aux. eapply ok_or_ve_bind; [apply conj0_ok, Hv|].
  intros base1 _ _. destruct c; try reflexivity; try lits_tac.
  eapply ok_or_ve_bind; [apply nai_aux_ok, Hv|].
  intros [|neg rest] _ Hr; [discriminate|]. cbn [index0 bind]. lits_tac.
Qed.

Lemma tagaru_aux_ok : forall v c t, v <> [] -> ok_or_ve surf_ok (tagaru_aux v c t) = true.
Proof.
  intros v c t Hv. unfold tagaru_aux.
  destruct c; try reflexivity;
  (eapply ok_or_ve_bind; [apply conjugate_ok, Hv|];
   intros [|b rest] _ Hb; [discriminate|];
   eapply ok_or_ve_bind; [apply conjugate_good; reflexivity|];
   intros tc _ Htc; rewrite map_r_index0; apply surf_ok_map_app, Htc).
Qed.

Lemma good_long_tac_helper : forall x s,
  Nat.leb 2 (length s) = true -> str_eqb s (u "ある") = false -> good_verb (x ++ s) = true.
Proof.
  intros x s H1 H2. apply good_app_long; [apply Nat.leb_le, H1 | apply str_eqb_false_neq, H2].
Qed.

Ltac good_long := apply good_long_tac_helper; reflexivity.

(** The verb built by [SERU_SASERU] is a good verb. *)
Lemma causative_aux_ok : forall sh v c t, v <> [] ->
  ok_or_ve surf_ok (causative_aux sh v c t) = true.
Proof.
  intros sh v c t Hv. unfold causative_aux.
  destruct c; try reflexivity;
  (eapply ok_or_ve_bind with (p := good_verb);
   [ destruct (str_in v [u "来る"; u "くる"]) eqn:E1;
     [ apply str_in_true in E1; destruct E1 as [<-|[<-|[]]]; vm_compute; reflexivity |];
     destruct (str_eqb v (u "する")); [vm_compute; reflexivity|];
     destruct t;
     [ eapply ok_or_ve_bind; [apply conjugate_type2_ok, Hv|];
       intros [|h r] _ Hr; [discriminate|]; cbn [index0 bind]; good_long
     | eapply ok_or_ve_bind; [apply conjugate_type1_ok, Hv|];
       intros [|h r] _ Hr; [discriminate|]; cbn [index0 bind]; good_long ]
   | intros nv _ Hnv; destruct sh;
     [ apply conjugate_good, good_app_lastc; [discriminate | vm_compute; discriminate]
     | apply conjugate_good, Hnv ] ]).
Qed.

Lemma reru_rareru_aux_ok : forall v c t, v <> [] ->
  ok_or_ve surf_ok (reru_rareru_aux v c t) = true.
Proof.
  intros v c t Hv. unfold reru_rareru_aux.
  destruct c; try reflexivity;
  (eapply ok_or_ve_bind with (p := good_verb);
   [ destruct (str_in v [u "来る"; u "くる"]) eqn:E1;
     [ apply str_in_true in E1; destruct E1 as [<-|[<-|[]]]; vm_compute; reflexivity |];
     destruct (str_eqb v (u "する")); [vm_compute; reflexivity|];
     destruct t;
     [ eapply ok_or_ve_bind; [apply conjugate_type2_ok, Hv|];
       intros [|h r] _ Hr; [discriminate|]; cbn [index0 bind]; good_long
     | eapply ok_or_ve_bind; [apply conjugate_type1_ok, Hv|];
       intros [|h r] _ Hr; [discriminate|]; cbn [index0 bind]; good_long ]
   | intros nv _ Hnv; apply conjugate_good, Hnv ]).
Qed.

Lemma potential_aux_ok : forall v c t, v <> [] ->
  ok_or_ve surf_ok (potential_aux v c t) = true.
Proof.
  intros v c t Hv. unfold potential_aux.
  eapply ok_or_ve_bind
    with (p := first_ok (fun h => nonnull h && negb (str_eqb h (u "あ")))).
  { destruct t; [apply conjugate_type2_cond, Hv | apply conjugate_type1_cond, Hv]. }
  intros [|h r] _ Hh; [discriminate|]. cbn [index0 bind first_ok] in *.
  apply andb_true_iff in Hh as [Hn Ha]. apply negb_true_iff in Ha.
  apply conjugate_good, good_app_short;
    [apply nonnull_neq, Hn | apply str_eqb_false_neq, Ha | discriminate].
Qed.

Lemma causative_passive_ok : forall sh (s : str) v c t, v <> [] ->
  Nat.leb 2 (length s) = true -> str_eqb s (u "ある") = false ->
  ok_or_ve surf_ok
    (r <- causative_aux sh v NEGATIVE t ;; causative <- index0 r ;;
     conjugate (causative ++ s) c true) = true.
Proof.
  intros sh s v c t Hv H1 H2.
  eapply ok_or_ve_bind; [apply causative_aux_ok, Hv|].
  intros [|h r] _ Hr; [discriminate|]. cbn [index0 bind].
  apply conjugate_good, good_long_tac_helper; assumption.
Qed.

Lemma te_endings_ok : forall aux, all_nonnull (te_endings aux) = true.
Proof. intros aux; destruct aux; reflexivity. Qed.

Lemma te_aux_ok : forall aux v c t, v <> [] -> ok_or_ve surf_ok (te_aux aux v c t) = true.
Proof.
  intros aux v c t Hv. unfold te_aux.
  eapply ok_or_ve_bind; [apply conj0_te, Hv|]. intros vte _ Hte.
  destruct (te_like_good vte Hte) as [Hne Ha].
  assert (Hmap : forall x, In x (map (fun e => vte ++ e) (te_endings aux)) ->
                 ok_or_ve surf_ok (conjugate x c (aux_in aux [AGERU; SASHIAGERU; KURERU; TE_IRU; MIRU])) = true).
  { intros x Hx. apply in_map_iff in Hx as [e [<- He]].
    apply conjugate_good, good_app_short; [exact Hne | exact Ha|].
    apply (all_nonnull_In _ _ (te_endings_ok aux) He). }
  assert (Hnn : nonnull (map (fun e => vte ++ e) (te_endings aux)) = true)
    by (destruct aux; reflexivity).
  destruct aux;
    try (cbn [bind]; apply concat_map_r_ok; [exact Hnn | exact Hmap]).
  - (* IKU *)
    cbn [bind]. apply concat_map_r_ok; [apply nonnull_list_app_l, Hnn|].
    intros x Hx. apply in_app_or in Hx as [Hx|[<-|[]]]; [apply Hmap, Hx|].
    apply conjugate_good, good_app_lastc; [discriminate | vm_compute; discriminate].
  - (* KURU *)
    eapply ok_or_ve_bind; [apply conjugate_good; reflexivity|].
    intros ks _ Hks. apply surf_ok_map_app, Hks.
  - (* OKU *)
    destruct (last_char_ok vte Hne) as [l Hl]. rewrite Hl. cbn [bind].
    apply concat_map_r_ok; [apply nonnull_list_app_l, Hnn|].
    intros x Hx. apply in_app_or in Hx as [Hx|[<-|[]]]; [apply Hmap, Hx|].
    apply conjugate_good.
    destruct (str_eqb [l] (u "で"));
      (apply good_app_lastc; [discriminate | vm_compute; discriminate]).
Qed.

Lemma shimau_aux_ok : forall v c t, v <> [] -> ok_or_ve surf_ok (shimau_aux v c t) = true.
Proof.
  intros v c t Hv. unfold shimau_aux.
  eapply ok_or_ve_bind; [apply conj0_ok, Hv|]. intros vte _ _.
  eapply ok_or_ve_bind;
    [apply conjugate_good, good_app_lastc; [discriminate | vm_compute; discriminate]|].
  intros sh _ Hsh.
  destruct (ends_with vte (u "て"));
  (eapply ok_or_ve_bind;
    [apply conjugate_good, good_app_lastc; [discriminate | vm_compute; discriminate]|];
   intros a _ Ha;
   eapply ok_or_ve_bind;
    [apply conjugate_good, good_app_lastc; [discriminate | vm_compute; discriminate]|];
   intros b _ Hb; cbn [bind];
   apply surf_ok_app; [exact Hsh | apply surf_ok_app; assumption]).
Qed.

(** [_conjugate_auxiliary] on a non-empty verb returns a non-empty list of
    non-empty surfaces, or raises [ValueError]. *)
Lemma conjugate_auxiliary_ok : forall v aux c t, v <> [] ->
  ok_or_ve surf_ok (_conjugate_auxiliary v aux c t) = true.
Proof.
  intros v aux c t Hv. destruct aux; cbn [_conjugate_auxiliary];
    try reflexivity;
    auto using potential_aux_ok, masu_aux_ok, nai_aux_ok, tai_aux_ok, tagaru_aux_ok,
      hoshii_aux_ok, rashii_aux_ok, souda_hearsay_aux_ok, souda_conjecture_aux_ok,
      causative_aux_ok, reru_rareru_aux_ok, te_aux_ok, shimau_aux_ok;
    apply causative_passive_ok; auto.
Qed.

(* ------------------------------------------------------------------ *)
(** ** Totality: chains and the deconjugation search *)

Lemma flat_map_heads_ok : forall (heads : list str) tails,
  nonnull heads = true -> surf_ok tails = true ->
  surf_ok (flat_map (fun head => map (fun tail => head ++ tail) tails) heads) = true.
Proof.
  intros heads tails Hh Ht. unfold surf_ok in *.
  apply andb_true_iff in Ht as [Ht1 Ht2]. apply andb_true_iff. split.
  - destruct heads as [|h hs]; [discriminate|]. cbn [flat_map].
    apply nonnull_list_app_l. destruct tails; [discriminate | reflexivity].
  - clear Hh. induction heads as [|h hs IH]; [reflexivity|]. cbn [flat_map].
    rewrite all_nonnull_app, all_nonnull_map_app by exact Ht2. exact IH.
Qed.

Lemma aux_loop_ok : forall auxs prev verbs t K, surf_ok verbs = true ->
  ok_or_ve surf_ok (aux_loop auxs prev verbs t K) = true.
Proof.
  induction auxs as [|aux rest IH]; intros prev verbs t K Hv; [exact Hv|].
  cbn [aux_loop].
  destruct (negb _ && aux_in aux final_only); [reflexivity|].
  eapply ok_or_ve_bind with (p := surf_ok); [|intros verbs' _ H'; apply IH, H'].
  assert (Hgen : ok_or_ve surf_ok
    (concat_map_r (fun v => _conjugate_auxiliary v aux
       (if match rest with [] => true | _ => false end then K else DICTIONARY) t)
       verbs) = true).
  { unfold surf_ok in Hv. apply andb_true_iff in Hv as [Hv1 Hv2].
    apply concat_map_r_ok; [exact Hv1|]. intros x Hx.
    apply conjugate_auxiliary_ok, (all_nonnull_In _ _ Hv2 Hx). }
  destruct prev as [[]|]; try exact Hgen.
  eapply ok_or_ve_bind; [apply conjugate_auxiliary_ok; discriminate|].
  intros tails _ Ht. cbn [bind]. apply flat_map_heads_ok; [|exact Ht].
  unfold surf_ok in Hv. apply andb_true_iff in Hv as [Hv1 _].
  destruct verbs; [discriminate | reflexivity].
Qed.

(** A non-empty chain on a non-empty verb gives a non-empty list of
    non-empty surfaces, or raises [ValueError]. *)
Lemma conjugate_auxiliaries_chain_ok : forall v auxs K t, v <> [] -> auxs <> [] ->
  ok_or_ve surf_ok (conjugate_auxiliaries v auxs K t) = true.
Proof.
  intros v auxs K t Hv Ha. unfold conjugate_auxiliaries.
  destruct auxs as [|a rest]; [congruence|].
  destruct (str_in v [u "だ"; u "です"]) eqn:E.
  - apply str_in_true in E. destruct E as [<-|[<-|[]]];
      destruct a, rest; try reflexivity; destruct K; vm_compute; reflexivity.
  - apply aux_loop_ok. unfold surf_ok. cbn. rewrite (neq_nonnull v Hv). reflexivity.
Qed.

Lemma conjugate_auxiliaries_ok : forall v auxs K t, v <> [] ->
  ok_or_ve nonnull (conjugate_auxiliaries v auxs K t) = true.
Proof.
  intros v auxs K t Hv. destruct auxs as [|a rest].
  - eapply ok_or_ve_weaken; [|apply conjugate_ok, Hv].
    intros l Hl. apply andb_true_iff in Hl as [Hl _]. exact Hl.
  - eapply ok_or_ve_weaken; [|apply conjugate_auxiliaries_chain_ok; [exact Hv | discriminate]].
    intros l Hl. apply andb_true_iff in Hl as [Hl _]. exact Hl.
Qed.

Lemma try_hit_spec : forall S r auxs c hits,
  ok_or_ve (fun _ => true) r = true ->
  exists hits', try_hit S r auxs c hits = Ok hits'
    /\ (forall h, In h hits -> In h hits')
    /\ (forall L, r = Ok L -> str_in S L = true ->
          exists h, In h hits' /\ auxiliaries h = auxs /\ conjugation h = c).
Proof.
  intros S [L|[| |]] auxs c hits Hr; try discriminate.
  - cbn [try_hit]. destruct (str_in S L) eqn:E.
    + eexists; split; [reflexivity|]. split.
      * intros h Hh. apply in_or_app. left. exact Hh.
      * intros L' _ _. eexists; split; [apply in_or_app; right; left; reflexivity|].
        split; reflexivity.
    + exists hits. split; [reflexivity|]. split; [tauto|].
      intros L' EL. inversion EL. subst. congruence.
  - exists hits. split; [reflexivity|]. split; [tauto|]. discriminate.
Qed.

Lemma scan_spec : forall S f cands hits,
  (forall a c, In (a, c) cands -> ok_or_ve (fun _ => true) (f a c) = true) ->
  exists hits', scan S f cands hits = Ok hits'
    /\ (forall h, In h hits -> In h hits')
    /\ (forall a c L, In (a, c) cands -> f a c = Ok L -> str_in S L = true ->
          exists h, In h hits' /\ auxiliaries h = a /\ conjugation h = c).
Proof.
  intros S f cands. induction cands as [|[a c] cands IH]; intros hits Hf.
  - exists hits. split; [reflexivity|]. split; [tauto|]. intros a c L [].
  - cbn [scan].
    destruct (try_hit_spec S (f a c) a c hits (Hf a c (or_introl eq_refl)))
      as [h1 [E1 [Hinc1 Hhit1]]].
    rewrite E1. cbn [bind].
    destruct (IH h1 (fun a' c' H => Hf a' c' (or_intror H))) as [h2 [E2 [Hinc2 Hhit2]]].
    exists h2. split; [exact E2|]. split; [intros h Hh; apply Hinc2, Hinc1, Hh|].
    intros a' c' L [Eac|Hin] EL HS.
    + inversion Eac. subst a' c'.
      destruct (Hhit1 L EL HS) as [h [Hh Hp]]. exists h. split; [apply Hinc2, Hh | exact Hp].
    + apply (Hhit2 a' c' L Hin EL HS).
Qed.

Lemma all_conjugations_complete : forall c, In c all_conjugations.
Proof. intros c; destruct c; simpl; tauto. Qed.

Lemma all_auxiliaries_complete : forall a, In a all_auxiliaries.
Proof. intros a; destruct a; simpl; tauto. Qed.

Lemma in_with_conjs : forall ch chains c, In ch chains -> In (ch, c) (with_conjs chains).
Proof.
  intros ch chains c H. unfold with_conjs. apply in_flat_map. exists ch.
  split; [exact H|]. apply in_map, all_conjugations_complete.
Qed.

Lemma in_depth1_cands : forall aux c, In ([aux], c) depth1_cands.
Proof.
  intros aux c. apply in_with_conjs, (in_map (fun a => [a])), all_auxiliaries_complete.
Qed.

Lemma in_depth0_cands : forall c, In ([], c) depth0_cands.
Proof. intros c. apply in_with_conjs. left. reflexivity. Qed.

(** [deconjugate_verb] with a non-empty dictionary form returns normally,
    and its hits include every pair of the search whose surfaces contain
    the input. *)
Lemma deconjugate_verb_spec : forall S D t d, D <> [] ->
  exists hits, deconjugate_verb S D t d = Ok hits /\
  forall CH K L,
    ((CH = [] /\ conjugate D K t = Ok L)
     \/ (exists aux, CH = [aux] /\ (1 <= d)%Z /\ _conjugate_auxiliary D aux K t = Ok L)
     \/ (In (CH, K) depth2_cands /\ (2 <= d)%Z /\ conjugate_auxiliaries D CH K t = Ok L)
     \/ (In (CH, K) depth3_cands /\ (3 <= d)%Z /\ conjugate_auxiliaries D CH K t = Ok L)) ->
    str_in S L = true ->
    exists h, In h hits /\ auxiliaries h = CH /\ conjugation h = K.
Proof.
  intros S D t d HD. unfold deconjugate_verb.
  destruct (scan_spec S (fun _ c => conjugate D c t) depth0_cands [])
    as [h0 [E0 [_ Hit0]]].
  { intros a c _. eapply ok_or_ve_weaken; [|apply conjugate_ok, HD]. reflexivity. }
  rewrite E0. cbn [bind].
  assert (Hit0' : forall K L, conjugate D K t = Ok L -> str_in S L = true ->
            exists h, In h h0 /\ auxiliaries h = [] /\ conjugation h = K)
    by (intros K L EL HS; apply (Hit0 [] K L (in_depth0_cands K) EL HS)).
  clear Hit0.
  destruct (d <? 1)%Z eqn:Ed1.
  { apply Z.ltb_lt in Ed1. exists h0. split; [reflexivity|].
    intros CH K L [[-> EL]|[[aux [_ [Hd _]]]|[[_ [Hd _]]|[_ [Hd _]]]]] HS;
      [apply (Hit0' K L EL HS)|lia..]. }
  apply Z.ltb_ge in Ed1.
  destruct (scan_spec S (fun auxs c => match auxs with
                                       | [aux] => _conjugate_auxiliary D aux c t
                                       | _ => Err ValueError end) depth1_cands h0)
    as [h1 [E1 [Inc1 Hit1]]].
  { intros [|a [|b l]] c _; try reflexivity.
    eapply ok_or_ve_weaken; [|apply conjugate_auxiliary_ok, HD]. reflexivity. }
  rewrite E1. cbn [bind].
  assert (Hit01 : forall CH K L,
     ((CH = [] /\ conjugate D K t = Ok L)
      \/ (exists aux, CH = [aux] /\ _conjugate_auxiliary D aux K t = Ok L)) ->
     str_in S L = true -> exists h, In h h1 /\ auxiliaries h = CH /\ conjugation h = K).
  { intros CH K L [[-> EL]|[aux [-> EL]]] HS.
    - destruct (Hit0' K L EL HS) as [h [Hh Hp]]. exists h. split; [apply Inc1, Hh|exact Hp].
    - apply (Hit1 [aux] K L (in_depth1_cands aux K) EL HS). }
  clear Hit0' Hit1.
  destruct (d <? 2)%Z eqn:Ed2.
  { apply Z.ltb_lt in Ed2. exists h1. split; [reflexivity|].
    intros CH K L [[-> EL]|[[aux [-> [_ EL]]]|[[_ [Hd _]]|[_ [Hd _]]]]] HS;
      [apply (Hit01 [] K L); auto | apply (Hit01 [aux] K L); eauto | lia..]. }
  apply Z.ltb_ge in Ed2.
  destruct (scan_spec S (fun auxs c => conjugate_auxiliaries D auxs c t) depth2_cands h1)
    as [h2 [E2 [Inc2 Hit2]]].
  { intros a c _. eapply ok_or_ve_weaken; [|apply conjugate_auxiliaries_ok, HD]. reflexivity. }
  rewrite E2. cbn [bind].
  assert (Hit012 : forall CH K L,
     ((CH = [] /\ conjugate D K t = Ok L)
      \/ (exists aux, CH = [aux] /\ _conjugate_auxiliary D aux K t = Ok L)
      \/ (In (CH, K) depth2_cands /\ conjugate_auxiliaries D CH K t = Ok L)) ->
     str_in S L = true -> exists h, In h h2 /\ auxiliaries h = CH /\ conjugation h = K).
  { intros CH K L [H|[H|[Hin EL]]] HS.
    - destruct (Hit01 CH K L (or_introl H) HS) as [h [Hh Hp]].
      exists h. split; [apply Inc2, Hh|exact Hp].
    - destruct (Hit01 CH K L (or_intror H) HS) as [h [Hh Hp]].
      exists h. split; [apply Inc2, Hh|exact Hp].
    - apply (Hit2 CH K L Hin EL HS). }
  clear Hit01 Hit2.
  destruct (d <? 3)%Z eqn:Ed3.
  { apply Z.ltb_lt in Ed3. exists h2. split; [reflexivity|].
    intros CH K L [H|[[aux [-> [_ EL]]]|[[Hin [_ EL]]|[_ [Hd _]]]]] HS;
      [apply (Hit012 CH K L); auto | apply (Hit012 [aux] K L); eauto
      | apply (Hit012 CH K L); auto | lia]. }
  apply Z.ltb_ge in Ed3.
  destruct (scan_spec S (fun auxs c => conjugate_auxiliaries D auxs c t) depth3_cands h2)
    as [h3 [E3 [Inc3 Hit3]]].
  { intros a c _. eapply ok_or_ve_weaken; [|apply conjugate_auxiliaries_ok, HD]. reflexivity. }
  exists h3. split; [exact E3|].
  intros CH K L [H|[[aux [-> [_ EL]]]|[[Hin [_ EL]]|[Hin [_ EL]]]]] HS.
  - destruct (Hit012 CH K L (or_introl H) HS) as [h [Hh Hp]].
    exists h. split; [apply Inc3, Hh|exact Hp].
  - destruct (Hit012 [aux] K L (or_intror (or_introl (ex_intro _ aux (conj eq_refl EL)))) HS)
      as [h [Hh Hp]].
    exists h. split; [apply Inc3, Hh|exact Hp].
  - destruct (Hit012 CH K L (or_intror (or_intror (conj Hin EL))) HS) as [h [Hh Hp]].
    exists h. split; [apply Inc3, Hh|exact Hp].
  - apply (Hit3 CH K L Hin EL HS).
Qed.

(** C10: for a non-empty dictionary form, [deconjugate_verb] returns a
    list of hits (possibly empty) and raises nothing, for every surface,
    class flag and search depth. *)
Theorem deconjugate_verb_total :
  forall S D type2 max_aux_depth, D <> [] ->
    exists hits, deconjugate_verb S D type2 max_aux_depth = Ok hits.
Proof.
  intros S D type2 d HD.
  destruct (deconjugate_verb_spec S D type2 d HD) as [hits [E _]].
  exists hits. exact E.
Qed.

Lemma deconjugate_verb_total_witness :
  u "食べる" <> []
  /\ exists hits, deconjugate_verb (u "食べられなかった") (u "食べる") true 2 = Ok hits.
Proof.
  split; [discriminate|].
  apply (deconjugate_verb_total (u "食べられなかった") (u "食べる") true 2). discriminate.
Defined.

(* ------------------------------------------------------------------ *)
(** ** Round trip over the search space of [deconjugate_verb] *)

Lemma str_in_intro : forall x xs, In x xs -> str_in x xs = true.
Proof.
  intros x xs H. unfold str_in. apply existsb_exists.
  exists x. split; [exact H | apply str_eqb_refl].
Qed.

Lemma in_with_conjs_inv : forall ch c chains, In (ch, c) (with_conjs chains) -> In ch chains.
Proof.
  intros ch c chains H. unfold with_conjs in H. apply in_flat_map in H as [ch' [Hch Hin]].
  apply in_map_iff in Hin as [c' [E _]]. inversion E. subst. exact Hch.
Qed.

Lemma depth2_cands_length : forall ch c, In (ch, c) depth2_cands -> length ch = 2.
Proof.
  intros ch c H. apply in_with_conjs_inv in H.
  apply in_flat_map in H as [p [_ Hp]]. apply in_map_iff in Hp as [f [<- _]].
  reflexivity.
Qed.

Lemma depth3_cands_length : forall ch c, In (ch, c) depth3_cands -> length ch = 3.
Proof.
  intros ch c H. apply in_with_conjs_inv in H.
  apply in_flat_map in H as [a [_ Ha]]. apply in_flat_map in Ha as [p [_ Hp]].
  apply in_map_iff in Hp as [f [<- _]]. reflexivity.
Qed.

Lemma conjugate_auxiliaries_single : forall V aux K t,
  str_in V [u "だ"; u "です"] = false ->
  conjugate_auxiliaries V [aux] K t
  = (ys <- _conjugate_auxiliary V aux K t ;; Ok (ys ++ [])).
Proof.
  intros V aux K t H. unfold conjugate_auxiliaries. rewrite H. cbn [aux_loop negb andb].
  cbn [concat_map_r]. destruct (_conjugate_auxiliary V aux K t); reflexivity.
Qed.

(** C1 (amended): for a non-empty verb and a chain that the search of
    [deconjugate_verb] enumerates within [max_aux_depth] (the empty chain,
    a single auxiliary on a verb other than だ and です, a pair from the
    penultimate and final lists, or a triple ending in Masu), the surfaces
    of [conjugate_auxiliaries] form a non-empty list, and each of them is
    traced back by [deconjugate_verb] to that chain and conjugation. *)
Theorem round_trip_search_space :
  forall V CH K type2 max_aux_depth L,
    V <> [] ->
    (CH = []
     \/ (exists aux, CH = [aux] /\ str_in V [u "だ"; u "です"] = false)
     \/ In (CH, K) depth2_cands
     \/ In (CH, K) depth3_cands) ->
    (Z.of_nat (length CH) <= max_aux_depth)%Z ->
    conjugate_auxiliaries V CH K type2 = Ok L ->
    L <> [] /\
    forall S, In S L ->
      exists hits, deconjugate_verb S V type2 max_aux_depth = Ok hits
        /\ exists h, In h hits /\ auxiliaries h = CH /\ conjugation h = K.
Proof.
  intros V CH K t d L HV Hsp Hd EL.
  split.
  { pose proof (conjugate_auxiliaries_ok V CH K t HV) as H. rewrite EL in H.
    apply nonnull_neq, H. }
  intros S HS. apply str_in_intro in HS.
  destruct (deconjugate_verb_spec S V t d HV) as [hits [E Hhit]].
  exists hits. split; [exact E|]. apply (Hhit CH K L); [|exact HS].
  destruct Hsp as [->|[[aux [-> Hc]]|[Hin|Hin]]].
  - left. split; [reflexivity | exact EL].
  - right. left. exists aux. split; [reflexivity|]. split; [simpl in Hd; lia|].
    rewrite conjugate_auxiliaries_single in EL by exact Hc.
    destruct (_conjugate_auxiliary V aux K t) as [ys|e]; [|discriminate].
    cbn [bind] in EL. rewrite app_nil_r in EL. exact EL.
  - right. right. left. split; [exact Hin|]. split; [|exact EL].
    rewrite (depth2_cands_length CH K Hin) in Hd. simpl in Hd. lia.
  - right. right. right. split; [exact Hin|]. split; [|exact EL].
    rewrite (depth3_cands_length CH K Hin) in Hd. simpl in Hd. lia.
Qed.

Lemma round_trip_search_space_witness :
  let L := [u "食べられなかった"] in
  (u "食べる" <> []
   /\ ([RERU_RARERU; NAI] = []
       \/ (exists aux, [RERU_RARERU; NAI] = [aux] /\ str_in (u "食べる") [u "だ"; u "です"] = false)
       \/ In ([RERU_RARERU; NAI], TA) depth2_cands
       \/ In ([RERU_RARERU; NAI], TA) depth3_cands)
   /\ (Z.of_nat (length [RERU_RARERU; NAI]) <= 2)%Z
   /\ conjugate_auxiliaries (u "食べる") [RERU_RARERU; NAI] TA true = Ok L)
  /\ (L <> [] /\
      forall S, In S L ->
        exists hits, deconjugate_verb S (u "食べる") true 2 = Ok hits
          /\ exists h, In h hits /\ auxiliaries h = [RERU_RARERU; NAI] /\ conjugation h = TA).
Proof.
  intros L.
  assert (Hsp : In ([RERU_RARERU; NAI], TA) depth2_cands).
  { apply in_with_conjs, in_flat_map. exists RERU_RARERU. split; [simpl; tauto|].
    apply in_map_iff. exists NAI. split; [reflexivity | simpl; tauto]. }
  assert (EL : conjugate_auxiliaries (u "食べる") [RERU_RARERU; NAI] TA true = Ok L)
    by (vm_compute; reflexivity).
  split.
  - split; [discriminate|]. split; [right; right; left; exact Hsp|].
    split; [simpl; lia | exact EL].
  - apply (round_trip_search_space (u "食べる") [RERU_RARERU; NAI] TA true 2 L);
      [discriminate | right; right; left; exact Hsp | simpl; lia | exact EL].
Defined.

(* ------------------------------------------------------------------ *)
(** ** Non-empty surfaces *)

(** C4 (amended): for a non-empty verb, every surface returned by
    [conjugate_auxiliaries] is non-empty, except with the empty chain on
    the verbs ある and る, whose bare stems may be empty. *)
Theorem surfaces_nonempty :
  forall V CH K type2 L,
    V <> [] ->
    (CH <> [] \/ str_in V [u "ある"; u "る"] = false) ->
    conjugate_auxiliaries V CH K type2 = Ok L ->
    forall S, In S L -> S <> [].
Proof.
  intros V CH K t L HV Hex EL S HS.
  destruct CH as [|a rest].
  - destruct Hex as [Hex|Hex]; [congruence|].
    pose proof (conjugate_ok V K t HV) as H. cbn [conjugate_auxiliaries] in EL.
    rewrite EL, Hex in H. apply andb_true_iff in H as [_ H].
    apply (all_nonnull_In L S H HS).
  - pose proof (conjugate_auxiliaries_chain_ok V (a :: rest) K t HV ltac:(discriminate)) as H.
    rewrite EL in H. apply andb_true_iff in H as [_ H].
    apply (all_nonnull_In L S H HS).
Qed.

Lemma surfaces_nonempty_witness :
  (u "ある" <> []
   /\ ([NAI] <> [] \/ str_in (u "ある") [u "ある"; u "る"] = false)
   /\ conjugate_auxiliaries (u "ある") [NAI] DICTIONARY false = Ok [u "ない"])
  /\ forall S, In S [u "ない"] -> S <> [].
Proof.
  assert (EL : conjugate_auxiliaries (u "ある") [NAI] DICTIONARY false = Ok [u "ない"])
    by (vm_compute; reflexivity).
  split.
  - split; [discriminate|]. split; [left; discriminate | exact EL].
  - apply (surfaces_nonempty (u "ある") [NAI] DICTIONARY false [u "ない"]);
      [discriminate | left; discriminate | exact EL].
Defined.

(* ------------------------------------------------------------------ *)
(** ** Conjugating a verb [x ++ s] from its ending [s] *)

Lemma ends_with_spec : forall w t, ends_with w t = true <-> exists y, w = y ++ t.
Proof.
  intros w t. unfold ends_with. split.
  - intros H. apply andb_true_iff in H as [_ H2]. apply str_eqb_true in H2.
    exists (firstn (length w - length t) w).
    rewrite <- H2 at 2. symmetry. apply firstn_skipn.
  - intros [y ->]. rewrite length_app.
    replace (length y + length t - length t) with (length y) by lia.
    apply andb_true_iff; split; [apply Nat.leb_le; lia|].
    rewrite skipn_app, skipn_all, Nat.sub_diag. apply str_eqb_refl.
Qed.

Lemma app_suffix_neq : forall (x s t : str), ends_with t s = false -> x ++ s <> t.
Proof.
  intros x s t H E. rewrite <- E in H.
  assert (ends_with (x ++ s) s = true) by (apply ends_with_spec; exists x; reflexivity).
  congruence.
Qed.

Lemma ends_with_app_gen : forall (x s t : str),
  (length t <= length s \/ ends_with t s = false) ->
  ends_with (x ++ s) t = ends_with s t.
Proof.
  intros x s t Hc.
  destruct (Nat.le_gt_cases (length t) (length s)) as [Hl|Hl];
    [apply ends_with_app, Hl|].
  destruct Hc as [Hc|Hts]; [lia|].
  assert (Est : ends_with s t = false).
  { unfold ends_with. replace (Nat.leb (length t) (length s)) with false; [reflexivity|].
    symmetry. apply Nat.leb_gt. lia. }
  rewrite Est. destruct (ends_with (x ++ s) t) eqn:E; [|reflexivity].
  apply ends_with_spec in E as [y Ey].
  apply app_eq_app in Ey as [l [[_ Et]|[_ Es]]].
  - assert (ends_with t s = true) by (apply ends_with_spec; exists l; exact Et).
    congruence.
  - subst s. rewrite length_app in Hl. lia.
Qed.

Lemma suffix_ok_spec : forall s, suffix_ok s = true ->
  s <> [] /\ (forall t, In t special_verbs -> ends_with t s = false)
  /\ (length (u "くださる") <= length s \/ ends_with (u "くださる") s = false).
Proof.
  intros s H. unfold suffix_ok in H.
  apply andb_true_iff in H as [H Hk]. apply andb_true_iff in H as [Hn Hsv].
  split; [|split].
  - destruct s; [discriminate|discriminate].
  - intros t Ht. rewrite forallb_forall in Hsv. specialize (Hsv t Ht).
    destruct (ends_with t s); [discriminate|reflexivity].
  - apply orb_true_iff in Hk as [Hk|Hk]; [left; apply Nat.leb_le, Hk|right].
    destruct (ends_with (u "くださる") s); [discriminate|reflexivity].
Qed.

Lemma sv_eqb : forall s x t, suffix_ok s = true -> In t special_verbs ->
  str_eqb (x ++ s) t = false.
Proof.
  intros s x t Hs Ht. apply str_eqb_false, app_suffix_neq.
  destruct (suffix_ok_spec s Hs) as [_ [H _]]. apply H, Ht.
Qed.

Lemma sv_eqb0 : forall s t, suffix_ok s = true -> In t special_verbs ->
  str_eqb s t = false.
Proof. intros s t Hs Ht. apply (sv_eqb s [] t Hs Ht). Qed.

Lemma length_ge1 : forall (s : str), s <> [] -> 1 <= length s.
Proof. intros [|c s] H; [congruence|simpl; lia]. Qed.

(** Rewrites the special-verb tests on [x ++ s] and on [s] to [false]. *)
Ltac sv Hs :=
  unfold str_in; cbn [existsb];
  repeat first
    [ rewrite (sv_eqb _ _ _ Hs) by (cbn [In special_verbs]; tauto)
    | rewrite (sv_eqb0 _ _ Hs) by (cbn [In special_verbs]; tauto) ];
  cbn [orb].

Ltac hom_cases :=
  repeat (cbn [rmap map bind andb orb _CONJ_TO_INDEX te_ta_idx Nat.eqb]; match goal with
  | |- context [str_eqb ?a ?b] => destruct (str_eqb a b)
  | |- context [_lookup_hiragana ?a ?b] => destruct (_lookup_hiragana a b)
  | |- context [assoc ?a ?b] => destruct (assoc a b)
  | |- context [nth_error ?a ?b] => destruct (nth_error a b)
  end);
  cbn [rmap map bind andb orb _CONJ_TO_INDEX te_ta_idx Nat.eqb];
  rewrite ?app_assoc; reflexivity.

Lemma type2_app : forall x s c, suffix_ok s = true ->
  _conjugate_type2 (x ++ s) c = rmap (map (app x)) (_conjugate_type2 s c).
Proof.
  intros x s c Hs. destruct (suffix_ok_spec s Hs) as [Hne _].
  unfold _conjugate_type2. sv Hs.
  rewrite (drop_last_app 1 x s (length_ge1 s Hne)).
  destruct c; cbn [rmap map]; rewrite ?app_assoc; reflexivity.
Qed.

Lemma type1_app : forall x s c, suffix_ok s = true ->
  _conjugate_type1 (x ++ s) c = rmap (map (app x)) (_conjugate_type1 s c).
Proof.
  intros x s c Hs. destruct (suffix_ok_spec s Hs) as [Hne [_ Hk]].
  unfold _conjugate_type1, _SPECIAL_CASES. sv Hs.
  rewrite (ends_with_app_gen x s (u "くださる") Hk).
  destruct (ends_with s (u "くださる")) eqn:Ek.
  - assert (H2 : 2 <= length s).
    { unfold ends_with in Ek. apply andb_true_iff in Ek as [Ek _].
      apply Nat.leb_le in Ek. change (length (u "くださる")) with 4 in Ek. lia. }
    rewrite (drop_last_app 2 x s H2).
    destruct c; cbn [rmap map]; rewrite ?app_assoc; reflexivity.
  - rewrite (last_char_app x s Hne), (drop_last_app 1 x s (length_ge1 s Hne)).
    destruct (last_char s) as [t|e]; cbn [bind rmap]; [|destruct c; reflexivity].
    destruct c; hom_cases.
Qed.

Lemma strict_app : forall x s c t, suffix_ok s = true ->
  _conjugate_strict (x ++ s) c t = rmap (map (app x)) (_conjugate_strict s c t).
Proof.
  intros x s c t Hs. destruct (suffix_ok_spec s Hs) as [Hne _].
  unfold _conjugate_strict. rewrite (last_char_app x s Hne).
  destruct (last_char s) as [a|e]; cbn [bind rmap]; [|reflexivity].
  destruct (str_eqb a (u "る") && t); [apply type2_app|apply type1_app]; exact Hs.
Qed.

Lemma conjugate_add_app : forall x r (suffix : str),
  (r0 <- index0 (map (app x) r) ;; Ok (map (app x) r ++ [r0 ++ suffix]))
  = rmap (map (app x)) (r0 <- index0 r ;; Ok (r ++ [r0 ++ suffix])).
Proof.
  intros x [|r0 rest] suffix; [reflexivity|].
  cbn [index0 bind rmap map]. rewrite map_app. cbn [map]. rewrite app_assoc.
  reflexivity.
Qed.

Lemma conjugate_app : forall x s c t, suffix_ok s = true ->
  conjugate (x ++ s) c t = rmap (map (app x)) (conjugate s c t).
Proof.
  intros x s c t Hs. unfold conjugate. rewrite strict_app by exact Hs.
  destruct (_conjugate_strict s c t) as [r|e]; cbn [bind rmap];
    [|destruct c; reflexivity].
  sv Hs. destruct c; cbn [rmap]; try reflexivity; apply conjugate_add_app.
Qed.

Lemma conj0_app : forall x s c t, suffix_ok s = true ->
  conj0 (x ++ s) c t = rmap (app x) (conj0 s c t).
Proof.
  intros x s c t Hs. unfold conj0. rewrite conjugate_app by exact Hs.
  destruct (conjugate s c t) as [[|r rs]|e]; reflexivity.
Qed.

(** The same for an ichidan verb [x ++ る] that is not irregular. *)
Section Ichidan.

Variable x : str.
Hypothesis HV : ~ In (x ++ u "る") [u "する"; u "くる"; u "来る"].

Ltac lit_neq := let H := fresh in intro H; vm_compute in H; discriminate H.

Lemma ichidan_tests :
  str_eqb (x ++ u "る") (u "する") = false /\ str_eqb (x ++ u "る") (u "くる") = false
  /\ str_eqb (x ++ u "る") (u "来る") = false /\ str_eqb (x ++ u "る") (u "だ") = false
  /\ str_eqb (x ++ u "る") (u "です") = false.
Proof.
  repeat split; apply str_eqb_false.
  - intro E; apply HV; left; symmetry; exact E.
  - intro E; apply HV; right; left; symmetry; exact E.
  - intro E; apply HV; right; right; left; symmetry; exact E.
  - apply lastc_neq; [discriminate|lit_neq].
  - apply lastc_neq; [discriminate|lit_neq].
Qed.

Lemma type2_V : forall c,
  _conjugate_type2 (x ++ u "る") c = rmap (map (app x)) (_conjugate_type2 (u "る") c).
Proof.
  intro c. destruct ichidan_tests as [E1 [E2 [E3 [E4 E5]]]].
  unfold _conjugate_type2 at 1. unfold str_in. cbn [existsb].
  rewrite E1, E2, E3, E4, E5. cbn [orb].
  rewrite (drop_last_app 1 x (u "る")) by (vm_compute; lia).
  destruct c; vm_compute (_conjugate_type2 (u "る") _); vm_compute (drop_last 1 (u "る"));
    cbn [rmap map]; rewrite ?app_nil_r; reflexivity.
Qed.

Lemma conjugate_V : forall c,
  conjugate (x ++ u "る") c true = rmap (map (app x)) (conjugate (u "る") c true).
Proof.
  intro c. destruct ichidan_tests as [_ [_ [_ [E4 E5]]]].
  unfold conjugate at 1, _conjugate_strict.
  rewrite (last_char_app x (u "る")) by discriminate.
  change (last_char (u "る")) with (Ok [12427%N]). cbn [bind andb].
  replace (str_eqb [12427%N] (u "る")) with true by reflexivity.
  rewrite type2_V.
  destruct (_conjugate_type2 (u "る") c) as [r|e] eqn:Er; cbn [bind rmap];
    [|destruct c; vm_compute in Er; discriminate Er].
  unfold str_in. cbn [existsb]. rewrite E4, E5. cbn [orb].
  unfold conjugate, _conjugate_strict. change (last_char (u "る")) with (Ok [12427%N]).
  cbn [bind andb]. replace (str_eqb [12427%N] (u "る")) with true by reflexivity.
  rewrite Er. cbn [bind].
  replace (str_in (u "る") [u "だ"; u "です"]) with false by reflexivity.
  destruct c; cbn [rmap]; try reflexivity; apply conjugate_add_app.
Qed.

Lemma conj0_V : forall c,
  conj0 (x ++ u "る") c true = rmap (app x) (conj0 (u "る") c true).
Proof.
  intro c. unfold conj0. rewrite conjugate_V.
  destruct (conjugate (u "る") c true) as [[|r rs]|e]; reflexivity.
Qed.

End Ichidan.

(** A subterm that does not mention [x] is computed. *)
Ltac closed_in x t := lazymatch t with context [x] => fail | _ => idtac end.

Ltac comp x M := closed_in x M;
  progress (let v := eval vm_compute in M in change M with v).

Ltac comp_closed x :=
  match goal with
  | |- context [rmap ?F ?M] => comp x M
  | |- context [conjugate ?s ?c ?t] => comp x (conjugate s c t)
  | |- context [conj0 ?s ?c ?t] => comp x (conj0 s c t)
  | |- context [last_char ?s] => comp x (last_char s)
  | |- context [ends_with ?s ?t] => comp x (ends_with s t)
  | |- context [drop_last ?n ?s] => comp x (drop_last n s)
  | |- context [str_eqb ?a ?b] => comp x (str_eqb a b)
  | |- context [aux_in ?a ?l] => comp x (aux_in a l)
  end.

Section Ichidan_aux.

Variable x : str.
Hypothesis HV : ~ In (x ++ u "る") [u "する"; u "くる"; u "来る"].

Ltac hom_step :=
  first
  [ progress cbn [bind rmap map index0 concat_map_r map_r app te_endings orb andb negb]
  | rewrite <- app_assoc
  | rewrite (conjugate_V x HV)
  | rewrite (conj0_V x HV)
  | rewrite (type2_V x HV)
  | rewrite (conjugate_app x) by (vm_compute; reflexivity)
  | rewrite (conj0_app x) by (vm_compute; reflexivity)
  | rewrite (last_char_app x) by discriminate
  | rewrite (drop_last_app _ x) by (vm_compute; lia)
  | rewrite (ends_with_app x) by (vm_compute; lia)
  | comp_closed x ].

(** A single auxiliary with terminal Dictionary on [x ++ る]. *)
Lemma aux_V_dict : forall aux,
  _conjugate_auxiliary (x ++ u "る") aux DICTIONARY true =
  rmap (map (app x)) (_conjugate_auxiliary (u "る") aux DICTIONARY true).
Proof.
  intro aux. destruct (ichidan_tests x HV) as [E1 [E2 [E3 _]]].
  destruct aux; unfold _conjugate_auxiliary at 1;
  unfold potential_aux, masu_aux, nai_aux, tai_aux, tagaru_aux, hoshii_aux,
    rashii_aux, souda_hearsay_aux, souda_conjecture_aux, causative_aux,
    reru_rareru_aux, te_aux, shimau_aux;
  unfold str_in; cbn [existsb]; rewrite ?E1, ?E2, ?E3;
  repeat hom_step; reflexivity.
Qed.

End Ichidan_aux.

Lemma chain1_V : forall x aux, ~ In (x ++ u "る") [u "する"; u "くる"; u "来る"] ->
  conjugate_auxiliaries (x ++ u "る") [aux] DICTIONARY true
  = rmap (map (app x)) (conjugate_auxiliaries (u "る") [aux] DICTIONARY true).
Proof.
  intros x aux HV. destruct (ichidan_tests x HV) as [_ [_ [_ [E4 E5]]]].
  unfold conjugate_auxiliaries. unfold str_in at 1. cbn [existsb].
  rewrite E4, E5. cbn [orb].
  replace (str_in (u "る") [u "だ"; u "です"]) with false by reflexivity.
  cbn [aux_loop negb andb concat_map_r]. rewrite (aux_V_dict x HV aux).
  destruct (_conjugate_auxiliary (u "る") aux DICTIONARY true) as [r|e];
    cbn [bind rmap aux_loop]; [rewrite !app_nil_r|]; reflexivity.
Qed.

(** C9: for an ichidan verb [V = stem ++ る] other than the irregular する,
    くる and 来る, the Potential auxiliary with terminal Dictionary yields
    exactly [stem ++ れる] (the ra-nuki form), the ReruRareru auxiliary
    yields exactly [stem ++ られる], and no other chain of at most one
    auxiliary yields [stem ++ られる]. *)
Theorem ichidan_potential_ra_nuki : forall stem,
  ~ In (stem ++ u "る") [u "する"; u "くる"; u "来る"] ->
  conjugate_auxiliaries (stem ++ u "る") [POTENTIAL] DICTIONARY true = Ok [stem ++ u "れる"]
  /\ conjugate_auxiliaries (stem ++ u "る") [RERU_RARERU] DICTIONARY true
     = Ok [stem ++ u "られる"]
  /\ forall CH L, length CH <= 1 -> CH <> [RERU_RARERU] ->
       conjugate_auxiliaries (stem ++ u "る") CH DICTIONARY true = Ok L ->
       ~ In (stem ++ u "られる") L.
Proof.
  intros stem HV. split; [|split].
  - rewrite (chain1_V stem POTENTIAL HV).
    vm_compute (conjugate_auxiliaries (u "る") [POTENTIAL] DICTIONARY true).
    reflexivity.
  - rewrite (chain1_V stem RERU_RARERU HV).
    vm_compute (conjugate_auxiliaries (u "る") [RERU_RARERU] DICTIONARY true).
    reflexivity.
  - intros CH L Hl Hne E Hin.
    destruct CH as [|aux [|a2 rest]]; [| |simpl in Hl; lia].
    + cbn [conjugate_auxiliaries] in E. rewrite (conjugate_V stem HV) in E.
      vm_compute (conjugate (u "る") DICTIONARY true) in E.
      cbn [rmap map] in E. injection E as E. subst L.
      destruct Hin as [Hin|[]]. apply app_inv_head in Hin.
      vm_compute in Hin. discriminate Hin.
    + rewrite (chain1_V stem aux HV) in E.
      destruct (conjugate_auxiliaries (u "る") [aux] DICTIONARY true) as [T|e] eqn:ET;
        cbn [rmap] in E; [|discriminate E].
      injection E as E. subst L.
      apply in_map_iff in Hin as [y [Ey Hy]]. apply app_inv_head in Ey. subst y.
      apply str_in_intro in Hy.
      destruct aux; try (exfalso; apply Hne; reflexivity); vm_compute in ET;
        first [discriminate ET | injection ET as ET; subst T; vm_compute in Hy; discriminate Hy].
Qed.

Lemma ichidan_potential_ra_nuki_witness :
  ~ In (u "食べ" ++ u "る") [u "する"; u "くる"; u "来る"]
  /\ conjugate_auxiliaries (u "食べ" ++ u "る") [POTENTIAL] DICTIONARY true
     = Ok [u "食べ" ++ u "れる"].
Proof.
  assert (H : ~ In (u "食べ" ++ u "る") [u "する"; u "くる"; u "来る"])
    by (apply str_in_false; vm_compute; reflexivity).
  split; [exact H|].
  exact (proj1 (ichidan_potential_ra_nuki (u "食べ") H)).
Defined.

(* ------------------------------------------------------------------ *)
(** ** The compound-phrase matcher *)

Lemma starts_with_spec : forall s p, starts_with s p = true <-> exists t, s = p ++ t.
Proof.
  intros s p. unfold starts_with. split.
  - intros H. apply andb_true_iff in H as [_ H2]. apply str_eqb_true in H2.
    exists (skipn (length p) s). rewrite <- H2 at 1. symmetry. apply firstn_skipn.
  - intros [t ->]. rewrite length_app.
    apply andb_true_iff; split; [apply Nat.leb_le; lia|].
    rewrite firstn_app, firstn_all, Nat.sub_diag, app_nil_r. apply str_eqb_refl.
Qed.

Lemma common_prefix : forall (a a' b b' : str),
  a ++ a' = b ++ b' -> length a <= length b -> exists c, b = a ++ c.
Proof.
  intros a a' b b' E Hl. apply app_eq_app in E as [l [[Ea _]|[Eb _]]].
  - subst a. rewrite length_app in Hl. destruct l; [|simpl in Hl; lia].
    exists []. rewrite !app_nil_r. reflexivity.
  - exists l. exact Eb.
Qed.

Lemma count_consumed_below : forall ms plen c k',
  k' < count_consumed ms plen c ->
  c + length (concat_surfaces (firstn k' ms)) < plen.
Proof.
  induction ms as [|m ms IH]; intros plen c k' Hk; cbn [count_consumed] in Hk; [lia|].
  destruct (Nat.leb plen c) eqn:Hp; [lia|]. apply Nat.leb_gt in Hp.
  destruct k' as [|k']; [cbn; lia|].
  specialize (IH plen (c + length (surface m)) k' ltac:(lia)).
  unfold concat_surfaces in *. cbn [firstn map concat]. rewrite length_app. lia.
Qed.

Lemma count_consumed_covers : forall ms plen c,
  plen <= c + length (concat_surfaces ms) ->
  plen <= c + length (concat_surfaces (firstn (count_consumed ms plen c) ms)).
Proof.
  induction ms as [|m ms IH]; intros plen c H; cbn [count_consumed]; [exact H|].
  destruct (Nat.leb plen c) eqn:Hp; [apply Nat.leb_le in Hp; lia|].
  unfold concat_surfaces in *. cbn [firstn map concat] in *. rewrite length_app in *.
  specialize (IH plen (c + length (surface m)) ltac:(lia)). lia.
Qed.

Lemma concat_surfaces_firstn : forall n ms,
  exists t, concat_surfaces ms = concat_surfaces (firstn n ms) ++ t.
Proof.
  intros n ms. exists (concat_surfaces (skipn n ms)). unfold concat_surfaces.
  rewrite <- concat_app, <- map_app, firstn_skipn. reflexivity.
Qed.

Lemma first_match_spec : forall r ms cands p mn k,
  first_match r ms cands = Some (p, mn, k) ->
  In (p, mn) cands /\ starts_with r p = true /\ k = count_consumed ms (length p) 0.
Proof.
  induction cands as [|[p0 m0] cs IH]; intros p mn k H; cbn [first_match] in H;
    [discriminate|].
  destruct (starts_with r p0) eqn:Hs.
  - injection H as <- <- <-. split; [left; reflexivity|]. split; [exact Hs|reflexivity].
  - destruct (IH p mn k H) as [Hin Hr]. split; [right; exact Hin|exact Hr].
Qed.

(** The phrase found by the matcher over a catalogue [cp] is a prefix of
    the surfaces of the morphemes it consumes, and fewer morphemes do not
    cover it. *)
Lemma try_match_in_consumed : forall cp ms i p mn k,
  try_match_in cp ms i = Some (p, mn, k) ->
  (exists t, concat_surfaces (firstn k (skipn i ms)) = p ++ t)
  /\ forall k', k' < k -> length (concat_surfaces (firstn k' (skipn i ms))) < length p.
Proof.
  intros cp ms i p mn k H. unfold try_match_in in H.
  destruct (Nat.leb (length ms) i); [discriminate|].
  set (rest := skipn i ms) in *.
  destruct (candidates cp _) as [|c cs]; [discriminate|].
  apply first_match_spec in H as [_ [Hs ->]].
  apply starts_with_spec in Hs as [t1 Ht1].
  destruct (concat_surfaces_firstn 10 rest) as [t2 Ht2].
  rewrite Ht1, <- app_assoc in Ht2.
  split.
  - assert (Hcov : length p <= length (concat_surfaces (firstn (count_consumed rest (length p) 0) rest))).
    { apply (count_consumed_covers rest (length p) 0). rewrite Ht2, length_app. lia. }
    destruct (concat_surfaces_firstn (count_consumed rest (length p) 0) rest) as [t3 Ht3].
    rewrite Ht2 in Ht3.
    destruct (common_prefix p (t1 ++ t2) _ t3 Ht3 Hcov) as [c' Hc].
    exists c'. exact Hc.
  - intros k' Hk. apply (count_consumed_below rest (length p) 0 k' Hk).
Qed.

(** C3 (amended): when [try_match_compound_phrase ms i] returns
    [(p, meaning, k)], the phrase [p] is a prefix of the concatenated
    surfaces of the [k] morphemes from [i] (the last one may run past the
    end of [p]), and [k] is the smallest count whose surfaces cover the
    length of [p]. *)
Theorem phrase_consumption_minimal : forall ms i p mn k,
  try_match_compound_phrase ms i = Some (p, mn, k) ->
  (exists t, concat_surfaces (firstn k (skipn i ms)) = p ++ t)
  /\ forall k', k' < k -> length (concat_surfaces (firstn k' (skipn i ms))) < length p.
Proof. intros ms i p mn k H. exact (try_match_in_consumed COMPOUND_PHRASES ms i p mn k H). Qed.

Lemma phrase_consumption_minimal_witness :
  let ms := [morpheme_of_surface (u "わけがないよ")] in
  try_match_compound_phrase ms 0 = Some (u "わけがない", u "no way that; impossible", 1)
  /\ (exists t, concat_surfaces (firstn 1 (skipn 0 ms)) = u "わけがない" ++ t)
  /\ (forall k', k' < 1 ->
        length (concat_surfaces (firstn k' (skipn 0 ms))) < length (u "わけがない")).
Proof.
  intros ms.
  assert (E : try_match_compound_phrase ms 0
              = Some (u "わけがない", u "no way that; impossible", 1))
    by (vm_compute; reflexivity).
  split; [exact E|]. exact (phrase_consumption_minimal ms 0 _ _ _ E).
Defined.

Lemma in_insert_by_len : forall {V} (x y : str * V) l,
  In y (insert_by_len x l) <-> x = y \/ In y l.
Proof.
  intros V x y l. induction l as [|z zs IH]; cbn [insert_by_len].
  - cbn. tauto.
  - destruct (Nat.ltb _ _); cbn [In]; [tauto|]. rewrite IH. tauto.
Qed.

Lemma insert_by_len_sorted : forall {V} (x : str * V) l,
  StronglySorted len_ge l -> StronglySorted len_ge (insert_by_len x l).
Proof.
  intros V x l. induction l as [|z zs IH]; intros Hs; cbn [insert_by_len].
  - constructor; [constructor|constructor].
  - apply StronglySorted_inv in Hs as [Hzs Hz].
    destruct (Nat.ltb (length (fst z)) (length (fst x))) eqn:Hl.
    + apply Nat.ltb_lt in Hl. constructor; [constructor; assumption|].
      constructor; [unfold len_ge; lia|].
      rewrite Forall_forall in *. intros w Hw. specialize (Hz w Hw). unfold len_ge in *. lia.
    + apply Nat.ltb_ge in Hl. constructor; [apply IH, Hzs|].
      rewrite Forall_forall in *. intros w Hw. apply in_insert_by_len in Hw as [<-|Hw];
        [unfold len_ge; lia|apply Hz, Hw].
Qed.

Lemma sort_fold_spec : forall {V} (xs acc : list (str * V)),
  StronglySorted len_ge acc ->
  StronglySorted len_ge (fold_left (fun acc x => insert_by_len x acc) xs acc)
  /\ forall y, In y (fold_left (fun acc x => insert_by_len x acc) xs acc) <-> In y xs \/ In y acc.
Proof.
  intros V xs. induction xs as [|x xs IH]; intros acc Hs; cbn [fold_left].
  - split; [exact Hs|]. intros y. cbn. tauto.
  - destruct (IH (insert_by_len x acc) (insert_by_len_sorted x acc Hs)) as [H1 H2].
    split; [exact H1|]. intros y. rewrite H2, in_insert_by_len. cbn. tauto.
Qed.

Lemma sort_by_len_desc_spec : forall {V} (xs : list (str * V)),
  StronglySorted len_ge (sort_by_len_desc xs)
  /\ forall y, In y (sort_by_len_desc xs) <-> In y xs.
Proof.
  intros V xs. destruct (sort_fold_spec xs [] (SSorted_nil _)) as [H1 H2].
  split; [exact H1|]. intros y. unfold sort_by_len_desc. rewrite H2. cbn. tauto.
Qed.

Lemma first_match_longest : forall r ms cands p2 m2,
  StronglySorted len_ge cands -> In (p2, m2) cands -> starts_with r p2 = true ->
  exists p mn k, first_match r ms cands = Some (p, mn, k) /\ length p2 <= length p.
Proof.
  intros r ms cands. induction cands as [|[p0 m0] cs IH]; intros p2 m2 Hs Hin Hr;
    [destruct Hin|].
  apply StronglySorted_inv in Hs as [Hcs H0]. cbn [first_match].
  destruct (starts_with r p0) eqn:E.
  - exists p0, m0, (count_consumed ms (length p0) 0). split; [reflexivity|].
    destruct Hin as [Heq|Hin]; [injection Heq as -> ->; lia|].
    rewrite Forall_forall in H0. apply (H0 _ Hin).
  - destruct Hin as [Heq|Hin]; [injection Heq as -> ->; congruence|].
    apply (IH p2 m2 Hcs Hin Hr).
Qed.

(** Over any catalogue, a candidate that the first ten surfaces begin with
    is matched, or a candidate at least as long. *)
Lemma try_match_in_longest : forall cp ms i p2,
  i < length ms ->
  str_in p2 (map fst (candidates cp (match skipn i ms with m :: _ => surface m | [] => [] end))) = true ->
  starts_with (concat_surfaces (firstn 10 (skipn i ms))) p2 = true ->
  exists p mn k, try_match_in cp ms i = Some (p, mn, k) /\ length p2 <= length p.
Proof.
  intros cp ms i p2 Hi Hc Hr. unfold try_match_in.
  replace (Nat.leb (length ms) i) with false by (symmetry; apply Nat.leb_gt; lia).
  apply str_in_true, in_map_iff in Hc as [[p2' m2] [Ep Hin]]. cbn [fst] in Ep. subst p2'.
  destruct (candidates cp _) as [|c cs] eqn:Ec; [destruct Hin|].
  rewrite <- Ec in *.
  destruct (sort_by_len_desc_spec (candidates cp (match skipn i ms with m :: _ => surface m | [] => [] end)))
    as [Hs Hp].
  apply (first_match_longest _ _ _ p2 m2 Hs); [apply Hp, Hin|exact Hr].
Qed.

(** C5 (amended): if [p2] is a phrase of the bucket searched at position
    [i] and the concatenated surfaces of the (at most ten) morphemes from
    [i] begin with [p2], then [try_match_compound_phrase ms i] returns a
    phrase at least as long as [p2]; so it never returns a strict prefix
    [p1] of [p2].  Text beyond the tenth morpheme is not searched. *)
Theorem longest_phrase_wins : forall ms i p2,
  i < length ms ->
  str_in p2 (map fst (candidates COMPOUND_PHRASES
                        (match skipn i ms with m :: _ => surface m | [] => [] end))) = true ->
  starts_with (concat_surfaces (firstn 10 (skipn i ms))) p2 = true ->
  exists p mn k, try_match_compound_phrase ms i = Some (p, mn, k)
    /\ length p2 <= length p
    /\ forall p1, starts_with p2 p1 = true -> length p1 < length p2 -> p <> p1.
Proof.
  intros ms i p2 Hi Hc Hr.
  destruct (try_match_in_longest COMPOUND_PHRASES ms i p2 Hi Hc Hr) as [p [mn [k [E Hl]]]].
  exists p, mn, k. split; [exact E|]. split; [exact Hl|].
  intros p1 _ Hp1 ->. lia.
Qed.

Lemma longest_phrase_wins_witness :
  let ms := map (fun c => morpheme_of_surface [c]) (u "わけにはいかません") in
  (0 < length ms
   /\ str_in (u "わけにはいかません")
        (map fst (candidates COMPOUND_PHRASES
                    (match skipn 0 ms with m :: _ => surface m | [] => [] end))) = true
   /\ starts_with (concat_surfaces (firstn 10 (skipn 0 ms))) (u "わけにはいかません") = true)
  /\ exists p mn k, try_match_compound_phrase ms 0 = Some (p, mn, k)
    /\ length (u "わけにはいかません") <= length p
    /\ forall p1, starts_with (u "わけにはいかません") p1 = true ->
         length p1 < length (u "わけにはいかません") -> p <> p1.
Proof.
  intros ms.
  assert (H1 : 0 < length ms) by (vm_compute; lia).
  assert (H2 : str_in (u "わけにはいかません")
                 (map fst (candidates COMPOUND_PHRASES
                    (match skipn 0 ms with m :: _ => surface m | [] => [] end))) = true)
    by (vm_compute; reflexivity).
  assert (H3 : starts_with (concat_surfaces (firstn 10 (skipn 0 ms))) (u "わけにはいかません")
               = true) by (vm_compute; reflexivity).
  split; [split; [exact H1|split; [exact H2|exact H3]]|].
  exact (longest_phrase_wins ms 0 (u "わけにはいかません") H1 H2 H3).
Defined.

(* ------------------------------------------------------------------ *)
(** ** Dictionary entry scoring *)

Lemma fold_additive : forall {A} (g : nat -> A -> nat),
  (forall acc k, g acc k = acc + g 0 k) ->
  forall l acc, fold_left g l acc = acc + fold_left g l 0.
Proof.
  intros A g H l. induction l as [|a l IH]; intros acc; cbn [fold_left]; [lia|].
  rewrite IH, (IH (g 0 a)), H. lia.
Qed.

Lemma exact_reading_score : forall nfd word r is_counter K S pre post c t,
  t <> r -> _normalize_kana nfd t = _normalize_kana nfd r -> _normalize_kana nfd r <> [] ->
  entry_score nfd word (Some r) is_counter
    {| entry_kanji := K;
       entry_kana := pre ++ {| kana_text := Some r; kana_common := c |} :: post;
       entry_sense := S |}
  = entry_score nfd word (Some r) is_counter
    {| entry_kanji := K;
       entry_kana := pre ++ {| kana_text := Some t; kana_common := c |} :: post;
       entry_sense := S |} + 2.
Proof.
  intros nfd word r isc K S pre post c t Htr Hn Hnr.
  assert (Hr : r <> []) by (intro E; subst r; apply Hnr; reflexivity).
  assert (Ht : t <> []) by (intro E; subst t; apply Hnr; rewrite <- Hn; reflexivity).
  destruct r as [|r0 rr]; [congruence|]. destruct t as [|t0 tt]; [congruence|].
  unfold entry_score. cbn [entry_kanji entry_kana entry_sense].
  destruct (_normalize_kana nfd (r0 :: rr)) as [|n0 nn] eqn:En; [congruence|].
  rewrite !fold_left_app. cbn [fold_left kana_text kana_common].
  rewrite str_eqb_refl, (str_eqb_false _ _ Htr), Hn, str_eqb_refl.
  match goal with |- context [fold_left ?g post _] =>
    assert (Hadd : forall acc k, g acc k = acc + g 0 k) end.
  { intros acc k. destruct (kana_common k); destruct (kana_text k) as [[|x xs]|];
      repeat match goal with |- context [str_eqb ?a ?b] => destruct (str_eqb a b) end;
      lia. }
  repeat match goal with |- context [fold_left ?g' post ?a] =>
    lazymatch a with 0 => fail | _ => rewrite (fold_additive g' Hadd post a) end end.
  repeat match goal with |- context [if ?b then _ else _] => destruct b end;
  destruct S; lia.
Qed.

(** C7 (amended): take two entries that differ only in one kana form with
    the same common flag: in the first it is exactly the requested reading
    [r], in the second it is a different form [t] equal to [r] only after
    voicing-mark normalization (which is not empty).  Then the first entry
    scores exactly 2 more, and when the candidate list of the headword (its
    list in the kanji index, else in the kana index, else, with
    [include_names], in the name indexes) is these two entries, in either
    order, [_find_best_entry] returns the first.  The theorem holds for
    every implementation [nfd] of the NFD normalization. *)
Theorem exact_reading_preferred : forall nfd word r is_counter K S pre post c t,
  t <> r -> _normalize_kana nfd t = _normalize_kana nfd r -> _normalize_kana nfd r <> [] ->
  let e1 := {| entry_kanji := K;
               entry_kana := pre ++ {| kana_text := Some r; kana_common := c |} :: post;
               entry_sense := S |} in
  let e2 := {| entry_kanji := K;
               entry_kana := pre ++ {| kana_text := Some t; kana_common := c |} :: post;
               entry_sense := S |} in
  entry_score nfd word (Some r) is_counter e1 = entry_score nfd word (Some r) is_counter e2 + 2
  /\ forall (d : JMDict) (include_names : bool) (es : list Entry),
       match get_or (_index_kanji d) (_index_kana d) word with
       | [] => if include_names
               then get_or (_index_names_kanji d) (_index_names_kana d) word else []
       | l => l
       end = es ->
       (es = [e1; e2] \/ es = [e2; e1]) ->
       _find_best_entry nfd d word (Some r) is_counter include_names = Some e1.
Proof.
  intros nfd word r isc K S pre post c t Htr Hn Hnr e1 e2.
  assert (Hsc : entry_score nfd word (Some r) isc e1 = entry_score nfd word (Some r) isc e2 + 2)
    by (apply exact_reading_score; assumption).
  clearbody e1 e2. split; [exact Hsc|].
  intros d inc es Hc Hes. unfold _find_best_entry. cbv zeta. revert Hc.
  destruct (get_or (_index_kanji d) (_index_kana d) word) as [|x l];
    [destruct inc|]; intros Hc; subst es;
    [| destruct Hes as [H | H]; discriminate H |].
  all: destruct Hes as [-> | ->]; cbn [best_of]; rewrite Hsc;
    match goal with |- context [Nat.ltb ?a ?b] => destruct (Nat.ltb a b) eqn:E end;
    first [reflexivity | apply Nat.ltb_lt in E; lia | apply Nat.ltb_ge in E; lia].
Qed.

Lemma exact_reading_preferred_witness :
  let kn t c := {| kana_text := Some t; kana_common := c |} in
  let e1 := {| entry_kanji := []; entry_kana := [] ++ kn (u "は") false :: []; entry_sense := [] |} in
  let e2 := {| entry_kanji := []; entry_kana := [] ++ kn (u "ば") false :: []; entry_sense := [] |} in
  let d := {| _index_kanji := []; _index_kana := [(u "は", [e2; e1])];
              _index_names_kanji := []; _index_names_kana := [] |} in
  (u "ば" <> u "は" /\ _normalize_kana nfd_kana (u "ば") = _normalize_kana nfd_kana (u "は")
   /\ _normalize_kana nfd_kana (u "は") <> []
   /\ match get_or (_index_kanji d) (_index_kana d) (u "は") with
       | [] => if true then get_or (_index_names_kanji d) (_index_names_kana d) (u "は") else []
       | l => l
       end = [e2; e1])
  /\ _find_best_entry nfd_kana d (u "は") (Some (u "は")) false true = Some e1.
Proof.
  intros kn e1 e2 d.
  assert (H1 : u "ば" <> u "は") by (intro H; vm_compute in H; discriminate H).
  assert (H2 : _normalize_kana nfd_kana (u "ば") = _normalize_kana nfd_kana (u "は"))
    by (vm_compute; reflexivity).
  assert (H3 : _normalize_kana nfd_kana (u "は") <> []) by (vm_compute; discriminate).
  assert (H4 : match get_or (_index_kanji d) (_index_kana d) (u "は") with
       | [] => if true then get_or (_index_names_kanji d) (_index_names_kana d) (u "は") else []
       | l => l
       end = [e2; e1]) by (vm_compute; reflexivity).
  split; [split; [exact H1|split; [exact H2|split; [exact H3|exact H4]]]|].
  exact (proj2 (exact_reading_preferred nfd_kana (u "は") (u "は") false [] [] [] [] false (u "ば")
           H1 H2 H3) d true [e2; e1] H4 (or_intror eq_refl)).
Defined.

(* ================================================================== *)
(** * Further properties: past tense, verb class, hints, [conjugate_word] *)

(* ------------------------------------------------------------------ *)
(** ** Substrings and whitespace *)

Lemma contains_spec : forall s p, contains s p = true <-> exists x y, s = x ++ p ++ y.
Proof.
  induction s as [|c s IH]; intros p; split.
  - intros H. cbn [contains] in H. rewrite orb_false_r in H.
    apply starts_with_spec in H as [t E]. exists [], t. simpl. congruence.
  - intros (x & y & E). symmetry in E. apply app_eq_nil in E as [-> E].
    apply app_eq_nil in E as [-> ->]. reflexivity.
  - intros H. cbn [contains] in H. apply orb_true_iff in H as [H|H].
    + apply starts_with_spec in H as [t E]. exists [], t. exact E.
    + apply IH in H as (x & y & ->). exists (c :: x), y. reflexivity.
  - intros ([|c' x] & y & E); cbn [contains]; apply orb_true_iff.
    + left. apply starts_with_spec. exists y. exact E.
    + right. injection E as _ E. apply IH. eauto.
Qed.

Lemma contains_app_r : forall s p q, contains s (p ++ q) = true -> contains s q = true.
Proof.
  intros s p q H. apply contains_spec in H as (x & y & ->).
  apply contains_spec. exists (x ++ p), y. rewrite <- !app_assoc. reflexivity.
Qed.

Lemma contains_single : forall s c, contains s [c] = existsb (N.eqb c) s.
Proof.
  intros s c. apply eq_iff_eq_true. rewrite contains_spec, existsb_exists. split.
  - intros (x & y & ->). exists c. split; [apply in_or_app; simpl; auto|apply N.eqb_refl].
  - intros (d & Hd & E). apply N.eqb_eq in E. subst d.
    apply in_split in Hd as (x & y & ->). exists x, y. reflexivity.
Qed.

Lemma existsb_union : forall (c : N) l1 l2 l3,
  forallb (fun x => existsb (N.eqb x) l2 || existsb (N.eqb x) l3) l1 = true ->
  forallb (fun x => existsb (N.eqb x) l1) (l2 ++ l3) = true ->
  existsb (N.eqb c) l1 = existsb (N.eqb c) l2 || existsb (N.eqb c) l3.
Proof.
  intros c l1 l2 l3 H1 H2. rewrite forallb_forall in H1, H2.
  apply eq_iff_eq_true. rewrite orb_true_iff, !existsb_exists. split.
  - intros (d & Hd & E). apply N.eqb_eq in E. subst d.
    specialize (H1 c Hd). apply orb_true_iff in H1 as [H|H]; apply existsb_exists in H
      as (d & Hd' & E); apply N.eqb_eq in E; subst d; [left|right]; exists c;
      auto using N.eqb_refl.
  - intros [(d & Hd & E)|(d & Hd & E)]; apply N.eqb_eq in E; subst d;
      (assert (H : In c (l2 ++ l3)) by (apply in_or_app; auto));
      specialize (H2 c H); apply existsb_exists in H2 as (d & Hd' & E);
      apply N.eqb_eq in E; subst d; exists c; auto using N.eqb_refl.
Qed.

Lemma drop_spaces_head : forall t c r, drop_spaces t = c :: r -> is_space c = false.
Proof.
  induction t as [|d t IH]; intros c r H; [discriminate|].
  cbn [drop_spaces] in H. destruct (is_space d) eqn:Hd; [eauto|].
  injection H as <- _. exact Hd.
Qed.

(** A stripped string is empty or ends in a non-space. *)
Lemma strip_shape : forall s,
  strip s = [] \/ exists p c, strip s = p ++ [c] /\ is_space c = false.
Proof.
  intros s. unfold strip.
  destruct (drop_spaces (rev (drop_spaces s))) as [|c r] eqn:E; [left; reflexivity|].
  right. exists (rev r), c. split; [reflexivity|]. eapply drop_spaces_head; eauto.
Qed.

Lemma split_ws_acc_nonempty : forall s cur,
  cur <> [] \/ (exists c, In c s /\ is_space c = false) -> split_ws_acc cur s <> [].
Proof.
  induction s as [|d s IH]; intros cur H.
  - destruct H as [H|(c & [] & _)]. destruct cur; [contradiction|discriminate].
  - cbn [split_ws_acc]. destruct (is_space d) eqn:Hd.
    + destruct cur as [|x cur]; [|discriminate]. apply IH. right.
      destruct H as [H|(c & [->|Hc] & Hs)]; [contradiction|congruence|eauto].
    + apply IH. left. discriminate.
Qed.

Lemma index0_split_ws_ok : forall s c, In c s -> is_space c = false ->
  exists w, index0 (split_ws s) = Ok w.
Proof.
  intros s c Hin Hc. unfold split_ws.
  destruct (split_ws_acc [] s) as [|w ws] eqn:E; [|eexists; reflexivity].
  exfalso. revert E. apply split_ws_acc_nonempty. eauto.
Qed.

(* ------------------------------------------------------------------ *)
(** ** [make_past_tense] *)

Lemma regular_past_shape : forall verb,
  ends_with (_make_regular_past verb) (u "ed") = true
  /\ starts_with (_make_regular_past verb) (drop_last 1 verb) = true.
Proof.
  intros verb.
  assert (Hv : verb = drop_last 1 verb ++ skipn (length verb - 1) verb)
    by (symmetry; apply firstn_skipn).
  unfold _make_regular_past.
  destruct (ends_with verb (u "e")) eqn:He.
  - apply ends_with_spec in He as [y Ey]. split.
    + apply ends_with_spec. exists y. rewrite Ey, <- app_assoc. reflexivity.
    + apply starts_with_spec. exists (skipn (length verb - 1) verb ++ u "d").
      rewrite app_assoc, <- Hv. reflexivity.
  - destruct (_ && _ && _); split.
    + apply ends_with_spec. exists (drop_last 1 verb ++ firstn 1 (u "ied")).
      rewrite <- app_assoc. reflexivity.
    + apply starts_with_spec. exists (u "ied"). reflexivity.
    + apply ends_with_spec. exists verb. reflexivity.
    + apply starts_with_spec. exists (skipn (length verb - 1) verb ++ u "ed").
      rewrite app_assoc, <- Hv. reflexivity.
Qed.

Lemma base_after_ok : forall n pre verb p c,
  length pre = n -> verb = pre ++ skipn n verb -> verb = p ++ [c] ->
  is_space c = false -> exists w, base_after n verb = Ok w.
Proof.
  intros n pre verb p c Hn Hpre Hpc Hc. unfold base_after.
  destruct (skipn n verb) as [|d t] eqn:E; [eexists; reflexivity|].
  destruct (exists_last (l := d :: t) ltac:(discriminate)) as (t' & d' & Et).
  assert (Hx : p ++ [c] = (pre ++ t') ++ [d'])
    by (rewrite <- app_assoc, <- Et, <- Hpc; exact Hpre).
  apply app_inj_tail in Hx as [_ Hx]. subst d'.
  apply index0_split_ws_ok with c; [rewrite Et; apply in_or_app; simpl; auto|exact Hc].
Qed.

Lemma make_past_tense_ok : forall py_lower getInflection verb,
  strip (py_lower verb) <> [] ->
  exists r, make_past_tense py_lower getInflection verb = Ok r.
Proof.
  intros py_lower getInflection verb Hne. unfold make_past_tense.
  destruct (strip_shape (py_lower verb)) as [E|(p & c & E & Hc)]; [contradiction|].
  set (v := strip (py_lower verb)) in *.
  destruct (starts_with v (u "to ")) eqn:Hto.
  - apply starts_with_spec in Hto as [t Et].
    destruct (base_after_ok 3 (u "to ") v p c) as [w Hw]; auto.
    { rewrite Et at 2. rewrite skipn_app. exact Et. }
    rewrite Hw. eexists; reflexivity.
  - destruct (starts_with v (u "not ")) eqn:Hnot.
    + apply starts_with_spec in Hnot as [t Et].
      destruct (base_after_ok 4 (u "not ") v p c) as [w Hw]; auto.
      { rewrite Et at 2. rewrite skipn_app. exact Et. }
      rewrite Hw. eexists; reflexivity.
    + destruct (index0_split_ws_ok v c) as [w Hw]; auto.
      { rewrite E. apply in_or_app. simpl. auto. }
      rewrite Hw. eexists; reflexivity.
Qed.

Lemma make_past_tense_empty : forall py_lower getInflection verb,
  strip (py_lower verb) = [] ->
  make_past_tense py_lower getInflection verb = Err IndexError.
Proof.
  intros py_lower getInflection verb E. unfold make_past_tense. rewrite E.
  replace (starts_with [] (u "to ")) with false by (vm_compute; reflexivity).
  replace (starts_with [] (u "not ")) with false by (vm_compute; reflexivity).
  reflexivity.
Qed.

(** Extra X1, [_make_regular_past]: the regular past tense always ends in
    "ed", and it begins with the verb less at most its last character. *)
Theorem make_regular_past_ed : forall verb,
  ends_with (_make_regular_past verb) (u "ed") = true
  /\ starts_with (_make_regular_past verb) (drop_last 1 verb) = true.
Proof. exact regular_past_shape. Qed.

(** Extra X2, [make_past_tense]: it fails exactly when the lowered and
    stripped input is empty, and then with [IndexError] (from
    [verb.split()[0]]); for every case mapping and every inflector. *)
Theorem make_past_tense_errors : forall py_lower getInflection verb e,
  make_past_tense py_lower getInflection verb = Err e
  <-> e = IndexError /\ strip (py_lower verb) = [].
Proof.
  intros py_lower getInflection verb e.
  destruct (strip (py_lower verb)) as [|c s] eqn:E.
  - rewrite make_past_tense_empty by exact E.
    split; [intros H; injection H as <-; auto|intros [-> _]; reflexivity].
  - destruct (make_past_tense_ok py_lower getInflection verb) as [r Hr]; [congruence|].
    rewrite Hr. split; [discriminate|intros [_ H]; discriminate].
Qed.

(** Extra X3, [make_past_tense] and [_inflect_past]: when the inflector
    finds no form for any word (it raises or returns nothing), every
    result ends in "ed" or starts with "didn't ". *)
Theorem make_past_tense_regular : forall py_lower getInflection verb r,
  (forall w x l, getInflection w <> Ok (x :: l)) ->
  make_past_tense py_lower getInflection verb = Ok r ->
  ends_with r (u "ed") = true \/ starts_with r (u "didn't ") = true.
Proof.
  intros py_lower getInflection verb r Hg H.
  assert (Hi : forall w, _inflect_past getInflection w = _make_regular_past w).
  { intros w. unfold _inflect_past. specialize (Hg w).
    destruct (getInflection w) as [[|x l]|] eqn:E;
      [reflexivity|exfalso; eapply Hg; reflexivity|reflexivity]. }
  unfold make_past_tense in H.
  destruct (starts_with _ (u "to ")).
  - destruct (base_after 3 _) as [b|]; [|discriminate]. cbn in H. injection H as <-.
    left. rewrite Hi. apply regular_past_shape.
  - destruct (starts_with _ (u "not ")).
    + destruct (base_after 4 _) as [b|]; [|discriminate]. cbn in H. injection H as <-.
      right. apply starts_with_spec. eexists. reflexivity.
    + destruct (index0 _) as [b|]; [|discriminate]. cbn in H. injection H as <-.
      left. rewrite Hi. apply regular_past_shape.
Qed.

Lemma make_past_tense_regular_witness :
  (forall w x l, (fun _ : str => Ok (@nil str)) w <> Ok (x :: l)) /\
  make_past_tense (fun s => s) (fun _ => Ok []) (u "walk") = Ok (u "walked") /\
  (ends_with (u "walked") (u "ed") = true \/ starts_with (u "walked") (u "didn't ") = true).
Proof.
  assert (Hg : forall w x l, (fun _ : str => Ok (@nil str)) w <> Ok (x :: l))
    by (intros w x l H; discriminate H).
  assert (Hm : make_past_tense (fun s => s) (fun _ => Ok []) (u "walk") = Ok (u "walked"))
    by (vm_compute; reflexivity).
  split; [exact Hg|]. split; [exact Hm|].
  exact (make_past_tense_regular (fun s => s) (fun _ => Ok []) (u "walk") (u "walked") Hg Hm).
Defined.

(* ------------------------------------------------------------------ *)
(** ** [generate_translation_hint]: where it raises *)

Lemma run_cases_handled : forall a type2 st, hint_handled a = true ->
  exists st', run_cases a (aux_cases type2) st = Ok st'.
Proof. intros a [|] st H; destruct a; try discriminate H; cbv - [app]; eauto. Qed.

Lemma run_cases_unhandled : forall a type2 st, hint_handled a = false ->
  run_cases a (aux_cases type2) st = Err AttributeError.
Proof. intros a [|] st H; destruct a; try discriminate H; reflexivity. Qed.

Lemma hint_loop_unhandled : forall type2 auxs st,
  existsb (fun a => negb (hint_handled a)) auxs = true ->
  hint_loop type2 auxs st = Err AttributeError.
Proof.
  intros type2 auxs. induction auxs as [|a auxs IH]; intros st H; [discriminate|].
  cbn [hint_loop]. cbn [existsb] in H.
  destruct (hint_handled a) eqn:Ha.
  - destruct (run_cases_handled a type2 st Ha) as [st' E]. rewrite E. apply IH, H.
  - rewrite run_cases_unhandled by exact Ha. reflexivity.
Qed.

Lemma hint_loop_handled : forall type2 auxs st,
  existsb (fun a => negb (hint_handled a)) auxs = false ->
  exists st', hint_loop type2 auxs st = Ok st'.
Proof.
  intros type2 auxs. induction auxs as [|a auxs IH]; intros st H; [eexists; reflexivity|].
  cbn [hint_loop]. cbn [existsb] in H. apply orb_false_iff in H as [Ha H].
  apply negb_false_iff in Ha.
  destruct (run_cases_handled a type2 st Ha) as [st' E]. rewrite E. apply IH, H.
Qed.

(** Extra X4, [generate_translation_hint] with [make_past_tense]: for a
    non-empty gloss whose first meaning (before ";" and ",", stripped) is
    empty, the hint of the plain past and of the tara conditional raises
    [IndexError]. *)
Theorem translation_hint_empty_gloss :
  forall py_lower getInflection base_meaning conjugation type2,
  py_lower [] = [] -> base_meaning <> [] ->
  strip (split_first 44 (split_first 59 base_meaning)) = [] ->
  conjugation = TA \/ conjugation = TARA ->
  generate_translation_hint (make_past_tense py_lower getInflection)
    base_meaning [] conjugation type2 = Err IndexError.
Proof.
  intros py_lower getInflection bm conjugation type2 Hl Hb Hs Hc.
  destruct bm as [|c bm]; [contradiction|].
  unfold generate_translation_hint. cbv beta iota zeta. rewrite Hs.
  replace (starts_with [] (u "to ")) with false by (vm_compute; reflexivity).
  cbn [hint_loop bind fst].
  assert (Hm : make_past_tense py_lower getInflection [] = Err IndexError)
    by (apply make_past_tense_empty; rewrite Hl; reflexivity).
  destruct Hc as [->| ->].
  - replace (ends_with [] (u "ing")) with false by (vm_compute; reflexivity).
    replace (contains [] (u "can ")) with false by (vm_compute; reflexivity).
    replace (contains [] (u "not")) with false by (vm_compute; reflexivity).
    exact Hm.
  - replace (contains [] (u "not")) with false by (vm_compute; reflexivity).
    rewrite Hm. reflexivity.
Qed.

Lemma translation_hint_empty_gloss_witness :
  (fun s : str => s) [] = [] /\ u "; rice" <> [] /\
  strip (split_first 44 (split_first 59 (u "; rice"))) = [] /\ (TA = TA \/ TA = TARA) /\
  generate_translation_hint (make_past_tense (fun s => s) (fun _ => Ok []))
    (u "; rice") [] TA false = Err IndexError.
Proof.
  assert (H1 : (fun s : str => s) [] = []) by reflexivity.
  assert (H2 : u "; rice" <> []) by (vm_compute; discriminate).
  assert (H3 : strip (split_first 44 (split_first 59 (u "; rice"))) = [])
    by (vm_compute; reflexivity).
  assert (H4 : TA = TA \/ TA = TARA) by (left; reflexivity).
  split; [exact H1|]. split; [exact H2|]. split; [exact H3|]. split; [exact H4|].
  exact (translation_hint_empty_gloss (fun s => s) (fun _ => Ok []) (u "; rice") TA false
           H1 H2 H3 H4).
Defined.

(** Extra X5, [generate_translation_hint]: for a non-empty gloss, the hint
    raises [AttributeError] whenever the chain has an auxiliary without a
    case before [case Auxiliary.NASAI]; otherwise it raises only for the
    plain past and the tara conditional, and then with an exception of
    [make_past_tense]. *)
Theorem translation_hint_errors : forall mpt base_meaning auxs conjugation type2,
  base_meaning <> [] ->
  (existsb (fun a => negb (hint_handled a)) auxs = true ->
     generate_translation_hint mpt base_meaning auxs conjugation type2 = Err AttributeError)
  /\ (existsb (fun a => negb (hint_handled a)) auxs = false -> forall e,
     generate_translation_hint mpt base_meaning auxs conjugation type2 = Err e ->
     (conjugation = TA \/ conjugation = TARA) /\ exists h, mpt h = Err e).
Proof.
  intros mpt bm auxs conjugation type2 Hb.
  destruct bm as [|c bm]; [contradiction|].
  unfold generate_translation_hint. cbv beta iota zeta. split.
  - intros Hu. rewrite hint_loop_unhandled by exact Hu. reflexivity.
  - intros Hh e. edestruct hint_loop_handled as [st' E]; [exact Hh|]. rewrite E.
    cbn [bind]. intros H.
    destruct conjugation; try discriminate H;
      repeat match type of H with
             | context [if ?b then _ else _] => destruct b
             end; try discriminate H.
    + split; [auto|]. eexists; exact H.
    + split; [auto|]. destruct (mpt _) eqn:Em; [discriminate H|].
      injection H as <-. eexists; exact Em.
Qed.

Lemma translation_hint_errors_witness :
  u "eat" <> [] /\
  ((existsb (fun a => negb (hint_handled a)) [MASU] = true ->
     generate_translation_hint (fun _ => Ok []) (u "eat") [MASU] TA false = Err AttributeError)
  /\ (existsb (fun a => negb (hint_handled a)) [MASU] = false -> forall e,
     generate_translation_hint (fun _ => Ok []) (u "eat") [MASU] TA false = Err e ->
     (TA = TA \/ TA = TARA) /\ exists h, (fun _ : str => @Ok str []) h = Err e)).
Proof.
  assert (Hb : u "eat" <> []) by (vm_compute; discriminate).
  split; [exact Hb|].
  exact (translation_hint_errors (fun _ => Ok []) (u "eat") [MASU] TA false Hb).
Defined.

(* ------------------------------------------------------------------ *)
(** ** Verb class heuristics *)

(** Extra X6, [is_verb_type2]: the tests for "上一段" and "下一段" never
    change the outcome; a tuple is ichidan exactly when one of its fields
    contains "一段". *)
Theorem is_verb_type2_ichidan : forall pos_tuple,
  is_verb_type2 pos_tuple = existsb (fun p => contains p (u "一段")) pos_tuple.
Proof.
  assert (E1 : u "上一段" = firstn 1 (u "上一段") ++ u "一段") by (vm_compute; reflexivity).
  assert (E2 : u "下一段" = firstn 1 (u "下一段") ++ u "一段") by (vm_compute; reflexivity).
  induction pos_tuple as [|p ps IH]; [reflexivity|].
  cbn [is_verb_type2 existsb]. rewrite <- IH.
  destruct (contains p (u "一段")) eqn:H; [reflexivity|].
  rewrite E1, E2.
  destruct (contains p (firstn 1 (u "上一段") ++ u "一段")) eqn:H1;
    [apply contains_app_r in H1; congruence|].
  destruct (contains p (firstn 1 (u "下一段") ++ u "一段")) eqn:H2;
    [apply contains_app_r in H2; congruence|].
  reflexivity.
Qed.

(** Extra X7, [identify_verb_type] and the fallback of [conjugate_word]:
    for a word of two or more characters ending in "る", [identify_verb_type]
    says ichidan exactly when the fallback of [conjugate_word] (taken when
    the analyzer raises) does, or the character before "る" is one of
    ぎじびぴげぜべぺ, which only [identify_verb_type] accepts. *)
Theorem identify_verb_type_fallback : forall e word,
  ends_with word (u "る") = true -> 2 <= length word ->
  identify_verb_type word =
    conjugate_word_type2 (Err e) word
    || contains (u "ぎじびぴげぜべぺ") [nth (length word - 2) word 0%N].
Proof.
  intros e word Hr Hl. unfold identify_verb_type, conjugate_word_type2.
  rewrite Hr. apply Nat.leb_le in Hl. rewrite Hl. cbn [andb].
  rewrite !contains_single. apply existsb_union; vm_compute; reflexivity.
Qed.

Lemma identify_verb_type_fallback_witness :
  ends_with (u "たべる") (u "る") = true /\ 2 <= length (u "たべる") /\
  identify_verb_type (u "たべる") =
    conjugate_word_type2 (Err ValueError) (u "たべる")
    || contains (u "ぎじびぴげぜべぺ") [nth (length (u "たべる") - 2) (u "たべる") 0%N].
Proof.
  assert (H1 : ends_with (u "たべる") (u "る") = true) by (vm_compute; reflexivity).
  assert (H2 : 2 <= length (u "たべる")) by (vm_compute; lia).
  split; [exact H1|]. split; [exact H2|].
  exact (identify_verb_type_fallback ValueError (u "たべる") H1 H2).
Defined.

(* ------------------------------------------------------------------ *)
(** ** [conjugate_word], verb branch *)

Lemma map_fst_dict_setitem : forall {V} k (v : V) d,
  map fst (dict_setitem k v d)
  = if str_in k (map fst d) then map fst d else map fst d ++ [k].
Proof.
  intros V k v d. induction d as [|[k' v'] d IH]; [reflexivity|].
  cbn [dict_setitem map fst str_in existsb]. unfold str_in in IH.
  destruct (str_eqb k k'); [reflexivity|]. cbn [orb map fst]. rewrite IH.
  destruct (existsb _ _); reflexivity.
Qed.

Lemma in_dict_setitem : forall {V} k (v : V) d k0 v0,
  In (k0, v0) (dict_setitem k v d) -> In (k0, v0) d \/ v0 = v.
Proof.
  intros V k v d k0 v0. induction d as [|[k' v'] d IH]; cbn [dict_setitem].
  - intros [H|[]]. injection H as _ <-. auto.
  - destruct (str_eqb k k'); intros [H|H].
    + injection H as _ <-. auto.
    + left. right. exact H.
    + left. left. exact H.
    + destruct (IH H); [left; right|right]; assumption.
Qed.

Lemma conjugate_forms_keys : forall py_lower word type2 forms acc,
  map fst (fold_left (conjugate_form py_lower word type2) forms acc)
  = map fst acc ++ dedup_seen (map fst acc)
      (filter (fun f => match assoc (form_key py_lower f) form_map with
                        | Some _ => true | None => false end) forms).
Proof.
  intros py_lower word type2 forms. induction forms as [|f forms IH]; intros acc.
  - rewrite app_nil_r. reflexivity.
  - cbn [fold_left filter]. rewrite IH. unfold conjugate_form.
    destruct (assoc (form_key py_lower f) form_map) as [[c a]|]; [|reflexivity].
    cbn [dedup_seen]. rewrite map_fst_dict_setitem.
    destruct (str_in f (map fst acc)); [reflexivity|].
    rewrite <- app_assoc. reflexivity.
Qed.

Lemma conjugate_forms_lengths : forall py_lower word type2 forms acc,
  (forall k vs r, In (k, vs) acc -> In r vs -> 2 <= length r) ->
  forall k vs r, In (k, vs) (fold_left (conjugate_form py_lower word type2) forms acc) ->
  In r vs -> 2 <= length r.
Proof.
  intros py_lower word type2 forms. induction forms as [|f forms IH]; intros acc Hacc;
    cbn [fold_left]; [exact Hacc|].
  apply IH. intros k vs r Hin Hr. unfold conjugate_form in Hin.
  destruct (assoc (form_key py_lower f) form_map) as [[c a]|]; [|eauto].
  apply in_dict_setitem in Hin as [Hin| ->]; [eauto|].
  destruct (match a with [] => _ | _ :: _ => _ end); [|destruct Hr].
  apply filter_In in Hr as [_ Hr]. apply Nat.ltb_lt in Hr. lia.
Qed.

(** Extra X8, [conjugate_word] (verb branch): the response has one entry
    per requested form name whose normalized key is in [form_map] (the
    seven default forms when none is requested), in the order of first
    request, a repeated name giving one entry and an unknown one none;
    and no listed surface has fewer than two characters. *)
Theorem conjugate_word_verb_entries : forall py_lower tok word requested_forms,
  map fst (conjugate_word_verb py_lower tok word requested_forms)
  = dedup_seen []
      (filter (fun f => match assoc (form_key py_lower f) form_map with
                        | Some _ => true | None => false end)
         (match requested_forms with
          | None | Some [] => default_verb_forms
          | Some l => l
          end))
  /\ (forall form_name surfaces r,
        In (form_name, surfaces) (conjugate_word_verb py_lower tok word requested_forms) ->
        In r surfaces -> 2 <= length r).
Proof.
  intros py_lower tok word requested_forms. unfold conjugate_word_verb. split.
  - rewrite conjugate_forms_keys. reflexivity.
  - apply conjugate_forms_lengths. intros k vs r [].
Qed.

(* ------------------------------------------------------------------ *)
(** ** [deconjugate_verb]: what it reports is genuine *)

Lemma try_hit_sound : forall S r auxs c hits hits' h,
  try_hit S r auxs c hits = Ok hits' -> In h hits' ->
  In h hits \/ exists L, r = Ok L /\ str_in S L = true
    /\ h = {| auxiliaries := auxs; conjugation := c; vd_result := L |}.
Proof.
  intros S r auxs c hits hits' h E Hin. unfold try_hit in E.
  destruct r as [L|[| |]]; try discriminate E.
  - destruct (str_in S L) eqn:HS; injection E as <-; [|auto].
    apply in_app_or in Hin as [Hin|[<-|[]]]; [auto|right; eauto].
  - injection E as <-. auto.
Qed.

Lemma scan_sound : forall S f (P : VerbDeconjugated -> Prop) cands hits hits',
  (forall a c L, In (a, c) cands -> f a c = Ok L -> str_in S L = true ->
     P {| auxiliaries := a; conjugation := c; vd_result := L |}) ->
  scan S f cands hits = Ok hits' -> forall h, In h hits' -> In h hits \/ P h.
Proof.
  intros S f P cands. induction cands as [|[a c] cands IH]; intros hits hits' HP E h Hin.
  - injection E as <-. auto.
  - cbn [scan] in E. destruct (try_hit S (f a c) a c hits) as [h1|] eqn:E1; [|discriminate E].
    cbn [bind] in E.
    destruct (IH h1 hits' (fun a' c' L Hi => HP a' c' L (or_intror Hi)) E h Hin) as [H1|H1];
      [|auto].
    destruct (try_hit_sound S (f a c) a c hits h1 h E1 H1) as [H2|(L & EL & HS & ->)];
      [auto|right; apply HP; auto; left; reflexivity].
Qed.

(** Extra X9, [deconjugate_verb]: every analysis it reports is genuine.
    For a dictionary form other than だ and です, re-conjugating it with the
    reported chain and conjugation gives exactly the reported list of
    forms, which contains the input surface; and a non-empty chain is no
    longer than [max_aux_depth]. *)
Theorem deconjugate_verb_sound : forall S D t d hits h,
  str_in D [u "だ"; u "です"] = false ->
  deconjugate_verb S D t d = Ok hits -> In h hits ->
  conjugate_auxiliaries D (auxiliaries h) (conjugation h) t = Ok (vd_result h)
  /\ str_in S (vd_result h) = true
  /\ (auxiliaries h = [] \/ (Z.of_nat (length (auxiliaries h)) <= d)%Z).
Proof.
  intros S D t d hits h HD E Hin.
  assert (H0 : forall a c L, In (a, c) depth0_cands -> conjugate D c t = Ok L ->
            str_in S L = true -> sound_hit S D t 0 {| auxiliaries := a; conjugation := c; vd_result := L |}).
  { intros a c L Hi EL HS. apply in_with_conjs_inv in Hi as [<-|[]].
    split; [exact EL|]. split; [exact HS|reflexivity]. }
  assert (H1 : forall a c L, In (a, c) depth1_cands ->
            match a with [aux] => _conjugate_auxiliary D aux c t | _ => Err ValueError end = Ok L ->
            str_in S L = true -> sound_hit S D t 1 {| auxiliaries := a; conjugation := c; vd_result := L |}).
  { intros a c L Hi EL HS. apply in_with_conjs_inv, in_map_iff in Hi as (aux & <- & _).
    split; [|split; [exact HS|reflexivity]]. cbn [auxiliaries conjugation vd_result].
    rewrite conjugate_auxiliaries_single by exact HD. rewrite EL. cbn [bind].
    rewrite app_nil_r. reflexivity. }
  assert (H2 : forall a c L, In (a, c) depth2_cands -> conjugate_auxiliaries D a c t = Ok L ->
            str_in S L = true -> sound_hit S D t 2 {| auxiliaries := a; conjugation := c; vd_result := L |}).
  { intros a c L Hi EL HS. apply in_with_conjs_inv, in_flat_map in Hi as (p & _ & Hi).
    apply in_map_iff in Hi as (f & <- & _). split; [exact EL|]. split; [exact HS|reflexivity]. }
  assert (H3 : forall a c L, In (a, c) depth3_cands -> conjugate_auxiliaries D a c t = Ok L ->
            str_in S L = true -> sound_hit S D t 3 {| auxiliaries := a; conjugation := c; vd_result := L |}).
  { intros a c L Hi EL HS. apply in_with_conjs_inv, in_flat_map in Hi as (a' & _ & Hi).
    apply in_flat_map in Hi as (p & _ & Hi).
    apply in_map_iff in Hi as (f & <- & _). split; [exact EL|]. split; [exact HS|reflexivity]. }
  assert (Hfin : forall n, sound_hit S D t n h -> (n = 0 \/ (Z.of_nat n <= d)%Z) ->
            conjugate_auxiliaries D (auxiliaries h) (conjugation h) t = Ok (vd_result h)
            /\ str_in S (vd_result h) = true
            /\ (auxiliaries h = [] \/ (Z.of_nat (length (auxiliaries h)) <= d)%Z)).
  { intros n (Ec & HS & Hl) Hn. split; [exact Ec|]. split; [exact HS|].
    destruct Hn as [->|Hn]; [left; apply length_zero_iff_nil, Hl|right; rewrite Hl; exact Hn]. }
  unfold deconjugate_verb in E.
  destruct (scan S _ depth0_cands []) as [h0|] eqn:E0; [|discriminate E]. cbn [bind] in E.
  assert (G0 : forall h, In h h0 -> sound_hit S D t 0 h).
  { intros h' Hh'. destruct (scan_sound _ _ _ _ _ _ H0 E0 h' Hh') as [[]|G]; exact G. }
  destruct (d <? 1)%Z eqn:Ed1.
  { injection E as <-. apply (Hfin 0); auto. }
  apply Z.ltb_ge in Ed1.
  destruct (scan S _ depth1_cands h0) as [h1|] eqn:E1; [|discriminate E]. cbn [bind] in E.
  assert (G1 : forall h, In h h1 -> sound_hit S D t 0 h \/ sound_hit S D t 1 h).
  { intros h' Hh'. destruct (scan_sound _ _ _ _ _ _ H1 E1 h' Hh'); auto. }
  destruct (d <? 2)%Z eqn:Ed2.
  { injection E as <-. destruct (G1 h Hin); [apply (Hfin 0)|apply (Hfin 1)]; auto;
      right; simpl; lia. }
  apply Z.ltb_ge in Ed2.
  destruct (scan S _ depth2_cands h1) as [h2|] eqn:E2; [|discriminate E]. cbn [bind] in E.
  assert (G2 : forall h, In h h2 -> sound_hit S D t 0 h \/ sound_hit S D t 1 h
                                   \/ sound_hit S D t 2 h).
  { intros h' Hh'. destruct (scan_sound _ _ _ _ _ _ H2 E2 h' Hh') as [G|G]; auto.
    destruct (G1 h' G); auto. }
  destruct (d <? 3)%Z eqn:Ed3.
  { injection E as <-. destruct (G2 h Hin) as [G|[G|G]];
      [apply (Hfin 0)|apply (Hfin 1)|apply (Hfin 2)]; auto; right; simpl; lia. }
  apply Z.ltb_ge in Ed3.
  destruct (scan_sound _ _ _ _ _ _ H3 E h Hin) as [G|G].
  - destruct (G2 h G) as [G'|[G'|G']];
      [apply (Hfin 0)|apply (Hfin 1)|apply (Hfin 2)]; auto; right; simpl; lia.
  - apply (Hfin 3); auto; right; simpl; lia.
Qed.

Lemma deconjugate_verb_sound_witness :
  let hits := [{| auxiliaries := []; conjugation := NEGATIVE;
                  vd_result := [u "食べ"; u "食べない"] |};
               {| auxiliaries := [NAI]; conjugation := DICTIONARY;
                  vd_result := [u "食べない"] |}] in
  let h := {| auxiliaries := [NAI]; conjugation := DICTIONARY;
              vd_result := [u "食べない"] |} in
  (str_in (u "食べる") [u "だ"; u "です"] = false
   /\ deconjugate_verb (u "食べない") (u "食べる") true 1 = Ok hits /\ In h hits)
  /\ conjugate_auxiliaries (u "食べる") (auxiliaries h) (conjugation h) true = Ok (vd_result h)
  /\ str_in (u "食べない") (vd_result h) = true
  /\ (auxiliaries h = [] \/ (Z.of_nat (length (auxiliaries h)) <= 1)%Z).
Proof.
  intros hits h.
  assert (H1 : str_in (u "食べる") [u "だ"; u "です"] = false) by (vm_compute; reflexivity).
  assert (H2 : deconjugate_verb (u "食べない") (u "食べる") true 1 = Ok hits)
    by (vm_compute; reflexivity).
  assert (H3 : In h hits) by (right; left; reflexivity).
  split; [split; [exact H1|split; [exact H2|exact H3]]|].
  exact (deconjugate_verb_sound (u "食べない") (u "食べる") true 1 hits h H1 H2 H3).
Defined.

(* ------------------------------------------------------------------ *)
(** ** [_find_best_entry]: which entry is returned *)

Lemma best_of_spec : forall nfd word reading is_counter l b sb e s,
  best_of nfd word reading is_counter l (Some (b, sb)) = Some (e, s) ->
  (e = b /\ s = sb /\ forall x, In x l -> entry_score nfd word reading is_counter x <= sb)
  \/ (exists pre post, l = pre ++ e :: post
        /\ s = entry_score nfd word reading is_counter e /\ sb < s
        /\ (forall x, In x pre -> entry_score nfd word reading is_counter x < s)
        /\ (forall x, In x post -> entry_score nfd word reading is_counter x <= s)).
Proof.
  intros nfd word reading is_counter l. set (sc := entry_score nfd word reading is_counter).
  induction l as [|x l IH]; intros b sb e s H.
  - injection H as -> ->. left. split; [reflexivity|]. split; [reflexivity|]. intros x [].
  - cbn [best_of] in H. fold sc in H. destruct (Nat.ltb sb (sc x)) eqn:Hlt.
    + apply Nat.ltb_lt in Hlt.
      destruct (IH x (sc x) e s H) as [(-> & -> & Hall)|(pre & post & -> & Hs & Hlt' & Hpre & Hpost)].
      * right. exists [], l. split; [reflexivity|]. split; [reflexivity|].
        split; [exact Hlt|]. split; [intros y []|exact Hall].
      * right. exists (x :: pre), post. split; [reflexivity|]. split; [exact Hs|].
        split; [lia|]. split; [|exact Hpost].
        intros y [<-|Hy]; [lia|auto].
    + apply Nat.ltb_ge in Hlt.
      destruct (IH b sb e s H) as [(-> & -> & Hall)|(pre & post & -> & Hs & Hlt' & Hpre & Hpost)].
      * left. split; [reflexivity|]. split; [reflexivity|].
        intros y [<-|Hy]; [exact Hlt|auto].
      * right. exists (x :: pre), post. split; [reflexivity|]. split; [exact Hs|].
        split; [exact Hlt'|]. split; [|exact Hpost].
        intros y [<-|Hy]; [lia|auto].
Qed.

Lemma best_of_some : forall nfd word reading is_counter l p,
  best_of nfd word reading is_counter l (Some p) <> None.
Proof.
  intros nfd word reading is_counter l. induction l as [|x l IH]; intros [b sb];
    [discriminate|]. cbn [best_of]. destruct (Nat.ltb _ _); apply IH.
Qed.

(** Extra X10, [_find_best_entry]: it returns [None] exactly when the word
    has no entry in the kanji index (a missing or empty list) nor in the
    kana index, and, when [include_names] is set, none in the two name
    indexes either. *)
Theorem find_best_entry_none : forall nfd d word reading is_counter include_names,
  _find_best_entry nfd d word reading is_counter include_names = None
  <-> get_or (_index_kanji d) (_index_kana d) word = []
      /\ (include_names = false
          \/ get_or (_index_names_kanji d) (_index_names_kana d) word = []).
Proof.
  intros nfd d word reading is_counter include_names. unfold _find_best_entry.
  destruct (get_or (_index_kanji d) (_index_kana d) word) as [|e0 es].
  - destruct include_names.
    + destruct (get_or (_index_names_kanji d) (_index_names_kana d) word) as [|e1 es1].
      * split; auto.
      * cbn. destruct (best_of _ _ _ _ _ _) as [[e s]|];
          split; (discriminate || intros [_ [H|H]]; discriminate H).
    + split; auto.
  - cbn. destruct (best_of _ _ _ _ _ _) as [[e s]|];
      split; (discriminate || intros [H _]; discriminate H).
Qed.

(** Extra X11, [_find_best_entry]: the entry returned is the first entry of
    highest score among the candidates: every candidate before it scores
    strictly less, every one after it no more. *)
Theorem find_best_entry_first_max :
  forall nfd d word reading is_counter include_names e,
  _find_best_entry nfd d word reading is_counter include_names = Some e ->
  let entries :=
    match get_or (_index_kanji d) (_index_kana d) word with
    | [] => if include_names
            then get_or (_index_names_kanji d) (_index_names_kana d) word else []
    | l => l
    end in
  exists pre post, entries = pre ++ e :: post
    /\ (forall x, In x pre ->
          entry_score nfd word reading is_counter x < entry_score nfd word reading is_counter e)
    /\ (forall x, In x post ->
          entry_score nfd word reading is_counter x <= entry_score nfd word reading is_counter e).
Proof.
  intros nfd d word reading is_counter include_names e H entries.
  unfold _find_best_entry in H.
  assert (Hgen : forall l, match l with [] => None | e0 :: _ =>
             match best_of nfd word reading is_counter l None with
             | Some (e, _) => Some e | None => Some e0 end end = Some e ->
           exists pre post, l = pre ++ e :: post
           /\ (forall x, In x pre -> entry_score nfd word reading is_counter x
                                     < entry_score nfd word reading is_counter e)
           /\ (forall x, In x post -> entry_score nfd word reading is_counter x
                                      <= entry_score nfd word reading is_counter e)).
  { intros [|e0 es] Hl; [discriminate Hl|]. cbn [best_of] in Hl.
    destruct (best_of nfd word reading is_counter es _) as [[e' s]|] eqn:Eb.
    2:{ exfalso; exact (best_of_some _ _ _ _ _ _ Eb). }
    injection Hl as <-.
    destruct (best_of_spec nfd word reading is_counter es e0 _ e' s Eb)
      as [(-> & -> & Hall)|(pre & post & -> & Hs & Hlt & Hpre & Hpost)].
    - exists [], es. split; [reflexivity|]. split; [intros x []|exact Hall].
    - subst s. exists (e0 :: pre), post. split; [reflexivity|]. split; [|exact Hpost].
      intros x [<-|Hx]; [exact Hlt|auto]. }
  apply Hgen. subst entries.
  destruct (get_or (_index_kanji d) (_index_kana d) word); [destruct include_names|]; exact H.
Qed.

Lemma find_best_entry_first_max_witness :
  let e1 := {| entry_kanji := [];
               entry_kana := [{| kana_text := Some (u "は"); kana_common := false |}];
               entry_sense := [] |} in
  let e2 := {| entry_kanji := [];
               entry_kana := [{| kana_text := Some (u "は"); kana_common := true |}];
               entry_sense := [] |} in
  let d := {| _index_kanji := [(u "羽", [e1; e2])]; _index_kana := [];
              _index_names_kanji := []; _index_names_kana := [] |} in
  _find_best_entry nfd_kana d (u "羽") None false false = Some e2
  /\ exists pre post, [e1; e2] = pre ++ e2 :: post
    /\ (forall x, In x pre ->
          entry_score nfd_kana (u "羽") None false x < entry_score nfd_kana (u "羽") None false e2)
    /\ (forall x, In x post ->
          entry_score nfd_kana (u "羽") None false x <= entry_score nfd_kana (u "羽") None false e2).
Proof.
  intros e1 e2 d.
  assert (H : _find_best_entry nfd_kana d (u "羽") None false false = Some e2)
    by (vm_compute; reflexivity).
  split; [exact H|].
  exact (find_best_entry_first_max nfd_kana d (u "羽") None false false e2 H).
Defined.

(* ------------------------------------------------------------------ *)
(** ** [conjugate] depends only on the ending of the verb *)

(** Extra X12, [conjugate]: for an ending [s] that is not a suffix of
    する, くる, 来る, だ, です, ある, ござる, いらっしゃる, 行く or いく, nor a
    proper suffix of くださる, conjugating [x ++ s] gives the forms of [s]
    with [x] put in front of each, and the same exception when [s] has
    none. *)
Theorem conjugate_prefix_invariant : forall x s conj type2,
  suffix_ok s = true ->
  conjugate (x ++ s) conj type2 = rmap (map (app x)) (conjugate s conj type2).
Proof. intros x s conj type2 Hs. apply conjugate_app, Hs. Qed.

Lemma conjugate_prefix_invariant_witness :
  suffix_ok (u "べる") = true /\
  conjugate (u "食" ++ u "べる") NEGATIVE true
  = rmap (map (app (u "食"))) (conjugate (u "べる") NEGATIVE true).
Proof.
  assert (H : suffix_ok (u "べる") = true) by (vm_compute; reflexivity).
  split; [exact H|]. exact (conjugate_prefix_invariant (u "食") (u "べる") NEGATIVE true H).
Defined.
